(** * Memex-Neural: ingestion, indexing and hybrid retrieval

    A shallow embedding of the event bus ([src/core/events.py]), the
    archiver and vectorizer plugins ([src/plugins/core_archiver.py],
    [src/plugins/core_vectorizer.py]) and the retrieval agent
    ([src/services/agents/retrieval_agent.py]), with the properties the
    specification states about them; and of the code around them: the
    names and target paths of the archiver, the plugin manager
    ([src/core/plugins.py]), the embedding service
    ([src/services/ai_service.py]), the document vectors and their batch
    job ([src/api/data_endpoints.py]), the entry point of an upload
    ([src/services/processor.py]), the default storage root and the public
    URLs of files ([src/services/file_service.py]).

    Conventions of the embedding:
    - Python [str] values are lists of 8-bit characters ([text]); the
      identifiers used as dictionary keys, event names and function names
      are [string]s.
    - Python [float] scores are rationals ([Q]); the code only compares
      them, adds and multiplies them by constants.
    - Python dictionaries whose iteration order is observable are
      insertion-ordered association lists ([odict]); the subscriber table
      of the bus, whose order of keys is never observed, is a [gmap].
    - Calls that may raise return an explicit [Returned]/[Raised] result. *)

From Stdlib Require Import ZArith QArith Lia String Ascii.
From stdpp Require Import gmap strings list sorting pretty.
From Equations Require Import Equations.

(** Python text: a sequence of characters. *)
Abbreviation text := (list ascii).

Definition T (s : string) : text := list_ascii_of_string s.

(** ** Exceptions *)

(** An exception of class [Exception], carrying [str(e)]. *)
Inductive exn : Type := Exception (msg : string).

Inductive result (A : Type) : Type :=
  | Returned (a : A)
  | Raised (e : exn).
Arguments Returned {A} a.
Arguments Raised {A} e.

(** ** Built-in operations on text *)

Definition NL : text := ["010"%char].

(** [str.isspace] on one character (code points below 256). *)
Definition isspace (c : ascii) : bool :=
  let n := nat_of_ascii c in
  (Nat.leb 9 n && Nat.leb n 13) || (Nat.leb 28 n && Nat.leb n 32)
  || Nat.eqb n 133 || Nat.eqb n 160.

Fixpoint lstrip (s : text) : text :=
  match s with
  | [] => []
  | c :: s' => if isspace c then lstrip s' else s
  end.

Definition rstrip (s : text) : text := reverse (lstrip (reverse s)).

(** [s.strip()] *)
Definition strip (s : text) : text := rstrip (lstrip s).

(** [sep.join(parts)] *)
Fixpoint join (sep : text) (parts : list text) : text :=
  match parts with
  | [] => []
  | [p] => p
  | p :: ps => p ++ sep ++ join sep ps
  end.

(** [s[start:stop]] for [0 <= start] and [0 <= stop]. *)
Definition slice {A : Type} (s : list A) (start stop : nat) : list A :=
  take (stop - start) (drop start s).

(** [enumerate(l)] *)
Definition enumerate {A : Type} (l : list A) : list (nat * A) :=
  zip (seq 0 (length l)) l.

(** [a or b] on an optional text: [None] and the empty text are falsy. *)
Definition or_text (a : option text) (b : text) : text :=
  match a with
  | Some (c :: s) => c :: s
  | _ => b
  end.

(** Truth value of an embedding vector: [None] and [[]] are falsy. *)
Definition truthy {A : Type} (v : list A) : bool :=
  match v with [] => false | _ => true end.

(** [c.lower()] on one character (code points below 256). *)
Definition lower_char (c : ascii) : ascii :=
  let n := nat_of_ascii c in
  if (Nat.leb 65 n && Nat.leb n 90)
     || (Nat.leb 192 n && Nat.leb n 222 && negb (Nat.eqb n 215))
  then ascii_of_nat (n + 32) else c.

(** [s.lower()] *)
Definition lower (s : text) : text := lower_char <$> s.

Fixpoint startswith (s prefix : text) : bool :=
  match prefix, s with
  | [], _ => true
  | p :: prefix, c :: s => if decide (c = p) then startswith s prefix else false
  | _ :: _, [] => false
  end.

Fixpoint find_from (s sub : text) (i : nat) : option nat :=
  if startswith s sub then Some i
  else match s with
       | [] => None
       | _ :: s' => find_from s' sub (S i)
       end.

(** [s.find(sub)]: the first index at which [sub] occurs, [None] for -1. *)
Definition find (s sub : text) : option nat := find_from s sub 0.

(** [sub in s] *)
Definition contains (s sub : text) : bool :=
  match find s sub with Some _ => true | None => false end.

(** The maximal runs of the characters that satisfy [keep], in order. *)
Fixpoint runs_from (keep : ascii -> bool) (cur : text) (s : text) : list text :=
  match s with
  | [] => match cur with [] => [] | _ => [reverse cur] end
  | c :: s' =>
      if keep c then runs_from keep (c :: cur) s'
      else match cur with
           | [] => runs_from keep [] s'
           | _ => reverse cur :: runs_from keep [] s'
           end
  end.

(** [s.split()] *)
Definition split (s : text) : list text :=
  runs_from (fun c => negb (isspace c)) [] s.

(** [s.replace("\n", " ")] *)
Definition replace_newlines (s : text) : text :=
  (fun c => if decide (c = "010"%char) then " "%char else c) <$> s.

(** The bytes of [c.encode("utf-8")], for a character below 256. *)
Definition utf8 (c : ascii) : list nat :=
  let n := nat_of_ascii c in
  if n <? 128 then [n] else [192 + n / 64; 128 + n mod 64].

(** [s.encode("utf-8")] *)
Definition encode (s : text) : list nat := s ≫= utf8.

(** ** Insertion-ordered dictionaries *)

Section OrderedDict.
Context {K V : Type} `{EqDecision K}.

(** [d.get(k)] *)
Fixpoint od_get (k : K) (d : list (K * V)) : option V :=
  match d with
  | [] => None
  | (k', v) :: d => if decide (k' = k) then Some v else od_get k d
  end.

(** [d[k] = v]: a key that is present keeps its place, a new key goes to
    the end. *)
Fixpoint od_set (k : K) (v : V) (d : list (K * V)) : list (K * V) :=
  match d with
  | [] => [(k, v)]
  | (k', v') :: d =>
      if decide (k' = k) then (k, v) :: d else (k', v') :: od_set k v d
  end.

End OrderedDict.

(** ** Scores *)

Definition Qlt_bool (a b : Q) : bool := negb (Qle_bool b a).

(** [sorted(l, key=key, reverse=True)]: descending, and stable: of two
    elements with equal keys the one that came first stays first. *)
Section SortDescending.
Context {A : Type} (key : A -> Q).

Fixpoint insert_desc (x : A) (sorted : list A) : list A :=
  match sorted with
  | [] => [x]
  | y :: sorted' =>
      if Qlt_bool (key x) (key y) then y :: insert_desc x sorted'
      else x :: sorted
  end.

Definition sort_desc (l : list A) : list A := foldr insert_desc [] l.

End SortDescending.

(** The order of a reranked list: a higher raw score first, and of two
    equal raw scores the candidate with the lower position first. *)
Definition ranked_before (a b : nat * Q) : Prop :=
  (b.2 < a.2)%Q ∨ ((a.2 == b.2)%Q ∧ a.1 < b.1).

(** Descending order of the keys. *)
Definition descending {A : Type} (key : A -> Q) (a b : A) : Prop :=
  (key b <= key a)%Q.

(** * Dates and instants ([datetime]) *)

Module Dates.

(** A [datetime] object.  [tzinfo] is [None] for a naive object and the
    UTC offset, in microseconds, for an aware one. *)
Record datetime : Type := {
  year : Z; month : Z; day : Z;
  hour : Z; minute : Z; second : Z; microsecond : Z;
  tzinfo : option Z
}.

Definition is_leap (y : Z) : bool :=
  ((y mod 4 =? 0) && (negb (y mod 100 =? 0) || (y mod 400 =? 0)))%Z.

Definition days_in_month (y m : Z) : Z :=
  if (m =? 2)%Z then (if is_leap y then 29 else 28)%Z
  else if ((m =? 4) || (m =? 6) || (m =? 9) || (m =? 11))%Z then 30%Z
  else 31%Z.

Definition days_before_year (y : Z) : Z :=
  let y := (y - 1)%Z in (y * 365 + y / 4 - y / 100 + y / 400)%Z.

Fixpoint days_before_month_from (y : Z) (m : nat) : Z :=
  match m with
  | O => 0%Z
  | S m' => (days_before_month_from y m' + days_in_month y (Z.of_nat m))%Z
  end.

(** Days of the year before the first of month [m]. *)
Definition days_before_month (y m : Z) : Z :=
  days_before_month_from y (Z.to_nat (m - 1)).

(** [date.toordinal()]: 0001-01-01 is day 1. *)
Definition toordinal (y m d : Z) : Z :=
  (days_before_year y + days_before_month y m + d)%Z.

Definition HOUR : Z := 3600000000.
Definition DAY : Z := 86400000000.

(** The fields of a [datetime] as microseconds since 0001-01-01T00:00:00
    on its own clock. *)
Definition micros (dt : datetime) : Z :=
  ((toordinal (year dt) (month dt) (day dt) - 1) * DAY
   + hour dt * HOUR + minute dt * 60000000 + second dt * 1000000
   + microsecond dt)%Z.

(** A [datetime] as comparisons and [timedelta] arithmetic see it: the
    microseconds of its fields, and its UTC offset when it is aware. *)
Record instant : Type := {
  wall : Z;
  utcoffset : option Z
}.

Definition instant_of (dt : datetime) : instant :=
  {| wall := micros dt; utcoffset := tzinfo dt |}.

(** A naive [datetime], such as [datetime.now()] or a stored column. *)
Definition naive (t : Z) : instant := {| wall := t; utcoffset := None |}.

(** [a <= b]: two naive objects are compared by their fields, two aware
    ones by their UTC times; a naive and an aware one give a
    [TypeError]. *)
Definition le_instant (a b : instant) : result bool :=
  match utcoffset a, utcoffset b with
  | None, None => Returned (wall a <=? wall b)%Z
  | Some oa, Some ob => Returned (wall a - oa <=? wall b - ob)%Z
  | _, _ =>
      Raised (Exception "can't compare offset-naive and offset-aware datetimes")
  end.

Definition digit (c : ascii) : option Z :=
  let n := nat_of_ascii c in
  if Nat.leb 48 n && Nat.leb n 57 then Some (Z.of_nat (n - 48)) else None.

(** A run of decimal digits read as a number; [None] on any other
    character. *)
Fixpoint digits_from (acc : Z) (s : text) : option Z :=
  match s with
  | [] => Some acc
  | c :: s' =>
      match digit c with
      | Some d => digits_from (acc * 10 + d) s'
      | None => None
      end
  end.

Definition number (s : text) : option Z :=
  match s with
  | [] => None
  | _ => digits_from 0 s
  end.

(** ** [datetime.fromisoformat]

    The function of CPython 3.11, which works on the UTF-8 bytes of the
    text.  The bytes end with a zero: reading at their end gives 0. *)

Definition byte_at (b : list nat) (i : nat) : nat := nth i b 0.

Definition byte (c : ascii) : nat := nat_of_ascii c.

Definition is_digit_byte (c : nat) : bool := (48 <=? c) && (c <=? 57).

(** [parse_digits]: the number written by the [num_digits] digits at
    position [p], and the position after them. *)
Fixpoint parse_digits (b : list nat) (p : nat) (num_digits : nat) (var : Z)
    : option (Z * nat) :=
  match num_digits with
  | O => Some (var, p)
  | S num_digits =>
      let c := byte_at b p in
      if is_digit_byte c
      then parse_digits b (S p) num_digits (var * 10 + Z.of_nat (c - 48))
      else None
  end.

(** The number of digits at the front of the bytes. *)
Fixpoint digits_run (b : list nat) : nat :=
  match b with
  | c :: b' => if is_digit_byte c then S (digits_run b') else 0
  | [] => 0
  end.

(** [_find_isoformat_datetime_separator]: where the date part ends. *)
Definition _find_isoformat_datetime_separator (b : list nat) : option nat :=
  let len := length b in
  if len =? 7 then Some 7
  else if byte_at b 4 =? byte "-" then
    if byte_at b 5 =? byte "W" then
      if len <? 8 then None
      else if (8 <? len) && (byte_at b 8 =? byte "-") then
        if len =? 9 then None
        else if (10 <? len) && is_digit_byte (byte_at b 10) then Some 8
        else Some 10
      else Some 8
    else Some 10
  else if byte_at b 4 =? byte "W" then
    let idx := 7 + digits_run (drop 7 b) in
    if idx <? 9 then Some idx
    else if Nat.even idx then Some 7 else Some 8
  else Some 8.

(** [weekday(y, 1, 1)]: 0 for a Monday. *)
Definition first_weekday (y : Z) : Z := ((toordinal y 1 1 + 6) mod 7)%Z.

(** [iso_week1_monday]: the ordinal of the Monday of ISO week 1. *)
Definition iso_week1_monday (y : Z) : Z :=
  let week1_monday := (toordinal y 1 1 - first_weekday y)%Z in
  if (3 <? first_weekday y)%Z then (week1_monday + 7)%Z else week1_monday.

(** The month and day of day [n] (counted from 0) of year [y]. *)
Fixpoint month_and_day (y : Z) (m : Z) (n : Z) (months_left : nat) : Z * Z :=
  match months_left with
  | O => (m, n + 1)%Z
  | S months_left =>
      if (n <? days_in_month y m)%Z then (m, n + 1)%Z
      else month_and_day y (m + 1) (n - days_in_month y m) months_left
  end.

(** [ord_to_ymd].  An ordinal below 1, which only the weeks of the ISO
    year 0 give, leaves a month 0. *)
Definition ord_to_ymd (ordinal : Z) : Z * Z * Z :=
  if (ordinal <? 1)%Z then (1, 0, 0)%Z
  else
    let n := (ordinal - 1)%Z in
    let n400 := (n / 146097)%Z in
    let n := (n mod 146097)%Z in
    let n100 := (n / 36524)%Z in
    let n := (n mod 36524)%Z in
    let n4 := (n / 1461)%Z in
    let n := (n mod 1461)%Z in
    let n1 := (n / 365)%Z in
    let n := (n mod 365)%Z in
    let y := (n400 * 400 + 1 + n100 * 100 + n4 * 4 + n1)%Z in
    if ((n1 =? 4) || (n100 =? 4))%Z then (y - 1, 12, 31)%Z
    else let '(m, d) := month_and_day y 1 n 11 in (y, m, d).

(** [iso_to_ymd]: the calendar date of a day of an ISO week. *)
Definition iso_to_ymd (iso_year iso_week iso_day : Z) : option (Z * Z * Z) :=
  let long_year :=
    ((first_weekday iso_year =? 3)
     || ((first_weekday iso_year =? 2) && is_leap iso_year))%Z in
  if ((iso_week <=? 0) || (53 <? iso_week)
      || ((iso_week =? 53) && negb long_year))%Z then None
  else if ((iso_day <=? 0) || (8 <=? iso_day))%Z then None
  else
    Some (ord_to_ymd
            (iso_week1_monday iso_year + (iso_week - 1) * 7 + iso_day - 1)).

(** [parse_isoformat_date]: the date written by the first [len] bytes. *)
Definition parse_isoformat_date (b : list nat) (len : nat)
    : option (Z * Z * Z) :=
  '(year, p) ← parse_digits b 0 4 0;
  let uses_separator := byte_at b p =? byte "-" in
  let p := if uses_separator then S p else p in
  if byte_at b p =? byte "W" then
    '(iso_week, p) ← parse_digits b (S p) 2 0;
    iso_day ←
      (if p <? len then
         if uses_separator && negb (byte_at b p =? byte "-") then None
         else fst <$> parse_digits b (if uses_separator then S p else p) 1 0
       else Some 1%Z);
    iso_to_ymd year iso_week iso_day
  else
    '(month, p) ← parse_digits b p 2 0;
    if uses_separator && negb (byte_at b p =? byte "-") then None
    else
      '(day, p) ← parse_digits b (if uses_separator then S p else p) 2 0;
      Some (year, month, day).

(** The end of [parse_hh_mm_ss_ff]: a fraction of a second of up to six
    digits, further digits being dropped.  The boolean tells that the
    bytes go on after it. *)
Definition parse_fraction (b : list nat) (p p_end : nat) (vals : list Z)
    : option (list Z * Z * bool) :=
  let to_parse := (p_end - p) `min` 6 in
  '(microsecond, p) ← parse_digits b p to_parse 0;
  let p := p + digits_run (drop p b) in
  Some (vals, (microsecond * 10 ^ Z.of_nat (6 - to_parse))%Z,
        negb (byte_at b p =? 0)).

(** [parse_hh_mm_ss_ff], for the bytes from [p] to [p_end]: up to three
    fields of two digits, with colons between them or without, and a
    fraction after a point or a comma.  [fields] counts the fields still
    to read and [first] marks the first of them. *)
Fixpoint parse_hh_mm_ss_ff (b : list nat) (p_end : nat) (fields : nat)
    (first has_separator : bool) (p : nat) (vals : list Z)
    : option (list Z * Z * bool) :=
  match fields with
  | O => parse_fraction b p p_end vals
  | S fields =>
      '(val, p) ← parse_digits b p 2 0;
      let c := byte_at b p in
      let p := S p in
      let has_separator := if first then c =? byte ":" else has_separator in
      let vals := vals ++ [val] in
      if p_end <=? p then Some (vals, 0%Z, negb (c =? 0))
      else if has_separator && (c =? byte ":")
      then parse_hh_mm_ss_ff b p_end fields false has_separator p vals
      else if (c =? byte ".") || (c =? byte ",")
      then parse_fraction b p p_end vals
      else if negb has_separator
      then parse_hh_mm_ss_ff b p_end fields false has_separator (p - 1) vals
      else None
  end.

Definition is_tz_byte (c : nat) : bool :=
  (c =? byte "Z") || (c =? byte "+") || (c =? byte "-").

(** The number of bytes before the first of [Z], [+] and [-]. *)
Fixpoint tz_scan (b : list nat) : nat :=
  match b with
  | c :: b' => if is_tz_byte c then 0 else S (tz_scan b')
  | [] => 0
  end.

(** [parse_isoformat_time], for the [len] bytes from [p]: the time
    fields, the microseconds, and the offset in seconds and microseconds
    when one is written. *)
Definition parse_isoformat_time (b : list nat) (p len : nat)
    : option (list Z * Z * option (Z * Z)) :=
  let p_end := p + len in
  let tzinfo_pos := p + tz_scan (take len (drop p b)) in
  match parse_hh_mm_ss_ff b tzinfo_pos 3 true true p [] with
  | None => None
  | Some (vals, microsecond, rest) =>
      if tzinfo_pos =? p_end then
        if rest then None else Some (vals, microsecond, None)
      else if byte_at b tzinfo_pos =? byte "Z" then
        if byte_at b (S tzinfo_pos) =? 0
        then Some (vals, microsecond, Some (0, 0)%Z) else None
      else
        let tzsign :=
          if byte_at b tzinfo_pos =? byte "-" then (-1)%Z else 1%Z in
        match parse_hh_mm_ss_ff b p_end 3 true true (S tzinfo_pos) [] with
        | None => None
        | Some (tzvals, tzmicrosecond, rest) =>
            if rest then None
            else
              Some (vals, microsecond,
                    Some ((tzsign * (nth 0 tzvals 0 * 3600 + nth 1 tzvals 0 * 60
                                     + nth 2 tzvals 0))%Z,
                          (tzsign * tzmicrosecond)%Z))
        end
  end.

Definition value_error {A : Type} (msg : string) : result A :=
  Raised (Exception msg).

(** The constructor of the parsed value: the offset must lie strictly
    between minus and plus 24 hours, and the fields in their ranges.  An
    offset of zero seconds is UTC whatever its microseconds are. *)
Definition new_datetime (y m d hh mm ss us : Z) (tz : option (Z * Z))
    : result datetime :=
  let offset :=
    match tz with
    | None => None
    | Some (seconds, useconds) =>
        if (seconds =? 0)%Z then Some 0%Z
        else Some (seconds * 1000000 + useconds)%Z
    end in
  let in_day (o : Z) := ((- DAY <? o) && (o <? DAY))%Z in
  if negb (from_option in_day true offset) then
    value_error "offset must be a timedelta strictly between -timedelta(hours=24) and timedelta(hours=24)"
  else if negb ((1 <=? y) && (y <=? 9999))%Z then
    value_error ("year " +:+ pretty y +:+ " is out of range")
  else if negb ((1 <=? m) && (m <=? 12))%Z then
    value_error "month must be in 1..12"
  else if negb ((1 <=? d) && (d <=? days_in_month y m))%Z then
    value_error "day is out of range for month"
  else if negb (hh <=? 23)%Z then value_error "hour must be in 0..23"
  else if negb (mm <=? 59)%Z then value_error "minute must be in 0..59"
  else if negb (ss <=? 59)%Z then value_error "second must be in 0..59"
  else
    Returned {| year := y; month := m; day := d; hour := hh; minute := mm;
                second := ss; microsecond := us; tzinfo := offset |}.

(** [datetime.fromisoformat].  It reads the calendar date [YYYY-MM-DD] or
    [YYYYMMDD] and the week date [YYYY-Www], [YYYY-Www-D], [YYYYWww] or
    [YYYYWwwD]; alone, or followed by one separator character and a time
    of day [HH], [HH:MM] or [HH:MM:SS] (also without colons), which may end
    with a fraction and with [Z] or an offset.  The steps are those of the
    C implementation, its leniencies included: digits of a fraction beyond
    the sixth are dropped, and one character between the time and the
    offset is passed over.  A text that these steps do not read is a
    [ValueError]; in particular [YYYY] and [YYYY-MM] are.  The messages are
    given without the quoted text. *)
Definition fromisoformat (s : text) : result datetime :=
  let invalid := value_error "Invalid isoformat string" in
  let b := encode s in
  let len := length b in
  if len <? 7 then invalid
  else
    match _find_isoformat_datetime_separator b with
    | None => invalid
    | Some separator_location =>
        match parse_isoformat_date b separator_location with
        | None => invalid
        | Some (y, m, d) =>
            let time :=
              if separator_location <? len then
                let p :=
                  separator_location
                  + (if byte_at b separator_location <? 128 then 1 else 2) in
                parse_isoformat_time b p (len - p)
              else Some ([], 0%Z, None) in
            match time with
            | None => invalid
            | Some (vals, us, tz) =>
                new_datetime y m d (nth 0 vals 0%Z) (nth 1 vals 0%Z)
                  (nth 2 vals 0%Z) us tz
            end
        end
    end.

Definition digit_char (d : Z) : ascii := ascii_of_nat (48 + Z.to_nat (d mod 10)).

(** [strftime("%Y")], as the C library of Linux writes it: the year
    without leading zeros. *)
Definition strftime_Y (dt : datetime) : text := T (pretty (year dt)).

(** [strftime("%m")] *)
Definition strftime_m (dt : datetime) : text :=
  [digit_char (month dt / 10); digit_char (month dt)].

End Dates.

(** * The stored tables *)

Inductive ProcessingStatus : Type := PENDING | PROCESSING | COMPLETED | FAILED.

(** The [tags] entry of [meta_data]: a string, a list, or anything else. *)
Inductive tags_value : Type :=
  | TagsStr (s : text)
  | TagsList (l : list text)
  | TagsOther.

(** The entries of the [meta_data] dictionary that the code reads. *)
Record MetaData : Type := {
  tags : option tags_value;
  semantic_date : option text;
  structured_date : option text;
  session_id : option text
}.

Module ArchiveRecord.
(** Modelled from the spec: the Document table.  [src/models/archive.py] is
    not among the sources; the columns are the ones the plugins and the
    retrieval agent read and write.  [meta_data] is [None] when the column
    does not hold a dictionary; instants are microseconds on one clock. *)
Record t : Type := {
  id : Z;
  user_id : Z;
  filename : text;
  original_filename : text;
  file_type : text;
  category : option text;
  summary : option text;
  full_text : option text;
  meta_data : option MetaData;
  relative_path : option text;
  embedding : option (list Q);
  is_vectorized : Z;
  vectorized_at : option Z;
  processing_status : ProcessingStatus;
  processing_error : option string;
  processed_at : option Z
}.
End ArchiveRecord.

Module VectorNode.
(** Modelled from the spec: the Chunk table.  [src/models/vector_node.py]
    is not among the sources; [id] is the primary key the database assigns
    on insertion. *)
Record t : Type := {
  id : Z;
  parent_archive_id : Z;
  content : text;
  chunk_index : nat;
  embedding : list Q;
  source_length : nat;
  is_image_desc : bool
}.
End VectorNode.

(** The database as one session sees it: the two tables and the next key
    of the chunk table. *)
Record database : Type := {
  archives : gmap Z ArchiveRecord.t;
  vector_nodes : list VectorNode.t;
  next_node_id : Z
}.

(** A stored document with a body of 5,000 characters. *)
Definition demo_record : ArchiveRecord.t :=
  {| ArchiveRecord.id := 1;
     ArchiveRecord.user_id := 1;
     ArchiveRecord.filename := T "2023-11-15-invoice.txt";
     ArchiveRecord.original_filename := T "invoice.txt";
     ArchiveRecord.file_type := T "Documents";
     ArchiveRecord.category := Some (T "Finance");
     ArchiveRecord.summary := Some (T "quarterly tax invoice");
     ArchiveRecord.full_text := Some (replicate 5000 "a"%char);
     ArchiveRecord.meta_data := None;
     ArchiveRecord.relative_path := None;
     ArchiveRecord.embedding := None;
     ArchiveRecord.is_vectorized := 0;
     ArchiveRecord.vectorized_at := None;
     ArchiveRecord.processing_status := COMPLETED;
     ArchiveRecord.processing_error := None;
     ArchiveRecord.processed_at := None |}.

(** * The event bus ([src/core/events.py]) *)

Module Events.

(** Values stored in an event payload. *)
Inductive pyval : Type :=
  | VNone
  | VInt (z : Z)
  | VStr (s : string)
  | VPath (components : list string).

(** [src/core/event_types.py] *)
Definition FILE_UPLOADED : string := "FILE_UPLOADED".
Definition ARCHIVE_COMPLETED : string := "ARCHIVE_COMPLETED".

Record Event : Type := {
  name : string;
  payload : gmap string pyval;
  timestamp : Z
}.

Section Bus.
(** Everything a handler can read or change besides the event. *)
Context {World : Type}.

(** A handler is a function object: its [__name__] and its body.  Two
    handlers with the same name may have different bodies. *)
Record handler : Type := {
  __name__ : string;
  call : Event -> World -> World * result unit
}.

(** What the bus itself does during a [publish], in order. *)
Inductive bus_action : Type :=
  | Invoked (h : handler)
  | LoggedError (event_name handler_name msg : string).

Record bus_state : Type := {
  world : World;
  actions : list bus_action
}.

(** [EventBus.subscribe] *)
Definition subscribe (event_name : string) (h : handler)
    (_subscribers : gmap string (list handler)) : gmap string (list handler) :=
  let _subscribers :=
    match _subscribers !! event_name with
    | None => <[event_name := []]> _subscribers
    | Some _ => _subscribers
    end in
  let registered := default [] (_subscribers !! event_name) in
  let existing_handlers := __name__ <$> registered in
  if bool_decide (__name__ h ∈ existing_handlers) then _subscribers
  else <[event_name := registered ++ [h]]> _subscribers.

(** [EventBus.clear_subscribers] *)
Definition clear_subscribers (_subscribers : gmap string (list handler))
    : gmap string (list handler) := ∅.

(** [EventBus._execute_handler]: one handler run inside
    [try ... except Exception]. *)
Definition _execute_handler (h : handler) (event : Event)
    (st : bus_state) : bus_state * result unit :=
  let st := {| world := world st; actions := actions st ++ [Invoked h] |} in
  match call h event (world st) with
  | (w, Returned _) =>
      ({| world := w; actions := actions st |}, Returned tt)
  | (w, Raised (Exception msg)) =>
      ({| world := w;
          actions := actions st ++ [LoggedError (name event) (__name__ h) msg] |},
       Returned tt)
  end.

(** [asyncio.gather] with [return_exceptions=True]: every task is run; an
    exception escaping a task becomes its entry in the result list.  The
    tasks are run to completion in the order in which they were created,
    which is one of the schedules of the event loop. *)
Fixpoint gather (tasks : list (bus_state -> bus_state * result unit))
    (st : bus_state) : bus_state * result (list (result unit)) :=
  match tasks with
  | [] => (st, Returned [])
  | t :: tasks =>
      let '(st, r) := t st in
      match gather tasks st with
      | (st, Returned rs) => (st, Returned (r :: rs))
      | (st, Raised e) => (st, Raised e)
      end
  end.

(** [EventBus.publish] *)
Definition publish (_subscribers : gmap string (list handler))
    (event : Event) (st : bus_state) : bus_state * result unit :=
  match _subscribers !! name event with
  | None => (st, Returned tt)
  | Some handlers =>
      let tasks := (fun h => _execute_handler h event) <$> handlers in
      match gather tasks st with
      | (st, Returned _) => (st, Returned tt)
      | (st, Raised e) => (st, Raised e)
      end
  end.

(** The handlers the bus invoked, in order. *)
Fixpoint invoked (acts : list bus_action) : list handler :=
  match acts with
  | [] => []
  | Invoked h :: acts => h :: invoked acts
  | LoggedError _ _ _ :: acts => invoked acts
  end.

(** The subscriber tables a bus can hold: it starts empty and changes
    only through [subscribe] and [clear_subscribers]. *)
Inductive bus_reachable : gmap string (list handler) -> Prop :=
  | reach_new : bus_reachable ∅
  | reach_subscribe subs event_name h :
      bus_reachable subs -> bus_reachable (subscribe event_name h subs)
  | reach_clear subs :
      bus_reachable subs -> bus_reachable (clear_subscribers subs).

End Bus.
Arguments handler : clear implicits.
Arguments bus_state : clear implicits.
Arguments bus_action : clear implicits.

(** Two function objects that share a name: one returns, one raises. *)
Definition quiet_handler : handler unit :=
  {| __name__ := "handle_archive_completed";
     call := fun _ w => (w, Returned tt) |}.

Definition raising_handler : handler unit :=
  {| __name__ := "handle_archive_completed";
     call := fun _ w => (w, Raised (Exception "embedding service down")) |}.

(** Two more function objects, with names of their own. *)
Definition upload_handler : handler unit :=
  {| __name__ := "handle_file_uploaded";
     call := fun _ w => (w, Returned tt) |}.

Definition notify_handler : handler unit :=
  {| __name__ := "notify_archive_completed";
     call := fun _ w => (w, Returned tt) |}.

End Events.

(** * The archiver plugin ([src/plugins/core_archiver.py]) *)

Module Archiver.
Import Dates.

(** A [pathlib.Path]: the directories, the file name and the lower-cased
    suffix of the name. *)
Record FilePath : Type := {
  parent : list string;
  name : string;
  suffix : string
}.

(** The path as the key of the file in the file system. *)
Definition components (p : FilePath) : list string := parent p ++ [name p].

Record StorageRoot : Type := {
  mount_path : list string;
  root_id : Z
}.

(** [settings.FILE_TYPE_MAPPING] ([src/core/config.py]) *)
Definition FILE_TYPE_MAPPING : list (string * list string) :=
  [("Documents", [".pdf"; ".doc"; ".docx"; ".txt"; ".xls"; ".xlsx"; ".ppt"; ".pptx"; ".csv"]);
   ("Images", [".jpg"; ".jpeg"; ".png"; ".gif"; ".bmp"; ".webp"; ".svg"]);
   ("Audio", [".mp3"; ".wav"; ".flac"; ".aac"; ".ogg"; ".m4a"]);
   ("Video", [".mp4"; ".avi"; ".mov"; ".mkv"; ".wmv"; ".flv"; ".webm"]);
   ("Memos", [".memo"; ".note"])]%string.

Fixpoint first_type (suffix : string) (mapping : list (string * list string))
    : option string :=
  match mapping with
  | [] => None
  | (file_type, extensions) :: mapping =>
      if bool_decide (suffix ∈ extensions) then Some file_type
      else first_type suffix mapping
  end.

Definition _get_file_type (file_path : FilePath) : string :=
  default "Documents"%string (first_type (suffix file_path) FILE_TYPE_MAPPING).

Definition _file_type_dir (file_path : FilePath) : string :=
  let suffix := suffix file_path in
  if bool_decide (suffix ∈ [".pdf"; ".txt"; ".doc"; ".docx"; ".md"; ".csv"]%string)
  then "Documents"%string
  else if bool_decide (suffix ∈ [".jpg"; ".jpeg"; ".png"; ".heic"; ".gif"; ".bmp"; ".webp"; ".svg"]%string)
  then "Images"%string
  else if bool_decide (suffix ∈ [".mp3"; ".m4a"; ".wav"; ".flac"; ".aac"; ".ogg"]%string)
  then "Audio"%string
  else if bool_decide (suffix ∈ [".mp4"; ".mov"; ".avi"; ".mkv"; ".wmv"; ".flv"; ".webm"]%string)
  then "Video"%string
  else "Others"%string.

Definition _pick_year_month (date_str : option text) (fallback_dt : datetime)
    : text * text :=
  let fallback := (strftime_Y fallback_dt, strftime_m fallback_dt) in
  match date_str with
  | Some (c :: s) =>
      match fromisoformat (c :: s) with
      | Returned dt => (strftime_Y dt, strftime_m dt)
      | Raised _ => fallback
      end
  | _ => fallback
  end.

(** The dictionary returned by the analysis: the entries the archiver
    reads.  [a_structured] is [None] without a ["structured"] entry and
    [Some None] when that entry has no ["date"]. *)
Record analysis_dict : Type := {
  a_error : option text;
  a_suggested_filename : option text;
  a_category : option text;
  a_summary : option text;
  a_structured : option (option text)
}.

Inductive analysis_value : Type :=
  | AnalysisDict (d : analysis_dict)
  | AnalysisOther.

Definition empty_analysis : analysis_dict :=
  {| a_error := None; a_suggested_filename := None; a_category := None;
     a_summary := None; a_structured := None |}.

Definition failed_analysis : analysis_dict :=
  {| a_error := Some (T "analysis_failed"); a_suggested_filename := None;
     a_category := None; a_summary := None; a_structured := None |}.

(** What the world outside answers during one run, in the order of the
    calls.  The names built on the way (sanitised user name, cleaned and
    dated file name, collision suffix) are part of these answers. *)
Record environment : Type := {
  today : datetime;
  sanitized_username : result string;
  default_storage_root : result StorageRoot;
  extracted_text : option text;
  analyze_file : result (option analysis_value);
  generated_target_path : result (FilePath * text);
  move_error : option exn;
  reread_text : option text;
  st_size : result Z;
  commit_error : option exn;
  now_at_failure : datetime;
  failed_dir_error : option exn
}.

(** The file system (the paths that hold a file), the Document table as
    committed, and the events handed to the bus. *)
Record world : Type := {
  files : gset (list string);
  rows : gmap Z ArchiveRecord.t;
  published : list Events.Event
}.

(** [shutil.move(src, dst)] *)
Definition move (src dst : list string) (error : option exn)
    (fs : gset (list string)) : result (gset (list string)) :=
  match error with
  | Some e => Raised e
  | None =>
      if bool_decide (src ∈ fs) then Returned ({[dst]} ∪ fs ∖ {[src]})
      else Raised (Exception "No such file or directory")
  end.

(** The local variables the [except] block reads. *)
Record locals : Type := {
  username : option string;
  storage_root : option StorageRoot;
  year_month : option string
}.

Definition msg (e : exn) : string := match e with Exception m => m end.

Definition merged_meta (old : option MetaData) (d : analysis_dict) : MetaData :=
  let old_tags := match old with Some m => tags m | None => None end in
  let old_semantic := match old with Some m => semantic_date m | None => None end in
  let old_structured := match old with Some m => structured_date m | None => None end in
  let old_session := match old with Some m => session_id m | None => None end in
  let structured :=
    match a_structured d with Some date => date | None => old_structured end in
  let date := match a_structured d with Some date => date | None => None end in
  {| tags := old_tags;
     semantic_date :=
       match date with Some (c :: s) => Some (c :: s) | _ => old_semantic end;
     structured_date := structured;
     session_id := old_session |}.

Definition completed (record : ArchiveRecord.t) (final_path : FilePath)
    (file_type : string) (category : text) (d : analysis_dict)
    (full_text : option text) (relative_path : text) (root : Z)
    (today : datetime) : ArchiveRecord.t :=
  {| ArchiveRecord.id := ArchiveRecord.id record;
     ArchiveRecord.user_id := ArchiveRecord.user_id record;
     ArchiveRecord.filename := T (name final_path);
     ArchiveRecord.original_filename := ArchiveRecord.original_filename record;
     ArchiveRecord.file_type := T file_type;
     ArchiveRecord.category := Some category;
     ArchiveRecord.summary := Some (or_text (a_summary d) []);
     ArchiveRecord.full_text := full_text;
     ArchiveRecord.meta_data := Some (merged_meta (ArchiveRecord.meta_data record) d);
     ArchiveRecord.relative_path := Some relative_path;
     ArchiveRecord.embedding := ArchiveRecord.embedding record;
     ArchiveRecord.is_vectorized := ArchiveRecord.is_vectorized record;
     ArchiveRecord.vectorized_at := ArchiveRecord.vectorized_at record;
     ArchiveRecord.processing_status := COMPLETED;
     ArchiveRecord.processing_error := None;
     ArchiveRecord.processed_at := Some (micros today) |}.

Definition failed (record : ArchiveRecord.t) (e : exn) : ArchiveRecord.t :=
  {| ArchiveRecord.id := ArchiveRecord.id record;
     ArchiveRecord.user_id := ArchiveRecord.user_id record;
     ArchiveRecord.filename := ArchiveRecord.filename record;
     ArchiveRecord.original_filename := ArchiveRecord.original_filename record;
     ArchiveRecord.file_type := ArchiveRecord.file_type record;
     ArchiveRecord.category := ArchiveRecord.category record;
     ArchiveRecord.summary := ArchiveRecord.summary record;
     ArchiveRecord.full_text := ArchiveRecord.full_text record;
     ArchiveRecord.meta_data := ArchiveRecord.meta_data record;
     ArchiveRecord.relative_path := ArchiveRecord.relative_path record;
     ArchiveRecord.embedding := ArchiveRecord.embedding record;
     ArchiveRecord.is_vectorized := ArchiveRecord.is_vectorized record;
     ArchiveRecord.vectorized_at := ArchiveRecord.vectorized_at record;
     ArchiveRecord.processing_status := FAILED;
     ArchiveRecord.processing_error := Some (msg e);
     ArchiveRecord.processed_at := ArchiveRecord.processed_at record |}.

Definition completion_event (record : ArchiveRecord.t) (file_path : FilePath)
    (today : datetime) : Events.Event :=
  {| Events.name := Events.ARCHIVE_COMPLETED;
     Events.payload :=
       {[ "archive_id"%string := Events.VInt (ArchiveRecord.id record);
          "file_path"%string := Events.VPath (components file_path);
          "status"%string := Events.VStr "COMPLETED" ]};
     Events.timestamp := micros today |}.

(** The body of the [try] block of [_process_and_persist]: the local
    variables and the world at the point where it ends, and the record it
    returns or the exception it raises. *)
Definition try_body (env : environment) (file_path : FilePath)
    (record : option ArchiveRecord.t) (w : world)
    : locals * world * result ArchiveRecord.t :=
  let l := {| username := None; storage_root := None; year_month := None |} in
  match sanitized_username env with
  | Raised e => (l, w, Raised e)
  | Returned user =>
  let l := {| username := Some user; storage_root := None; year_month := None |} in
  match default_storage_root env with
  | Raised e => (l, w, Raised e)
  | Returned root =>
  let l := {| username := Some user; storage_root := Some root; year_month := None |} in
  let file_type := _get_file_type file_path in
  let analysis :=
    match analyze_file env with
    | Returned (Some a) => a
    | Returned None => AnalysisDict empty_analysis
    | Raised _ => AnalysisDict failed_analysis
    end in
  match analysis with
  | AnalysisOther =>
      (l, w, Raised (Exception "object has no attribute 'get'"))
  | AnalysisDict d =>
  let structured_date := match a_structured d with Some date => date | None => None end in
  let '(y, m) := _pick_year_month structured_date (today env) in
  let ym := string_of_list_ascii (y ++ T "." ++ m) in
  let l := {| username := Some user; storage_root := Some root; year_month := Some ym |} in
  let category := or_text (a_category d) (T "Unsorted") in
  match generated_target_path env with
  | Raised e => (l, w, Raised e)
  | Returned (final_path, relative_path) =>
  match move (components file_path) (components final_path) (move_error env) (files w) with
  | Raised e => (l, w, Raised e)
  | Returned fs =>
  let w := {| files := fs; rows := rows w; published := published w |} in
  let full_text :=
    match extracted_text env with
    | Some (c :: s) => Some (c :: s)
    | other =>
        if bool_decide (file_type = "Documents"%string)
        then match reread_text env with Some t => Some t | None => other end
        else other
    end in
  match st_size env with
  | Raised e => (l, w, Raised e)
  | Returned file_size =>
  match commit_error env with
  | Some e => (l, w, Raised e)
  | None =>
  match record with
  | None => (l, w, Raised (Exception "refresh of None"))
  | Some record =>
      let record :=
        completed record final_path file_type category d full_text
          relative_path (root_id root) (today env) in
      let w :=
        {| files := files w;
           rows := <[ArchiveRecord.id record := record]> (rows w);
           published := published w ++ [completion_event record file_path (today env)] |} in
      (l, w, Returned record)
  end end end end end end end end.

(** The place of a file in the [_FAILED] directory of its folder. *)
Definition failed_path (root : StorageRoot) (user year_month : string)
    (file_path : FilePath) : list string :=
  mount_path root
  ++ [user; year_month; _file_type_dir file_path; "_FAILED"%string; name file_path].

(** [_handle_failed_file] *)
Definition _handle_failed_file (file_path : FilePath)
    (file_type_dir year_month : string) (storage_root : StorageRoot)
    (username : string) (error : option exn) (fs : gset (list string))
    : result (gset (list string)) :=
  let failed_dir :=
    mount_path storage_root ++ [username; year_month; file_type_dir; "_FAILED"%string] in
  match error with
  | Some e => Raised e
  | None =>
      let failed_path := failed_dir ++ [name file_path] in
      if bool_decide (components file_path ∈ fs)
      then Returned ({[failed_path]} ∪ fs ∖ {[components file_path]})
      else Returned fs
  end.

(** [CoreArchiverPlugin._process_and_persist].  The database calls of the
    [except] block are taken to succeed; the chat messages written for a
    session are left out. *)
Definition _process_and_persist (env : environment) (file_path : FilePath)
    (record : option ArchiveRecord.t) (w : world)
    : world * result ArchiveRecord.t :=
  match try_body env file_path record w with
  | (_, w, Returned record) => (w, Returned record)
  | (l, w, Raised e) =>
      let fs :=
        if bool_decide (components file_path ∈ files w) then
          let file_type_dir := _file_type_dir file_path in
          let fallback_year_month :=
            match year_month l with
            | Some ym => ym
            | None =>
                string_of_list_ascii
                  (strftime_Y (now_at_failure env) ++ T "." ++ strftime_m (now_at_failure env))
            end in
          match storage_root l, username l with
          | Some root, Some user =>
              if bool_decide (user ≠ ""%string) then
                match _handle_failed_file file_path file_type_dir
                        fallback_year_month root user (failed_dir_error env)
                        (files w) with
                | Returned fs => fs
                | Raised _ => files w
                end
              else files w
          | _, _ => files w
          end
        else files w in
      let rows :=
        match record with
        | Some record => <[ArchiveRecord.id record := failed record e]> (rows w)
        | None => rows w
        end in
      ({| files := fs; rows := rows; published := published w |}, Raised e)
  end.

(** An upload whose target path cannot be created, and one whose final
    commit fails after the file has been moved. *)
Definition demo_upload : FilePath :=
  {| parent := ["data"; "inbox"]%string; name := "scan.pdf"; suffix := ".pdf" |}.

Definition demo_final : FilePath :=
  {| parent := ["data"; "archives"; "alice"; "2023.11"; "Documents"]%string;
     name := "2023-11-15-invoice.pdf"; suffix := ".pdf" |}.

Definition demo_env (target : result (FilePath * text)) (commit : option exn)
    : environment :=
  {| today := {| year := 2024; month := 3; day := 9; hour := 10; minute := 0;
                 second := 0; microsecond := 0; tzinfo := None |};
     sanitized_username := Returned "alice"%string;
     default_storage_root :=
       Returned {| mount_path := ["data"; "archives"]%string; root_id := 1 |};
     extracted_text := Some (T "quarterly tax invoice 2023-11-15, amount 500");
     analyze_file :=
       Returned (Some (AnalysisDict
         {| a_error := None;
            a_suggested_filename := Some (T "invoice.pdf");
            a_category := Some (T "Finance");
            a_summary := Some (T "quarterly tax invoice");
            a_structured := Some (Some (T "2023-11-15")) |}));
     generated_target_path := target;
     move_error := None;
     reread_text := None;
     st_size := Returned 2048%Z;
     commit_error := commit;
     now_at_failure := {| year := 2024; month := 3; day := 9; hour := 10;
                          minute := 0; second := 1; microsecond := 0; tzinfo := None |};
     failed_dir_error := None |}.

Definition demo_relative_path : text :=
  T "alice/2023.11/Documents/2023-11-15-invoice.pdf".

(** The row of the upload while it is being processed. *)
Definition demo_row : ArchiveRecord.t :=
  {| ArchiveRecord.id := 1;
     ArchiveRecord.user_id := 1;
     ArchiveRecord.filename := T "scan.pdf";
     ArchiveRecord.original_filename := T "scan.pdf";
     ArchiveRecord.file_type := T "Documents";
     ArchiveRecord.category := None;
     ArchiveRecord.summary := None;
     ArchiveRecord.full_text := None;
     ArchiveRecord.meta_data := None;
     ArchiveRecord.relative_path := None;
     ArchiveRecord.embedding := None;
     ArchiveRecord.is_vectorized := 0;
     ArchiveRecord.vectorized_at := None;
     ArchiveRecord.processing_status := PROCESSING;
     ArchiveRecord.processing_error := None;
     ArchiveRecord.processed_at := None |}.

Definition demo_world : world :=
  {| files := {[ components demo_upload ]};
     rows := {[ 1%Z := demo_row ]};
     published := [] |}.

(** The run in which the target directory cannot be created. *)
Definition target_failure_run : world * result ArchiveRecord.t :=
  _process_and_persist
    (demo_env (Raised (Exception "Permission denied")) None)
    demo_upload (Some demo_row) demo_world.

(** The run in which the commit fails after the move. *)
Definition commit_failure_run : world * result ArchiveRecord.t :=
  _process_and_persist
    (demo_env (Returned (demo_final, demo_relative_path))
              (Some (Exception "database is down")))
    demo_upload (Some demo_row) demo_world.

(** The run in which every step succeeds. *)
Definition success_run : world * result ArchiveRecord.t :=
  _process_and_persist
    (demo_env (Returned (demo_final, demo_relative_path)) None)
    demo_upload (Some demo_row) demo_world.

End Archiver.

(** * The vectorizer plugin ([src/plugins/core_vectorizer.py]) *)

Module Vectorizer.

Definition CHUNK_SIZE : nat := 2000.
Definition OVERLAP : nat := 200.

(** The [while start < len(text_to_embed)] loop of the fine-grained pass. *)
Equations chunk_while (text_to_embed : text) (start : nat) : list text
  by wf (length text_to_embed - start) lt :=
chunk_while text_to_embed start with decide (start < length text_to_embed) := {
  | left _ =>
      let end_ := (start + CHUNK_SIZE) `min` length text_to_embed in
      let chunk_text := slice text_to_embed start end_ in
      chunk_text :: chunk_while text_to_embed (start + (CHUNK_SIZE - OVERLAP))
  | right _ => []
}.
Next Obligation. unfold CHUNK_SIZE, OVERLAP. lia. Qed.

(** The list [chunks] built from the embeddable text. *)
Definition split_chunks (text_to_embed : text) : list text :=
  if decide (CHUNK_SIZE < length text_to_embed)
  then chunk_while text_to_embed 0
  else [text_to_embed].

Definition tags_list (record : ArchiveRecord.t) : list text :=
  match ArchiveRecord.meta_data record with
  | Some meta =>
      match tags meta with
      | Some (TagsStr s) => [s]
      | Some (TagsList l) => l
      | Some TagsOther => []
      | None => []
      end
  | None => []
  end.

Definition meta_header (record : ArchiveRecord.t) : text :=
  T "Title: " ++ ArchiveRecord.filename record ++ NL
  ++ T "Type: " ++ ArchiveRecord.file_type record ++ NL
  ++ T "Category: " ++ or_text (ArchiveRecord.category record) (T "Uncategorized") ++ NL
  ++ T "Tags: " ++ join (T ", ") (tags_list record) ++ NL
  ++ T "Summary: " ++ or_text (ArchiveRecord.summary record) (T "N/A") ++ NL
  ++ T "---" ++ NL.

Definition body_content (record : ArchiveRecord.t) : text :=
  or_text (ArchiveRecord.full_text record)
    (or_text (ArchiveRecord.summary record)
       (or_text (Some (ArchiveRecord.filename record)) [])).

Definition text_to_embed (record : ArchiveRecord.t) : text :=
  meta_header record ++ body_content record.

Section Pass.
(** [AIService.embed_text]: a vector, possibly empty, or an exception. *)
Variable embed_text : text -> result (list Q).
(** [datetime.now()] *)
Variable now : Z.

(** The coarse vector is stored on the record when it is not empty. *)
Definition store_coarse (record : ArchiveRecord.t) (vector : list Q) : ArchiveRecord.t :=
  if truthy vector then
    {| ArchiveRecord.id := ArchiveRecord.id record;
       ArchiveRecord.user_id := ArchiveRecord.user_id record;
       ArchiveRecord.filename := ArchiveRecord.filename record;
       ArchiveRecord.original_filename := ArchiveRecord.original_filename record;
       ArchiveRecord.file_type := ArchiveRecord.file_type record;
       ArchiveRecord.category := ArchiveRecord.category record;
       ArchiveRecord.summary := ArchiveRecord.summary record;
       ArchiveRecord.full_text := ArchiveRecord.full_text record;
       ArchiveRecord.meta_data := ArchiveRecord.meta_data record;
       ArchiveRecord.relative_path := ArchiveRecord.relative_path record;
       ArchiveRecord.embedding := Some vector;
       ArchiveRecord.is_vectorized := 1;
       ArchiveRecord.vectorized_at := Some now;
       ArchiveRecord.processing_status := ArchiveRecord.processing_status record;
       ArchiveRecord.processing_error := ArchiveRecord.processing_error record;
       ArchiveRecord.processed_at := ArchiveRecord.processed_at record |}
  else record.

(** The [for i, chunk in enumerate(chunks)] loop: the nodes added to the
    session, or the exception that ends the pass.  [next_id] is the key
    the database gives to the next inserted row. *)
Fixpoint embed_chunks (archive_id : Z) (source_length : nat) (is_image : bool)
    (next_id : Z) (indexed : list (nat * text)) : result (list VectorNode.t) :=
  match indexed with
  | [] => Returned []
  | (i, chunk) :: indexed =>
      if decide (length (strip chunk) < 10) then
        embed_chunks archive_id source_length is_image next_id indexed
      else
        match embed_text chunk with
        | Raised e => Raised e
        | Returned chunk_vector =>
            if truthy chunk_vector then
              let node :=
                {| VectorNode.id := next_id;
                   VectorNode.parent_archive_id := archive_id;
                   VectorNode.content := chunk;
                   VectorNode.chunk_index := i;
                   VectorNode.embedding := chunk_vector;
                   VectorNode.source_length := source_length;
                   VectorNode.is_image_desc := is_image |} in
              match embed_chunks archive_id source_length is_image (next_id + 1) indexed with
              | Returned nodes => Returned (node :: nodes)
              | Raised e => Raised e
              end
            else embed_chunks archive_id source_length is_image next_id indexed
        end
  end.

(** The rows of [vector_nodes] that belong to one parent. *)
Definition nodes_of (archive_id : Z) (nodes : list VectorNode.t) : list VectorNode.t :=
  filter (fun n => VectorNode.parent_archive_id n = archive_id) nodes.

(** [DELETE FROM vector_nodes WHERE parent_archive_id = archive_id] *)
Definition delete_nodes_of (archive_id : Z) (nodes : list VectorNode.t) : list VectorNode.t :=
  filter (fun n => VectorNode.parent_archive_id n ≠ archive_id) nodes.

(** What one run of [_process_vectorization] did to the session. *)
Inductive pass_outcome : Type :=
  | NoRecord
  | NoText
  | Committed (created_nodes : nat)
  | RolledBack (e : exn).

(** [CoreVectorizerPlugin._process_vectorization]: the database after the
    pass and how the pass ended.  Nothing is written before [db.commit()],
    so a pass that raises leaves the database as it found it. *)
Definition _process_vectorization (archive_id : Z) (db : database)
    : database * pass_outcome :=
  match archives db !! archive_id with
  | None => (db, NoRecord)
  | Some record =>
      let text_to_embed := text_to_embed record in
      if decide (strip text_to_embed = []) then (db, NoText)
      else
        let coarse_text := take 2000 text_to_embed in
        match embed_text coarse_text with
        | Raised e => (db, RolledBack e)
        | Returned vector =>
            let record := store_coarse record vector in
            let existing_count := length (nodes_of archive_id (vector_nodes db)) in
            let nodes :=
              if decide (0 < existing_count)
              then delete_nodes_of archive_id (vector_nodes db)
              else vector_nodes db in
            let chunks := split_chunks text_to_embed in
            let is_image :=
              bool_decide (ArchiveRecord.file_type record = T "image") in
            match embed_chunks archive_id (length text_to_embed) is_image
                    (next_node_id db) (enumerate chunks) with
            | Raised e => (db, RolledBack e)
            | Returned new_nodes =>
                ({| archives := <[archive_id := record]> (archives db);
                    vector_nodes := nodes ++ new_nodes;
                    next_node_id := next_node_id db + Z.of_nat (length new_nodes) |},
                 Committed (length new_nodes))
            end
        end
  end.

End Pass.

(** Every stored chunk index is used once per parent document. *)
Definition chunk_index_unique (db : database) : Prop :=
  ∀ p, NoDup (VectorNode.chunk_index <$> nodes_of p (vector_nodes db)).

(** Every stored chunk has a key the database has already handed out. *)
Definition keys_below (db : database) : Prop :=
  Forall (fun n => (VectorNode.id n < next_node_id db)%Z) (vector_nodes db).

(** The databases the indexer meets: the chunk table starts empty and is
    written by indexing passes only, with any embedding answers; the
    Document table may change in between. *)
Inductive indexed : database -> Prop :=
  | indexed_empty docs next :
      indexed {| archives := docs; vector_nodes := []; next_node_id := next |}
  | indexed_pass embed_text now archive_id db :
      indexed db ->
      indexed (_process_vectorization embed_text now archive_id db).1
  | indexed_edit docs db :
      indexed db ->
      indexed {| archives := docs; vector_nodes := vector_nodes db;
                 next_node_id := next_node_id db |}.

(** The document [demo_record] before it is indexed, and an embedding
    capability that answers every text with the same vector. *)
Definition demo_db : database :=
  {| archives := {[ 1%Z := demo_record ]};
     vector_nodes := [];
     next_node_id := 1 |}.

Definition demo_embed (_ : text) : result (list Q) := Returned [1%Q].

End Vectorizer.

(** * The retrieval agent ([src/services/agents/retrieval_agent.py]) *)

Module Retrieval.
Import Dates.

(** ** Time ranges *)

(** [RetrievalAgent._parse_date] *)
Definition _parse_date (value : text) : option datetime :=
  match value with
  | [] => None
  | _ =>
      match fromisoformat value with
      | Returned dt => Some dt
      | Raised _ =>
          match fromisoformat (value ++ T "-01") with
          | Returned dt => Some dt
          | Raised _ => None
          end
      end
  end.

(** [re.match(r"^last(\d+)([dh])$", tr)]: the number and the unit. *)
Definition match_last (tr : text) : option (Z * ascii) :=
  match tr with
  | "l"%char :: "a"%char :: "s"%char :: "t"%char :: rest =>
      match reverse rest with
      | unit :: digits =>
          if bool_decide (unit = "d"%char ∨ unit = "h"%char) then
            match number (reverse digits) with
            | Some num => Some (num, unit)
            | None => None
            end
          else None
      | [] => None
      end
  | _ => None
  end.

(** [tr.split("~", 1)] when ["~" in tr]: the text before and after the
    first tilde. *)
Fixpoint split_tilde (tr : text) : option (text * text) :=
  match tr with
  | [] => None
  | c :: tr' =>
      if decide (c = "~"%char) then Some ([], tr')
      else match split_tilde tr' with
           | Some (before, after) => Some (c :: before, after)
           | None => None
           end
  end.

(** The largest number of days a [timedelta] holds. *)
Definition MAX_DELTA_DAYS : Z := 999999999.

(** [now - timedelta(...)] for a span of [span] microseconds that is
    [days] whole days long: an [OverflowError] when the span is too long
    or the instant would lie before year 1. *)
Definition minus_timedelta (now : Z) (span days : Z) : result Z :=
  if (MAX_DELTA_DAYS <? days)%Z
  then Raised (Exception "days out of range for timedelta")
  else if (now - span <? 0)%Z
  then Raised (Exception "date value out of range")
  else Returned (now - span)%Z.

(** [dt.replace(hour=0, minute=0, second=0, microsecond=0)] *)
Definition start_of_day (t : Z) : Z := (t - t mod DAY)%Z.

(** The nested function [in_range] of [_match_time_range]; of
    [start <= dt <= end] the second comparison is only made when the first
    holds. *)
Definition in_range (start end_ : option instant) (dt : instant) : result bool :=
  match start, end_ with
  | Some start, Some end_ =>
      match le_instant start dt with
      | Returned true => le_instant dt end_
      | other => other
      end
  | Some start, None => le_instant start dt
  | None, _ => Returned true
  end.

(** The bounds [start] and [end] that a time-range expression denotes at
    the instant [now], which is [datetime.now()], a naive instant. *)
Definition range_bounds (now : datetime) (time_range : text)
    : result (option instant * option instant) :=
  let tr := strip time_range in
  match match_last tr with
  | Some (num, unit) =>
      if decide (unit = "d"%char) then
        match minus_timedelta (micros now) (num * DAY) num with
        | Returned t =>
            Returned (Some (naive (start_of_day t)), Some (naive (micros now)))
        | Raised e => Raised e
        end
      else
        match minus_timedelta (micros now) (num * HOUR) (num / 24) with
        | Returned t => Returned (Some (naive t), Some (naive (micros now)))
        | Raised e => Raised e
        end
  | None =>
      match split_tilde tr with
      | Some (before, after) =>
          Returned (instant_of <$> _parse_date before,
                    instant_of <$> _parse_date after)
      | None => Returned (instant_of <$> _parse_date tr, None)
      end
  end.

(** [RetrievalAgent._match_time_range]; [candidate] is the semantic date
    and [fallback_dt] the instant of processing, a naive instant. *)
Definition _match_time_range (now : datetime) (candidate : option text)
    (time_range : option text) (fallback_dt : option Z) : result bool :=
  match time_range with
  | None | Some [] => Returned true
  | Some time_range =>
      match range_bounds now time_range with
      | Raised e => Raised e
      | Returned (start, end_) =>
          let semantic_dt :=
            match candidate with
            | Some candidate => _parse_date candidate
            | None => None
            end in
          match semantic_dt with
          | Some semantic_dt => in_range start end_ (instant_of semantic_dt)
          | None =>
              match fallback_dt with
              | Some fallback_dt => in_range start end_ (naive fallback_dt)
              | None => Returned true
              end
          end
      end
  end.

(** ** Vector recall *)

(** The entries of a hit's ["metadata"] dictionary that the search reads
    or writes.  [md_summary] is [None] when the entry is absent or holds
    [None]; paths and URLs are left out. *)
Record metadata : Type := {
  md_filename : text;
  md_category : option text;
  md_summary : option text;
  matched_content : text;
  match_source : string;
  rerank_score : option Q
}.

(** An entry of [aggregated_scores]. *)
Record info : Type := {
  i_score : Q;
  snippet : text;
  i_source : string;
  child_id : option Z
}.

(** A result of [search_by_vector]; its ["id"] and ["doc_id"] are both the
    string [str(record.id)], kept here as the number [vr_id]. *)
Record vector_result : Type := {
  vr_id : Z;
  vr_score : Q;
  vr_metadata : metadata
}.

Record filters : Type := {
  f_category : option text;
  f_file_type : option text
}.

(** What the services outside the agent answer: the embedding capability,
    the nearest-neighbour and keyword queries (the rows they return, in
    order), the Document table for the queries by id, and the reranker. *)
Record services : Type := {
  session : bool;
  embed_text : text -> result (list Q);
  l2_norm : list Q -> list Q -> Q;
  nearest_chunks : list Q -> nat -> result (list VectorNode.t);
  nearest_archives : list Q -> Z -> option filters -> nat -> result (list ArchiveRecord.t);
  documents : result (list ArchiveRecord.t);
  keyword_rows : list text -> nat -> Z -> option text -> result (list ArchiveRecord.t);
  rerank_model : option (text -> list text -> result (list Q));
  np_exp : Q -> Q
}.

(** [{r.id: r for r in records}] *)
Definition record_map_of (records : list ArchiveRecord.t) : gmap Z ArchiveRecord.t :=
  foldl (fun m r => <[ArchiveRecord.id r := r]> m) ∅ records.

(** [db.query(ArchiveRecord).filter(ArchiveRecord.id.in_(ids)).all()] *)
Definition rows_with_ids (table : list ArchiveRecord.t) (ids : list Z)
    : list ArchiveRecord.t :=
  filter (fun r => ArchiveRecord.id r ∈ ids) table.

Section VectorSearch.
Variable sv : services.

(** The nested function [calc_score]. *)
Definition calc_score (query_vector : list Q) (emb : option (list Q)) : Q :=
  match emb with
  | None => 0
  | Some emb => 1 / (1 + l2_norm sv emb query_vector)
  end.

(** The loop over the child nodes: the best chunk of each parent. *)
Definition aggregate_child (query_vector : list Q)
    (aggregated_scores : list (Z * info)) (child : VectorNode.t) : list (Z * info) :=
  let pid := VectorNode.parent_archive_id child in
  let score := calc_score query_vector (Some (VectorNode.embedding child)) in
  let entry :=
    {| i_score := score; snippet := VectorNode.content child;
       i_source := "child_node"; child_id := Some (VectorNode.id child) |} in
  match od_get pid aggregated_scores with
  | None => od_set pid entry aggregated_scores
  | Some existing =>
      if Qlt_bool (i_score existing) score
      then od_set pid entry aggregated_scores
      else aggregated_scores
  end.

Definition parent_snippet (parent : ArchiveRecord.t) : text :=
  match ArchiveRecord.full_text parent with
  | Some (c :: full_text) =>
      or_text (ArchiveRecord.summary parent) (take 200 (c :: full_text))
  | _ => []
  end.

(** The loop over the parent archives: a new entry, or the higher score. *)
Definition aggregate_parent (query_vector : list Q)
    (aggregated_scores : list (Z * info)) (parent : ArchiveRecord.t) : list (Z * info) :=
  let pid := ArchiveRecord.id parent in
  let score := calc_score query_vector (ArchiveRecord.embedding parent) in
  match od_get pid aggregated_scores with
  | None =>
      od_set pid
        {| i_score := score; snippet := parent_snippet parent;
           i_source := "parent_vector"; child_id := None |}
        aggregated_scores
  | Some existing =>
      if Qlt_bool (i_score existing) score
      then od_set pid
             {| i_score := score; snippet := snippet existing;
                i_source := "parent_vector_boost"; child_id := child_id existing |}
             aggregated_scores
      else aggregated_scores
  end.

Definition aggregate (query_vector : list Q) (child_results : list VectorNode.t)
    (parent_results : list ArchiveRecord.t) : list (Z * info) :=
  foldl (aggregate_parent query_vector)
    (foldl (aggregate_child query_vector) [] child_results) parent_results.

Definition filtered_out (f : option filters) (record : ArchiveRecord.t) : bool :=
  match f with
  | None => false
  | Some f =>
      match f_category f with
      | Some c => negb (bool_decide (ArchiveRecord.category record = Some c))
      | None => false
      end
      || match f_file_type f with
         | Some t => negb (bool_decide (ArchiveRecord.file_type record = t))
         | None => false
         end
  end.

(** One turn of the loop that builds [final_results]. *)
Definition final_result (record_map : gmap Z ArchiveRecord.t) (min_score : Q)
    (f : option filters) (item : Z * info) : option vector_result :=
  let '(pid, info) := item in
  match record_map !! pid with
  | None => None
  | Some record =>
      if Qlt_bool (i_score info) min_score then None
      else if filtered_out f record then None
      else Some {| vr_id := ArchiveRecord.id record;
                   vr_score := i_score info;
                   vr_metadata :=
                     {| md_filename := ArchiveRecord.filename record;
                        md_category := ArchiveRecord.category record;
                        md_summary := None;
                        matched_content := snippet info;
                        match_source := i_source info;
                        rerank_score := None |} |}
  end.

(** [RetrievalAgent.search_by_vector]: any exception inside, and an empty
    query vector, give the empty list. *)
Definition search_by_vector (query_text : text) (top_k : nat)
    (f : option filters) (user_id : Z) (min_score : Q) : list vector_result :=
  if negb (session sv) then []
  else
    match embed_text sv query_text with
    | Raised _ => []
    | Returned query_vector =>
        if negb (truthy query_vector) then []
        else
          match nearest_chunks sv query_vector (top_k * 3),
                nearest_archives sv query_vector user_id f top_k with
          | Returned child_results, Returned parent_results =>
              let aggregated_scores :=
                aggregate query_vector child_results parent_results in
              match aggregated_scores, documents sv with
              | [], _ => []
              | _, Raised _ => []
              | _, Returned table =>
                  let all_ids := aggregated_scores.*1 in
                  let records := rows_with_ids table all_ids in
                  let record_map := record_map_of records in
                  let final_results :=
                    omap (final_result record_map min_score f) aggregated_scores in
                  take top_k (sort_desc vr_score final_results)
              end
          | _, _ => []
          end
    end.

End VectorSearch.

(** The chunk that stands for a document: one of the recalled chunks of
    the document, such that none of them scores higher. *)
Definition best_chunk (sv : services) (query_vector : list Q)
    (child_results : list VectorNode.t) (pid : Z) (c : VectorNode.t) : Prop :=
  c ∈ child_results ∧ VectorNode.parent_archive_id c = pid
  ∧ ∀ c', c' ∈ child_results -> VectorNode.parent_archive_id c' = pid ->
      (calc_score sv query_vector (Some (VectorNode.embedding c'))
       <= calc_score sv query_vector (Some (VectorNode.embedding c)))%Q.

(** The default [min_score] of [search_by_vector]. *)
Definition MIN_SCORE : Q := 0.45.

(** ** Keywords *)

(** [\w] of a regular expression on one character (code points below
    256): letters, digits and numeric characters, and the underscore. *)
Definition is_word (c : ascii) : bool :=
  let n := nat_of_ascii c in
  (Nat.leb 48 n && Nat.leb n 57) || (Nat.leb 65 n && Nat.leb n 90)
  || Nat.eqb n 95 || (Nat.leb 97 n && Nat.leb n 122)
  || Nat.eqb n 170 || Nat.eqb n 178 || Nat.eqb n 179 || Nat.eqb n 181
  || Nat.eqb n 185 || Nat.eqb n 186 || (Nat.leb 188 n && Nat.leb n 190)
  || (Nat.leb 192 n && Nat.leb n 214) || (Nat.leb 216 n && Nat.leb n 246)
  || (Nat.leb 248 n && Nat.leb n 255).

Definition is_ascii_letter (c : ascii) : bool :=
  let n := nat_of_ascii c in
  (Nat.leb 65 n && Nat.leb n 90) || (Nat.leb 97 n && Nat.leb n 122).

(** [re.findall(r'\b[a-zA-Z]{3,}\b', query_text)]: the maximal runs of
    word characters that are made of at least three ASCII letters only. *)
Definition english_words (query_text : text) : list text :=
  filter (fun w => forallb is_ascii_letter w = true ∧ 3 ≤ length w)
    (runs_from is_word [] query_text).

(** [re.findall(r'[\u4e00-\u9fff]{2,4}', query_text)]: no character of
    the modelled range is a CJK ideograph. *)
Definition chinese_words (query_text : text) : list text := [].

(** The keyword list the search works with: the one given, or the one
    drawn from the query text. *)
Definition resolve_keywords (query_text : text) (keywords : option (list text))
    : list text :=
  match keywords with
  | Some (k :: ks) => k :: ks
  | _ =>
      match take 3 (chinese_words query_text) ++ take 2 (english_words query_text) with
      | k :: ks => k :: ks
      | [] =>
          if bool_decide (" "%char ∈ query_text) then take 5 (split query_text)
          else [take 10 query_text]
      end
  end.

(** ** Merging the two recalls *)

(** A key of the dictionary [combined]: the string [str(n)] under which a
    vector result is stored, or the integer [n] under which a keyword
    result is stored.  A string and an integer are never equal keys. *)
Inductive doc_key : Type :=
  | StrKey (n : Z)
  | IntKey (n : Z).

#[export] Instance doc_key_eq_dec : EqDecision doc_key.
Proof. solve_decision. Defined.

(** The document a key stands for: [int(doc_id)]. *)
Definition doc_of (k : doc_key) : Z :=
  match k with StrKey n => n | IntKey n => n end.

(** A value of [combined], and so a hit of the result. *)
Record hit : Type := {
  h_id : doc_key;
  h_score : Q;
  h_source : string;
  h_metadata : metadata;
  original_score : option Q
}.

(** A list comprehension with a condition that may raise. *)
Fixpoint filter_raising {A : Type} (p : A -> result bool) (l : list A)
    : result (list A) :=
  match l with
  | [] => Returned []
  | x :: l =>
      match p x with
      | Raised e => Raised e
      | Returned keep =>
          match filter_raising p l with
          | Raised e => Raised e
          | Returned l' => Returned (if keep then x :: l' else l')
          end
      end
  end.

(** The nested function [pass_time] of [hybrid_search]. *)
Definition pass_time (now : datetime) (records_map : gmap Z ArchiveRecord.t)
    (time_range : option text) (doc_id : Z) : result bool :=
  match records_map !! doc_id with
  | None => Returned true
  | Some rec =>
      let sem_date :=
        match ArchiveRecord.meta_data rec with
        | Some meta =>
            match semantic_date meta with
            | Some (c :: s) => Some (c :: s)
            | _ => structured_date meta
            end
        | None => None
        end in
      _match_time_range now sem_date time_range (ArchiveRecord.processed_at rec)
  end.

(** [max(l)] of a list that is not empty. *)
Definition list_max (l : list Z) : Z :=
  match l with
  | [] => 0%Z
  | x :: l => foldl Z.max x l
  end.

Definition max_id_of (vector_results : list vector_result)
    (keyword_results : list ArchiveRecord.t) : Z :=
  let max_id :=
    match keyword_results with
    | [] => 0%Z
    | _ => list_max (ArchiveRecord.id <$> keyword_results)
    end in
  match vector_results with
  | [] => max_id
  | _ => Z.max max_id (list_max (vr_id <$> vector_results))
  end.

(** The first loop of the merge: [combined[doc_id] = {...}]. *)
Definition add_vector (combined : list (doc_key * hit)) (result : vector_result)
    : list (doc_key * hit) :=
  let doc_id := StrKey (vr_id result) in
  od_set doc_id
    {| h_id := doc_id; h_score := vr_score result; h_source := "vector";
       h_metadata := vr_metadata result; original_score := None |}
    combined.

Fixpoint first_occurrence (text_lower : text) (keywords : list text) : option nat :=
  match keywords with
  | [] => None
  | kw :: keywords =>
      match find text_lower (lower kw) with
      | Some idx => Some idx
      | None => first_occurrence text_lower keywords
      end
  end.

(** The snippet of a keyword result and the name of its origin. *)
Definition keyword_snippet (keywords : list text) (record : ArchiveRecord.t)
    : text * string :=
  let summary := (or_text (ArchiveRecord.summary record) [], "keyword_summary"%string) in
  match ArchiveRecord.full_text record, keywords with
  | Some (c :: full_text), _ :: _ =>
      let full_text := c :: full_text in
      match first_occurrence (lower full_text) keywords with
      | Some idx =>
          let start := idx - 50 in
          let end_ := length full_text `min` (idx + 150) in
          (strip (replace_newlines (slice full_text start end_)),
           "keyword_fulltext_snippet"%string)
      | None => summary
      end
  | _, _ => summary
  end.

(** The score of a keyword result: 0.3, and 0.1 more for the documents
    whose id is within 5 of the highest id recalled. *)
Definition base_score_of (max_id : Z) (record_id : Z) : Q :=
  if ((0 <? max_id) && (max_id - 5 <=? record_id))%Z
  then 0.3 + 0.1 else 0.3.

(** The second loop of the merge, for one keyword result. *)
Definition add_keyword (keywords : list text) (max_id : Z)
    (combined : list (doc_key * hit)) (record : ArchiveRecord.t)
    : list (doc_key * hit) :=
  let key := IntKey (ArchiveRecord.id record) in
  let base_score := base_score_of max_id (ArchiveRecord.id record) in
  let '(snippet, matched_source) := keyword_snippet keywords record in
  match od_get key combined with
  | None =>
      od_set key
        {| h_id := key; h_score := base_score; h_source := "keyword";
           h_metadata :=
             {| md_filename := ArchiveRecord.filename record;
                md_category := ArchiveRecord.category record;
                md_summary := ArchiveRecord.summary record;
                matched_content := snippet;
                match_source := matched_source;
                rerank_score := None |};
           original_score := None |}
        combined
  | Some existing =>
      if Qlt_bool (h_score existing) base_score
      then od_set key
             {| h_id := h_id existing; h_score := base_score;
                h_source := "keyword_boost";
                h_metadata := h_metadata existing;
                original_score := original_score existing |}
             combined
      else combined
  end.

(** The dictionary [combined] after both loops. *)
Definition merge (keywords : list text) (vector_results : list vector_result)
    (keyword_results : list ArchiveRecord.t) : list (doc_key * hit) :=
  let max_id := max_id_of vector_results keyword_results in
  foldl (add_keyword keywords max_id)
    (foldl add_vector [] vector_results) keyword_results.

(** The query text that is embedded: the query followed by the keywords. *)
Definition enhanced_query (query_text : text) (keywords : list text) : text :=
  match keywords with
  | [] => query_text
  | _ => query_text ++ T " " ++ join (T " ") keywords
  end.

(** ** Reranking *)

(** The text of a candidate that is given to the reranker. *)
Definition candidate_text (item : hit) : text :=
  let meta := h_metadata item in
  match matched_content meta with
  | c :: s => c :: s
  | [] => or_text (md_summary meta) (md_filename meta)
  end.

Section Rerank.
Variable sv : services.

(** [RerankService.rerank] ([src/services/ai/rerank_provider.py]): the
    indices of the candidates with their raw scores, best first, at most
    [top_k] of them; zero scores in the given order when the prediction
    fails; a [RuntimeError] when no model could be loaded. *)
Definition rerank (query : text) (candidates : list text) (top_k : nat)
    : result (list (nat * Q)) :=
  match candidates with
  | [] => Returned []
  | _ =>
      match rerank_model sv with
      | None => Raised (Exception "Rerank model is not available.")
      | Some predict =>
          match predict query (take 2000 <$> candidates) with
          | Returned scores =>
              Returned (take top_k (sort_desc snd (enumerate scores)))
          | Raised _ =>
              Returned (take top_k ((fun i => (i, 0%Q)) <$> seq 0 (length candidates)))
          end
      end
  end.

(** The nested function [sigmoid]. *)
Definition sigmoid (x : Q) : Q := 1 / (1 + np_exp sv (- x)).

(** The text in which the keywords are looked for. *)
Definition content_to_check (item : hit) : text :=
  matched_content (h_metadata item)
  ++ or_text (md_summary (h_metadata item)) []
  ++ md_filename (h_metadata item).

Definition has_kw (keywords : list text) (item : hit) : bool :=
  existsb (fun k => contains (lower (content_to_check item)) (lower k)) keywords.

(** The score after the keyword verification: halved when there are
    keywords, none of them occurs, and the score is below 0.85. *)
Definition verified_score (keywords : list text) (item : hit) (norm_score : Q) : Q :=
  match keywords with
  | [] => norm_score
  | _ =>
      if has_kw keywords item then norm_score
      else if Qlt_bool norm_score 0.85 then norm_score * 0.5
      else norm_score
  end.

(** The candidate as the loop leaves it: rescored, with the score it had
    kept as [original_score]. *)
Definition rescored (keywords : list text) (item : hit) (score : Q) : hit :=
  let norm_score := verified_score keywords item (sigmoid score) in
  {| h_id := h_id item;
     h_score := norm_score;
     h_source := h_source item;
     h_metadata :=
       {| md_filename := md_filename (h_metadata item);
          md_category := md_category (h_metadata item);
          md_summary := md_summary (h_metadata item);
          matched_content := matched_content (h_metadata item);
          match_source := match_source (h_metadata item);
          rerank_score := Some norm_score |};
     original_score :=
       match original_score item with
       | Some s => Some s
       | None => Some (h_score item)
       end |}.

(** What one entry of the reranked list contributes to the result: the
    rescored candidate at its position, unless its score is below 0.40 or
    there is no such position. *)
Definition finalized (keywords : list text) (candidate_items : list hit)
    (entry : nat * Q) : option hit :=
  match candidate_items !! entry.1 with
  | None => None
  | Some item =>
      let item := rescored keywords item entry.2 in
      if Qlt_bool (h_score item) 0.40 then None else Some item
  end.

(** The loop over [reranked_indices].  The candidates are updated in
    place; [final_results] holds the positions of the appended ones. *)
Fixpoint rerank_loop (keywords : list text) (reranked_indices : list (nat * Q))
    (candidate_items : list hit) (final_results : list nat)
    : list hit * list nat :=
  match reranked_indices with
  | [] => (candidate_items, final_results)
  | (idx, score) :: reranked_indices =>
      match candidate_items !! idx with
      | None => rerank_loop keywords reranked_indices candidate_items final_results
      | Some item =>
          let item := rescored keywords item score in
          let candidate_items := <[idx := item]> candidate_items in
          if Qlt_bool (h_score item) 0.40
          then rerank_loop keywords reranked_indices candidate_items final_results
          else rerank_loop keywords reranked_indices candidate_items
                 (final_results ++ [idx])
      end
  end.

(** Stage 4 of [hybrid_search]: the reranked hits, or, when the reranker
    raises, the candidates sorted by their score. *)
Definition rank (query_text : text) (keywords : list text) (top_k : nat)
    (candidate_items : list hit) : list hit :=
  match candidate_items with
  | [] => []
  | _ =>
      let candidate_texts := candidate_text <$> candidate_items in
      match rerank query_text candidate_texts top_k with
      | Returned reranked_indices =>
          let '(candidate_items, final_results) :=
            rerank_loop keywords reranked_indices candidate_items [] in
          omap (fun idx => candidate_items !! idx) final_results
      | Raised _ => take top_k (sort_desc h_score candidate_items)
      end
  end.

(** The embedding call on a text gives no query vector: it raises, or it
    returns an empty vector. *)
Definition embedding_fails (query : text) : Prop :=
  match embed_text sv query with
  | Raised _ => True
  | Returned query_vector => query_vector = []
  end.

(** [RetrievalAgent.search_by_keywords] *)
Definition search_by_keywords (keywords : list text) (limit : nat)
    (user_id : Z) (file_type : option text) : list ArchiveRecord.t :=
  if negb (session sv) then []
  else match keyword_rows sv keywords limit user_id file_type with
       | Returned results => results
       | Raised _ => []
       end.

(** The rest of [hybrid_search] once both recalls have answered. *)
Definition hybrid_search_from (now : datetime) (query_text : text)
    (keywords : list text) (top_k : nat) (time_range : option text)
    (vector_results : list vector_result)
    (keyword_results : list ArchiveRecord.t) : result (list hit) :=
  let id_set := (vr_id <$> vector_results) ++ (ArchiveRecord.id <$> keyword_results) in
  let records_map :=
    match session sv, id_set, documents sv with
    | true, _ :: _, Returned table => record_map_of (rows_with_ids table id_set)
    | _, _, _ => ∅
    end in
  match filter_raising
          (fun r => pass_time now records_map time_range (vr_id r)) vector_results with
  | Raised e => Raised e
  | Returned vector_results =>
      match filter_raising
              (fun r => pass_time now records_map time_range (ArchiveRecord.id r))
              keyword_results with
      | Raised e => Raised e
      | Returned keyword_results =>
          let combined := merge keywords vector_results keyword_results in
          Returned (rank query_text keywords top_k combined.*2)
      end
  end.

(** [RetrievalAgent.hybrid_search] *)
Definition hybrid_search (now : datetime) (query_text : text)
    (keywords : option (list text)) (top_k : nat) (user_id : Z)
    (time_range : option text) (file_type : option text) : result (list hit) :=
  let keywords := resolve_keywords query_text keywords in
  let vector_filters :=
    match file_type with
    | Some (c :: s) => Some {| f_category := None; f_file_type := Some (c :: s) |}
    | _ => None
    end in
  let enhanced_query := enhanced_query query_text keywords in
  let recall_k := if top_k <? 10 then top_k * 3 else top_k * 2 in
  let vector_results :=
    search_by_vector sv enhanced_query recall_k vector_filters user_id MIN_SCORE in
  let keyword_results := search_by_keywords keywords recall_k user_id file_type in
  hybrid_search_from now query_text keywords top_k time_range
    vector_results keyword_results.



End Rerank.

(** ** Sample data *)

(** A rational approximation of the exponential: 24 terms of its series. *)
Fixpoint exp_from (x term : Q) (k : positive) (n : nat) : Q :=
  match n with
  | O => 0
  | S n => Qred (term + exp_from x (Qred (term * x / (Zpos k # 1))) (Pos.succ k) n)
  end.

Definition exp_series (x : Q) : Q := exp_from x 1 1 24.

(** Scenario A of the specification: an invoice and a photo caption. *)
Definition invoice : ArchiveRecord.t :=
  {| ArchiveRecord.id := 1;
     ArchiveRecord.user_id := 1;
     ArchiveRecord.filename := T "2023-11-15-invoice.txt";
     ArchiveRecord.original_filename := T "invoice.txt";
     ArchiveRecord.file_type := T "Documents";
     ArchiveRecord.category := Some (T "Finance");
     ArchiveRecord.summary := Some (T "quarterly tax invoice");
     ArchiveRecord.full_text :=
       Some (T "quarterly tax invoice 2023-11-15, amount 500");
     ArchiveRecord.meta_data :=
       Some {| tags := None; semantic_date := Some (T "2023-11-15");
               structured_date := Some (T "2023-11-15"); session_id := None |};
     ArchiveRecord.relative_path := None;
     ArchiveRecord.embedding := Some [1%Q];
     ArchiveRecord.is_vectorized := 1;
     ArchiveRecord.vectorized_at := None;
     ArchiveRecord.processing_status := COMPLETED;
     ArchiveRecord.processing_error := None;
     ArchiveRecord.processed_at := None |}.

Definition photo : ArchiveRecord.t :=
  {| ArchiveRecord.id := 2;
     ArchiveRecord.user_id := 1;
     ArchiveRecord.filename := T "2024-03-09-photo.jpg";
     ArchiveRecord.original_filename := T "photo.jpg";
     ArchiveRecord.file_type := T "Images";
     ArchiveRecord.category := Some (T "Family");
     ArchiveRecord.summary := Some (T "family photo");
     ArchiveRecord.full_text := Some (T "family photo caption: birthday");
     ArchiveRecord.meta_data := None;
     ArchiveRecord.relative_path := None;
     ArchiveRecord.embedding := Some [1%Q];
     ArchiveRecord.is_vectorized := 1;
     ArchiveRecord.vectorized_at := None;
     ArchiveRecord.processing_status := COMPLETED;
     ArchiveRecord.processing_error := None;
     ArchiveRecord.processed_at := None |}.

Definition chunk_of (record : ArchiveRecord.t) (key : Z) : VectorNode.t :=
  {| VectorNode.id := key;
     VectorNode.parent_archive_id := ArchiveRecord.id record;
     VectorNode.content := default [] (ArchiveRecord.full_text record);
     VectorNode.chunk_index := 0;
     VectorNode.embedding := [1%Q];
     VectorNode.source_length := 0;
     VectorNode.is_image_desc := false |}.

(** Services that answer every call in the same way: the embedding call
    with [embedding], the chunk query with [chunks], the keyword query with
    [rows], and the reranker, when there is one, with [scores]. *)
Definition sample_services (embedding : result (list Q))
    (chunks : list VectorNode.t) (rows : list ArchiveRecord.t)
    (scores : option (list Q)) : services :=
  {| session := true;
     embed_text := fun _ => embedding;
     l2_norm := fun _ _ => 0%Q;
     nearest_chunks := fun _ _ => Returned chunks;
     nearest_archives := fun _ _ _ _ => Returned [];
     documents := Returned [invoice; photo];
     keyword_rows := fun _ _ _ _ => Returned rows;
     rerank_model := (fun s _ _ => Returned s) <$> scores;
     np_exp := exp_series |}.

Definition sample_now : datetime :=
  {| year := 2024; month := 3; day := 9; hour := 10; minute := 0;
     second := 0; microsecond := 0; tzinfo := None |}.

Definition sample_search (sv : services) (query_text : text)
    (keywords : option (list text)) : result (list hit) :=
  hybrid_search sv sample_now query_text keywords 5 1 None None.

(** The invoice is recalled through one of its chunks and through the
    keyword; the reranker scores the two candidates 2 and 1. *)
Definition both_paths_run : result (list hit) :=
  sample_search
    (sample_services (Returned [1%Q]) [chunk_of invoice 1] [invoice] (Some [2%Q; 1%Q]))
    (T "invoice from november") (Some [T "invoice"]).


(** The embedding call raises; the keyword query finds the invoice. *)
Definition embedding_down_run : result (list hit) :=
  sample_search
    (sample_services (Raised (Exception "all embedding models failed"))
       [chunk_of invoice 1] [invoice] (Some [0%Q]))
    (T "invoice from november") (Some [T "invoice"]).

(** A query of one space, without keywords; the keyword query, which then
    has no condition, returns the photo, and the reranker scores it 0. *)
Definition blank_query_run : result (list hit) :=
  sample_search
    (sample_services (Returned [1%Q]) [] [photo] (Some [0%Q]))
    (T " ") None.

(** Services whose exponential always answers 2/3, so that every
    calibrated score is 0.6. *)
Definition flat_services : services :=
  {| session := true;
     embed_text := fun _ => Returned [1%Q];
     l2_norm := fun _ _ => 0%Q;
     nearest_chunks := fun _ _ => Returned [];
     nearest_archives := fun _ _ _ _ => Returned [];
     documents := Returned [invoice; photo];
     keyword_rows := fun _ _ _ _ => Returned [];
     rerank_model := None;
     np_exp := fun _ => 2 # 3 |}.

Definition photo_hit : hit :=
  {| h_id := StrKey 2; h_score := 0.6; h_source := "vector";
     h_metadata :=
       {| md_filename := ArchiveRecord.filename photo;
          md_category := ArchiveRecord.category photo;
          md_summary := None;
          matched_content := T "family photo caption: birthday";
          match_source := "child_node";
          rerank_score := None |};
     original_score := None |}.

End Retrieval.

(** * Names and target paths of the archiver ([src/plugins/core_archiver.py]) *)

Module Naming.
Import Dates.

(** ** User names *)

(** A character of the class [[\w.-]]. *)
Definition is_safe (c : ascii) : bool :=
  Retrieval.is_word c || bool_decide (c = "."%char) || bool_decide (c = "-"%char).

(** [re.sub(r"[^\w.-]+", "_", s)]: every maximal run of characters outside
    the class becomes one underscore; [in_run] tells that the run has
    already been replaced. *)
Fixpoint sub_unsafe (in_run : bool) (s : text) : text :=
  match s with
  | [] => []
  | c :: s' =>
      if is_safe c then c :: sub_unsafe false s'
      else if in_run then sub_unsafe true s'
      else "_"%char :: sub_unsafe true s'
  end.

(** [CoreArchiverPlugin._sanitize_username] *)
Definition _sanitize_username (username : text) : text :=
  match username with
  | [] => T "user"
  | _ =>
      match sub_unsafe false (strip username) with
      | [] => T "user"
      | safe => safe
      end
  end.

(** ** Paths ([pathlib.PurePosixPath]) *)

(** [s.split("/")]; [cur] holds the characters of the current piece, last
    first. *)
Fixpoint split_slash (cur : text) (s : text) : list text :=
  match s with
  | [] => [reverse cur]
  | c :: s' =>
      if decide (c = "/"%char) then reverse cur :: split_slash [] s'
      else split_slash (c :: cur) s'
  end.

(** A path as [pathlib] holds it: the root (empty for a relative path) and
    the parts after it. *)
Record Path : Type := {
  root : text;
  parts : list text
}.

#[export] Instance Path_eq_dec : EqDecision Path.
Proof. solve_decision. Defined.

(** [Path(s)]: the text is split at the slashes; empty parts and ["."]
    parts are dropped; exactly two leading slashes are kept as the root. *)
Definition parse (s : text) : Path :=
  {| root :=
       match s with
       | "/"%char :: "/"%char :: "/"%char :: _ => T "/"
       | "/"%char :: "/"%char :: _ => T "//"
       | "/"%char :: _ => T "/"
       | _ => []
       end;
     parts := filter (fun p => p ≠ [] ∧ p ≠ T ".") (split_slash [] s) |}.

(** [p / s]: a text with a root replaces the path. *)
Definition joinpath (p : Path) (s : text) : Path :=
  let q := parse s in
  match root q with
  | [] => {| root := root p; parts := parts p ++ parts q |}
  | _ => q
  end.

(** [p.name] *)
Definition name (p : Path) : text := default [] (last (parts p)).

(** [p.as_posix()] and [str(p)] *)
Definition as_posix (p : Path) : text :=
  match root p, parts p with
  | [], [] => T "."
  | r, ps => r ++ join (T "/") ps
  end.

(** [s.rfind(".")]: the index of the last dot. *)
Fixpoint rfind_dot (s : text) (i : nat) (found : option nat) : option nat :=
  match s with
  | [] => found
  | c :: s' =>
      rfind_dot s' (S i) (if decide (c = "."%char) then Some i else found)
  end.

(** The index at which the suffix of a name starts: the last dot, unless
    it is the first or the last character. *)
Definition suffix_start (name : text) : option nat :=
  match rfind_dot name 0 None with
  | Some i => if (0 <? i) && (i <? length name - 1) then Some i else None
  | None => None
  end.

(** [Path(name).suffix] and [Path(name).stem] of a name. *)
Definition suffix_of (name : text) : text :=
  match suffix_start name with Some i => drop i name | None => [] end.

Definition stem_of (name : text) : text :=
  match suffix_start name with Some i => take i name | None => name end.

(** ** File names *)

Definition is_digit (c : ascii) : bool :=
  match digit c with Some _ => true | None => false end.

Definition is_date_sep (c : ascii) : bool :=
  bool_decide (c = "-"%char ∨ c = "_"%char).

(** [re.match(r'^\d{8}_', stem)] *)
Definition has_compact_date (stem : text) : bool :=
  match stem with
  | d1 :: d2 :: d3 :: d4 :: d5 :: d6 :: d7 :: d8 :: u :: _ =>
      forallb is_digit [d1; d2; d3; d4; d5; d6; d7; d8]
      && bool_decide (u = "_"%char)
  | _ => false
  end.

(** [re.match(r'^\d{4}[-_]\d{2}[-_]\d{2}[-_]', stem)] *)
Definition has_dashed_date (stem : text) : bool :=
  match stem with
  | y1 :: y2 :: y3 :: y4 :: s1 :: m1 :: m2 :: s2 :: d1 :: d2 :: s3 :: _ =>
      forallb is_digit [y1; y2; y3; y4; m1; m2; d1; d2]
      && is_date_sep s1 && is_date_sep s2 && is_date_sep s3
  | _ => false
  end.

(** [strftime("%d")] *)
Definition strftime_d (dt : datetime) : text :=
  [digit_char (day dt / 10); digit_char (day dt)].

(** [today.strftime("%Y-%m-%d")] *)
Definition date_part (today : datetime) : text :=
  strftime_Y today ++ T "-" ++ strftime_m today ++ T "-" ++ strftime_d today.

(** [CoreArchiverPlugin._normalize_filename]; [today] is [datetime.now()].
    The argument [date_str] of the method is not used by it. *)
Definition _normalize_filename (today : datetime) (suggested_name : text) : text :=
  let path_obj := parse suggested_name in
  let suffix := suffix_of (name path_obj) in
  let stem := stem_of (name path_obj) in
  if has_compact_date stem || has_dashed_date stem then suggested_name
  else date_part today ++ T "-" ++ stem ++ suffix.

(** ** The name suggested by the analysis *)

(** A character the cleaning replaces: one of [<], [>], [:], the double
    quote, the slash, the backslash, [|], [?] and the asterisk. *)
Definition is_reserved (c : ascii) : bool :=
  bool_decide (c ∈ ["<"; ">"; ":"; "034"; "/"; "092"; "|"; "?"; "*"]%char).

(** [re.sub] of each of these characters by an underscore. *)
Definition replace_reserved (s : text) : text :=
  (fun c => if is_reserved c then "_"%char else c) <$> s.

(** [s.strip(chars)], for the characters [drop] holds. *)
Fixpoint lstrip_chars (drop : ascii -> bool) (s : text) : text :=
  match s with
  | [] => []
  | c :: s' => if drop c then lstrip_chars drop s' else s
  end.

Definition strip_chars (drop : ascii -> bool) (s : text) : text :=
  reverse (lstrip_chars drop (reverse (lstrip_chars drop s))).

Definition is_space_or_dot (c : ascii) : bool :=
  bool_decide (c = " "%char ∨ c = "."%char).

(** The local [suggested_name] of [_process_and_persist], for an analysis
    that is a dictionary; [file_name] is [file_path.name]. *)
Definition suggested_name (analysis : Archiver.analysis_dict) (file_name : text)
    : text :=
  if bool_decide (Archiver.a_error analysis = Some (T "analysis_failed"))
  then file_name
  else
    match Archiver.a_suggested_filename analysis with
    | None => file_name
    | Some ai_suggested_filename =>
        match strip ai_suggested_filename with
        | [] => file_name
        | stripped =>
            match strip_chars is_space_or_dot (replace_reserved stripped) with
            | [] => file_name
            | cleaned => cleaned
            end
        end
    end.

(** ** Target paths *)

(** The entry [entry] of the directory [dir]. *)
Definition child (dir : Path) (entry : text) : Path :=
  {| root := root dir; parts := parts dir ++ [entry] |}.

Section TargetPath.
(** [final_path.exists()], as the file system answers once the target
    directory has been made. *)
Variable exists_ : Path -> bool.
Variable today : datetime.

(** The name tried at the turn [counter] of the loop. *)
Definition numbered (final_name : text) (counter : nat) : text :=
  stem_of (name (parse final_name)) ++ T "_" ++ T (pretty counter)
  ++ suffix_of (name (parse final_name)).

(** The loop [while final_path.exists()]; [None] when the turns allowed by
    [fuel] do not reach a free path. *)
Fixpoint free_path (target_dir : Path) (final_name : text) (fuel counter : nat)
    (final_path : Path) : option Path :=
  if exists_ final_path then
    match fuel with
    | O => None
    | S fuel =>
        free_path target_dir final_name fuel (S counter)
          (joinpath target_dir (numbered final_name counter))
    end
  else Some final_path.

(** The local [relative_dir]: [Path(username) / year_month / safe_type]. *)
Definition relative_dir_of (year month file_type_dir username : text) : Path :=
  let safe_type := match file_type_dir with [] => T "Others" | _ => file_type_dir end in
  let year_month := year ++ T "." ++ month in
  joinpath (joinpath (parse username) year_month) safe_type.

(** The local [target_dir]: [Path(storage_root.mount_path) / relative_dir]. *)
Definition target_dir_of (year month file_type_dir username mount_path : text) : Path :=
  let relative_dir := relative_dir_of year month file_type_dir username in
  match root relative_dir with
  | [] => {| root := root (parse mount_path);
             parts := parts (parse mount_path) ++ parts relative_dir |}
  | _ => relative_dir
  end.

(** [CoreArchiverPlugin._generate_target_path]: the final path, the
    relative path and the id of the storage root; [mkdir_error] is the
    exception of [target_dir.mkdir], if it raises. *)
Definition _generate_target_path (fuel : nat) (mkdir_error : option exn)
    (suggested_name year month file_type_dir username mount_path : text)
    (storage_root_id : Z) : option (result (Path * text * Z)) :=
  let relative_dir := relative_dir_of year month file_type_dir username in
  let target_dir := target_dir_of year month file_type_dir username mount_path in
  match mkdir_error with
  | Some e => Some (Raised e)
  | None =>
      let final_name := _normalize_filename today suggested_name in
      match free_path target_dir final_name fuel 1 (joinpath target_dir final_name) with
      | None => None
      | Some final_path =>
          let relative_path := as_posix (joinpath relative_dir (name final_path)) in
          Some (Returned (final_path, relative_path, storage_root_id))
      end
  end.

End TargetPath.

End Naming.

(** * The plugin manager ([src/core/plugins.py]) *)

Module Plugins.
Import Events.

Section Manager.
Context {World : Type}.

(** A plugin instance: its [name], and what its [register] does to the
    subscriber table of the bus before it returns or raises. *)
Record plugin : Type := {
  plugin_name : string;
  register :
    gmap string (list (handler World))
    -> gmap string (list (handler World)) * result unit
}.

(** The state of [PluginManager]: the bus it was made for and the
    dictionary [plugins]. *)
Record manager : Type := {
  bus : gmap string (list (handler World));
  plugins : gmap string plugin
}.

(** One turn of the loop of [_register_plugin_from_module], for a plugin
    class defined in the module: [cls] is the instance the class gives, or
    the exception that instantiating it (or reading its name) raises. *)
Definition register_class (m : manager) (cls : result plugin) : manager :=
  match cls with
  | Raised _ => m
  | Returned plugin_instance =>
      let plugin_name := plugin_name plugin_instance in
      if bool_decide (plugin_name ∈ dom (plugins m)) then m
      else
        match register plugin_instance (bus m) with
        | (subscribers, Returned _) =>
            {| bus := subscribers;
               plugins := <[plugin_name := plugin_instance]> (plugins m) |}
        | (subscribers, Raised _) =>
            {| bus := subscribers; plugins := plugins m |}
        end
  end.

(** [PluginManager._register_plugin_from_module]; [classes] are the plugin
    classes defined in the module, in the order of [dir(module)]. *)
Definition _register_plugin_from_module (classes : list (result plugin))
    (m : manager) : manager :=
  foldl register_class m classes.

(** [PluginManager.load_plugins].  [package] is what importing the plugin
    package gives: [Returned None] when the directory is missing or the
    import fails with an [ImportError], the modules of the package
    otherwise, each with the classes it defines or the exception its import
    raises. *)
Definition load_plugins
    (package : result (option (list (result (list (result plugin))))))
    (m : manager) : manager * result unit :=
  match package with
  | Raised e => (m, Raised e)
  | Returned None => (m, Returned tt)
  | Returned (Some modules) =>
      (foldl (fun m module =>
                match module with
                | Returned classes => _register_plugin_from_module classes m
                | Raised _ => m
                end) m modules,
       Returned tt)
  end.

(** The plugin part of the start-up ([lifespan] in [src/main.py]): the
    subscribers are cleared, then the plugins are loaded; an exception is
    logged. *)
Definition init_plugins
    (package : result (option (list (result (list (result plugin))))))
    (m : manager) : manager :=
  (load_plugins package
     {| bus := clear_subscribers (bus m); plugins := plugins m |}).1.

(** A plugin whose [register] subscribes one handler to one event, as
    those of [src/plugins] do. *)
Definition subscriber_plugin (name event_name : string) (h : handler World)
    : plugin :=
  {| plugin_name := name;
     register := fun subscribers => (subscribe event_name h subscribers, Returned tt) |}.

(** A plugin whose [register] does nothing ([AudioIOPlugin]). *)
Definition idle_plugin (name : string) : plugin :=
  {| plugin_name := name;
     register := fun subscribers => (subscribers, Returned tt) |}.

(** The plugin classes of one package, module after module, that can be
    instantiated. *)
Definition instances (modules : list (result (list (result plugin))))
    : list plugin :=
  modules ≫= fun module =>
    match module with
    | Returned classes =>
        classes ≫= fun cls =>
          match cls with Returned p => [p] | Raised _ => [] end
    | Raised _ => []
    end.

End Manager.
Arguments plugin : clear implicits.
Arguments manager : clear implicits.

(** The modules of [src/plugins] in the order in which they are found:
    [audio_io_plugin], [core_archiver], [core_vectorizer], [example_plugin]
    and [gardener_plugin], which defines no plugin class.  The handlers are
    given by their bodies. *)
Definition repository_package {World : Type}
    (archive vectorize example : Event -> World -> World * result unit)
    : list (result (list (result (plugin World)))) :=
  [Returned [Returned (idle_plugin "AudioIOPlugin")];
   Returned [Returned (subscriber_plugin "CoreArchiverPlugin" FILE_UPLOADED
                         {| __name__ := "handle_file_uploaded"; call := archive |})];
   Returned [Returned (subscriber_plugin "CoreVectorizerPlugin" ARCHIVE_COMPLETED
                         {| __name__ := "handle_archive_completed"; call := vectorize |})];
   Returned [Returned (subscriber_plugin "ExamplePlugin" FILE_UPLOADED
                         {| __name__ := "handle_file_uploaded"; call := example |})];
   Returned []].

End Plugins.

(** * The embedding service ([src/services/ai_service.py]) *)

Module AIService.

(** The loop of [embed_text] over the active embedding models; a model is
    given by what building its provider and calling [embed_text] on it
    gives for a text.  [last_error] is the message of the last failure. *)
Fixpoint try_models (embedding_models : list (text -> result (list Q)))
    (input : text) (last_error : option string) : result (list Q) :=
  match embedding_models with
  | [] =>
      Raised (Exception ("所有记忆模型均失败。Last Error: "
                         +:+ default "None" last_error))
  | model :: embedding_models =>
      match model input with
      | Returned vector => Returned vector
      | Raised (Exception msg) => try_models embedding_models input (Some msg)
      end
  end.

(** [AIService.embed_text], for the list of the active embedding models. *)
Definition embed_text (embedding_models : list (text -> result (list Q)))
    (input : text) : result (list Q) :=
  match embedding_models with
  | [] => Raised (Exception "未配置记忆模型，请在配置页面添加 Embedding 模型")
  | _ => try_models embedding_models input None
  end.

End AIService.

(** * Document vectors ([RetrievalAgent.embed_document],
      [RetrievalAgent.delete_document_vector] and the batch job of
      [src/api/data_endpoints.py]) *)

Module DocumentVectors.

(** White space that [int] skips around a number. *)
Definition int_space (c : ascii) : bool :=
  let n := nat_of_ascii c in
  (Nat.leb 9 n && Nat.leb n 13) || Nat.eqb n 32 || Nat.eqb n 133 || Nat.eqb n 160.

Fixpoint lskip (s : text) : text :=
  match s with
  | [] => []
  | c :: s' => if int_space c then lskip s' else s
  end.

(** The digits of a decimal literal: single underscores are allowed
    between digits; [after_digit] tells that the last character was a
    digit. *)
Fixpoint int_digits (acc : Z) (after_digit : bool) (s : text) : option Z :=
  match s with
  | [] => if after_digit then Some acc else None
  | c :: s' =>
      match Dates.digit c with
      | Some d => int_digits (acc * 10 + d) true s'
      | None =>
          if decide (c = "_"%char) then
            if after_digit then int_digits acc false s' else None
          else None
      end
  end.

(** A decimal literal with its sign. *)
Definition int_literal (s : text) : option Z :=
  match s with
  | [] => None
  | c :: digits =>
      if decide (c = "-"%char) then Z.opp <$> int_digits 0 false digits
      else if decide (c = "+"%char) then int_digits 0 false digits
      else int_digits 0 false s
  end.

(** [int(s)] of a text: [None] stands for the [ValueError]. *)
Definition python_int (s : text) : option Z :=
  int_literal (reverse (lskip (reverse (lskip s)))).

(** [str(n)] of an integer. *)
Definition python_str (n : Z) : text := T (pretty n).

(** The record with its three vector columns set. *)
Definition with_vector (record : ArchiveRecord.t) (embedding : option (list Q))
    (is_vectorized : Z) (vectorized_at : option Z) : ArchiveRecord.t :=
  {| ArchiveRecord.id := ArchiveRecord.id record;
     ArchiveRecord.user_id := ArchiveRecord.user_id record;
     ArchiveRecord.filename := ArchiveRecord.filename record;
     ArchiveRecord.original_filename := ArchiveRecord.original_filename record;
     ArchiveRecord.file_type := ArchiveRecord.file_type record;
     ArchiveRecord.category := ArchiveRecord.category record;
     ArchiveRecord.summary := ArchiveRecord.summary record;
     ArchiveRecord.full_text := ArchiveRecord.full_text record;
     ArchiveRecord.meta_data := ArchiveRecord.meta_data record;
     ArchiveRecord.relative_path := ArchiveRecord.relative_path record;
     ArchiveRecord.embedding := embedding;
     ArchiveRecord.is_vectorized := is_vectorized;
     ArchiveRecord.vectorized_at := vectorized_at;
     ArchiveRecord.processing_status := ArchiveRecord.processing_status record;
     ArchiveRecord.processing_error := ArchiveRecord.processing_error record;
     ArchiveRecord.processed_at := ArchiveRecord.processed_at record |}.

(** The row with the key [id] written back. *)
Definition store (id : Z) (record : ArchiveRecord.t) (db : database) : database :=
  {| archives := <[id := record]> (archives db);
     vector_nodes := vector_nodes db;
     next_node_id := next_node_id db |}.

(** The column [id] is the primary key of the Document table. *)
Definition keyed (db : database) : Prop :=
  ∀ id record, archives db !! id = Some record -> ArchiveRecord.id record = id.

Section Agent.
(** [AIService().embed_text]. *)
Variable embed_text : text -> result (list Q).

(** [RetrievalAgent.embed_document]; [session] tells that the agent has a
    database session and [now] is what [datetime.now()] answers.  The
    argument [metadata] is not used by the method.  Any exception ends in a
    rollback and [False]; the commit is taken to succeed. *)
Definition embed_document (now : Z) (session : bool) (doc_id : text)
    (input : text) (user_id : Z) (db : database) : database * bool :=
  if negb session then (db, false)
  else
    match embed_text input with
    | Raised _ => (db, false)
    | Returned vector =>
        if negb (truthy vector) then (db, false)
        else
          match python_int doc_id with
          | None => (db, false)
          | Some id =>
              match archives db !! id with
              | Some record =>
                  if decide (ArchiveRecord.user_id record = user_id) then
                    (store id (with_vector record (Some vector) 1 (Some now)) db, true)
                  else (db, false)
              | None => (db, false)
              end
          end
    end.

(** [RetrievalAgent.delete_document_vector]; the commit is taken to
    succeed. *)
Definition delete_document_vector (session : bool) (doc_id : text)
    (db : database) : database * bool :=
  if negb session then (db, false)
  else
    match python_int doc_id with
    | None => (db, false)
    | Some id =>
        match archives db !! id with
        | Some record => (store id (with_vector record None 0 None) db, true)
        | None => (db, false)
        end
    end.

(** The text the batch job embeds for a record. *)
Definition vector_text (record : ArchiveRecord.t) : text :=
  or_text (ArchiveRecord.full_text record)
    (or_text (ArchiveRecord.summary record) (ArchiveRecord.filename record)).

(** The state of the loop of [_process_batch_vectorize]: the database, the
    two counters and the number of times the clock has been read. *)
Record batch_state : Type := {
  db : database;
  success_count : nat;
  failed_count : nat;
  clock_reads : nat
}.

(** [datetime.now()]: the answers of the clock, in the order of the calls. *)
Variable clock : nat -> Z.

(** One turn of the loop of [_process_batch_vectorize].  The database
    calls of the job itself are taken to succeed, and the entry of the task
    in [_batch_vectorize_tasks] to be there. *)
Definition vectorize_one (user_id : Z) (state : batch_state) (record_id : Z)
    : batch_state :=
  let failed :=
    {| db := db state; success_count := success_count state;
       failed_count := S (failed_count state); clock_reads := clock_reads state |} in
  match archives (db state) !! record_id with
  | None => failed
  | Some record =>
      if negb (bool_decide (ArchiveRecord.user_id record = user_id)) then failed
      else if bool_decide (ArchiveRecord.is_vectorized record = 1%Z) then
        {| db := db state; success_count := S (success_count state);
           failed_count := failed_count state; clock_reads := clock_reads state |}
      else
        match vector_text record with
        | [] => failed
        | _ =>
            match embed_document (clock (clock_reads state)) true
                    (python_str (ArchiveRecord.id record)) (vector_text record)
                    (ArchiveRecord.user_id record) (db state) with
            | (db1, true) =>
                let db2 :=
                  match archives db1 !! record_id with
                  | Some record =>
                      store record_id
                        (with_vector record (ArchiveRecord.embedding record) 1
                           (Some (clock (S (clock_reads state))))) db1
                  | None => db1
                  end in
                {| db := db2; success_count := S (success_count state);
                   failed_count := failed_count state;
                   clock_reads := S (S (clock_reads state)) |}
            | (_, false) => failed
            end
        end
  end.

(** [_process_batch_vectorize]: the state when the loop ends. *)
Definition _process_batch_vectorize (record_ids : list Z) (user_id : Z)
    (start : database) : batch_state :=
  foldl (vectorize_one user_id)
    {| db := start; success_count := 0; failed_count := 0; clock_reads := 0 |}
    record_ids.

(** The records the batch job counts as successes: those of the user that
    are marked as vectorized, or whose text is embedded into a vector that
    is not empty. *)
Definition counts_as_success (user_id : Z) (start : database) (record_id : Z) : bool :=
  match archives start !! record_id with
  | None => false
  | Some record =>
      bool_decide (ArchiveRecord.user_id record = user_id)
      && (bool_decide (ArchiveRecord.is_vectorized record = 1%Z)
          || match vector_text record with
             | [] => false
             | _ =>
                 match embed_text (vector_text record) with
                 | Returned vector => truthy vector
                 | Raised _ => false
                 end
             end)
  end.

(** What the loop keeps for the row with the key [id], once the ids
    [processed] have had their turn: the row is either as it was at the
    start, or it is a row the job counts as a success, with the vector of
    its text and the mark set. *)
Definition row_invariant (user_id : Z) (start : database) (processed : list Z)
    (id : Z) (row : option ArchiveRecord.t) : Prop :=
  match archives start !! id, row with
  | Some record, Some record' =>
      (record' = record
       ∧ (id ∈ processed -> counts_as_success user_id start id = true ->
          ArchiveRecord.is_vectorized record = 1%Z))
      ∨ (id ∈ processed
         ∧ counts_as_success user_id start id = true
         ∧ ArchiveRecord.is_vectorized record ≠ 1%Z
         ∧ ∃ vector at_,
             embed_text (vector_text record) = Returned vector
             ∧ record' = with_vector record (Some vector) 1 (Some at_))
  | None, None => True
  | _, _ => False
  end.

Definition batch_invariant (user_id : Z) (start : database) (processed : list Z)
    (current : database) : Prop :=
  vector_nodes current = vector_nodes start
  ∧ next_node_id current = next_node_id start
  ∧ ∀ id, row_invariant user_id start processed id (archives current !! id).

End Agent.

End DocumentVectors.

(** * From an upload to the index ([src/services/processor.py] and the
      handlers of the two core plugins) *)

Module Pipeline.
Import Events.

(** What the handlers share: the file system and the database. *)
Record system : Type := {
  files : gset (list string);
  db : database
}.

(** The part of the system the archiver works on, and the system with
    that part as the archiver leaves it. *)
Definition archiver_world (s : system) : Archiver.world :=
  {| Archiver.files := files s;
     Archiver.rows := archives (db s);
     Archiver.published := [] |}.

Definition with_archiver_world (s : system) (w : Archiver.world) : system :=
  {| files := Archiver.files w;
     db := {| archives := Archiver.rows w;
              vector_nodes := vector_nodes (db s);
              next_node_id := next_node_id (db s) |} |}.

(** The record with its two status columns set. *)
Definition with_status (record : ArchiveRecord.t) (status : ProcessingStatus)
    (error : option string) : ArchiveRecord.t :=
  {| ArchiveRecord.id := ArchiveRecord.id record;
     ArchiveRecord.user_id := ArchiveRecord.user_id record;
     ArchiveRecord.filename := ArchiveRecord.filename record;
     ArchiveRecord.original_filename := ArchiveRecord.original_filename record;
     ArchiveRecord.file_type := ArchiveRecord.file_type record;
     ArchiveRecord.category := ArchiveRecord.category record;
     ArchiveRecord.summary := ArchiveRecord.summary record;
     ArchiveRecord.full_text := ArchiveRecord.full_text record;
     ArchiveRecord.meta_data := ArchiveRecord.meta_data record;
     ArchiveRecord.relative_path := ArchiveRecord.relative_path record;
     ArchiveRecord.embedding := ArchiveRecord.embedding record;
     ArchiveRecord.is_vectorized := ArchiveRecord.is_vectorized record;
     ArchiveRecord.vectorized_at := ArchiveRecord.vectorized_at record;
     ArchiveRecord.processing_status := status;
     ArchiveRecord.processing_error := error;
     ArchiveRecord.processed_at := ArchiveRecord.processed_at record |}.

(** The row with the key [id] written and committed. *)
Definition update_record (id : Z) (record : ArchiveRecord.t) (s : system) : system :=
  {| files := files s; db := DocumentVectors.store id record (db s) |}.

(** [Path(s).parts] of a text, and [Path] of the parts: the name is the
    last part, the suffix the lower-cased suffix of the name. *)
Definition path_parts (s : string) : list string :=
  let p := Naming.parse (T s) in
  string_of_list_ascii
  <$> match Naming.root p with
      | [] => Naming.parts p
      | r => r :: Naming.parts p
      end.

Definition path_of (components : list string) : Archiver.FilePath :=
  let name := List.last components ""%string in
  {| Archiver.parent := removelast components;
     Archiver.name := name;
     Archiver.suffix := string_of_list_ascii (lower (Naming.suffix_of (T name))) |}.

Section Handlers.
(** [AIService.embed_text] and [datetime.now()] of the indexing pass. *)
Variable embed_text : text -> result (list Q).
Variable now : Z.

(** [CoreVectorizerPlugin.handle_archive_completed].  A payload without an
    integer under ["archive_id"] finds no record, or fails in the query;
    both leave the database as it is. *)
Definition handle_archive_completed (event : Event) (s : system)
    : system * result unit :=
  match payload event !! "archive_id"%string with
  | Some (VInt archive_id) =>
      ({| files := files s;
          db := (Vectorizer._process_vectorization embed_text now archive_id (db s)).1 |},
       Returned tt)
  | _ => (s, Returned tt)
  end.

Definition vectorizer_handler : handler system :=
  {| __name__ := "handle_archive_completed"; call := handle_archive_completed |}.

(** What the world answers during the archiving run, and the subscriber
    table of [self.bus] as the archiver finds it when it publishes. *)
Variable env : Archiver.environment.
Variable subscribers : gmap string (list (handler system)).

(** The events the archiver has handed to the bus, delivered. *)
Definition deliver (events : list Event) (s : system) : system :=
  foldl (fun s event => world (publish subscribers event {| world := s; actions := [] |}).1)
    s events.

(** [CoreArchiverPlugin._process_archive_flow]: an exception of
    [_process_and_persist] is logged and ends the flow. *)
Definition _process_archive_flow (file_path : Archiver.FilePath)
    (record_id : option Z) (s : system) : system :=
  match record_id with
  | None => s
  | Some id =>
      match archives (db s) !! id with
      | None => s
      | Some record =>
          let record :=
            with_status record PROCESSING (ArchiveRecord.processing_error record) in
          let s := update_record id record s in
          match Archiver._process_and_persist env file_path (Some record)
                  (archiver_world s) with
          | (w, Returned _) => deliver (Archiver.published w) (with_archiver_world s w)
          | (w, Raised _) => with_archiver_world s w
          end
      end
  end.

(** [CoreArchiverPlugin.handle_file_uploaded]: [Path] of anything but a
    text is a [TypeError], raised before the flow starts. *)
Definition handle_file_uploaded (event : Event) (s : system)
    : system * result unit :=
  let record_id :=
    match payload event !! "record_id"%string with
    | Some (VInt id) => Some id
    | _ => None
    end in
  match payload event !! "file_path"%string with
  | Some (VPath components) =>
      (_process_archive_flow (path_of components) record_id s, Returned tt)
  | Some (VStr file_path_str) =>
      (_process_archive_flow (path_of (path_parts file_path_str)) record_id s,
       Returned tt)
  | Some (VInt _) =>
      (s, Raised (Exception "expected str, bytes or os.PathLike object, not int"))
  | _ =>
      (s, Raised (Exception "expected str, bytes or os.PathLike object, not NoneType"))
  end.

Definition archiver_handler : handler system :=
  {| __name__ := "handle_file_uploaded"; call := handle_file_uploaded |}.

End Handlers.

(** The event [process_file_background] publishes. *)
Definition upload_event (file_path : list string) (record : ArchiveRecord.t)
    (model_id : option string) (timestamp : Z) : Event :=
  let original_filename :=
    match ArchiveRecord.original_filename record with
    | [] => List.last file_path ""%string
    | name => string_of_list_ascii name
    end in
  {| name := FILE_UPLOADED;
     payload :=
       {[ "file_path"%string := VPath file_path;
          "record_id"%string := VInt (ArchiveRecord.id record);
          "user_id"%string := VInt (ArchiveRecord.user_id record);
          "original_filename"%string := VStr original_filename;
          "model_id"%string :=
            match model_id with Some m => VStr m | None => VNone end ]};
     timestamp := timestamp |}.

(** [FileProcessor.process_file_background]: the system when it returns,
    and what it returns.  [bus] is the subscriber table of [event_bus] and
    [timestamp] the time the event is made at.  The database calls of the
    function itself are taken to succeed as long as the row is there. *)
Definition process_file_background (bus : gmap string (list (handler system)))
    (file_path : list string) (record_id : Z) (model_id : option string)
    (timestamp : Z) (s : system) : system * bool :=
  match archives (db s) !! record_id with
  | None => (s, false)
  | Some record =>
      let record := with_status record PROCESSING None in
      let s := update_record record_id record s in
      let event := upload_event file_path record model_id timestamp in
      match publish bus event {| world := s; actions := [] |} with
      | (st, Returned _) =>
          match archives (db (world st)) !! record_id with
          | Some record =>
              (world st,
               match ArchiveRecord.processing_status record with
               | FAILED => false
               | _ => true
               end)
          | None => (world st, false)
          end
      | (st, Raised e) =>
          match archives (db (world st)) !! record_id with
          | Some record =>
              (update_record record_id
                 (with_status record FAILED
                    (Some ("EventBus Error: " +:+ Archiver.msg e))) (world st),
               false)
          | None => (world st, false)
          end
      end
  end.

End Pipeline.

(** * The default storage root
      ([CoreArchiverPlugin._get_default_storage_root]) *)

Module StorageRoots.

(** Modelled from the code that uses it: a row of the StorageRoot table.
    [src/models/storage.py] is not among the sources; the columns are the
    ones the method reads and writes.  A flag that is [NULL] counts as
    false, as it does in the filters of the method. *)
Record row : Type := {
  id : Z;
  name : text;
  mount_path : text;
  is_active : bool;
  is_default : bool
}.

(** The row made active and default. *)
Definition activated (r : row) : row :=
  {| id := id r; name := name r; mount_path := mount_path r;
     is_active := true; is_default := true |}.

(** [_get_default_storage_root]: the table after the call and the row
    returned.  [table] holds the rows in the order in which the database
    returns them, so that [first()] is the first row of the list that
    passes the filter; [fallback_path] is
    [str(settings.FILE_STORAGE_BASE_PATH)] and [new_id] the key the
    database gives to an added row.  The commits are taken to succeed. *)
Definition _get_default_storage_root (fallback_path : text) (new_id : Z)
    (table : list row) : list row * row :=
  match list_find (fun r => is_default r = true ∧ is_active r = true) table with
  | Some (_, default_root) => (table, default_root)
  | None =>
      match list_find (fun r => is_active r = true) table with
      | Some (_, any_active) => (table, any_active)
      | None =>
          match list_find (fun r => mount_path r = fallback_path) table with
          | Some (i, existing) =>
              (<[i := activated existing]> table, activated existing)
          | None =>
              let new_default :=
                {| id := new_id; name := T "Default_Local";
                   mount_path := fallback_path;
                   is_active := true; is_default := true |} in
              (table ++ [new_default], new_default)
          end
      end
  end.

End StorageRoots.

(** * Public URLs of files ([src/services/file_service.py]) *)

Module FileService.
Import Naming.

Definition is_slash (c : ascii) : bool := bool_decide (c = "/"%char).

(** [s.rstrip("/")] *)
Definition rstrip_slash (s : text) : text :=
  reverse (lstrip_chars is_slash (reverse s)).

(** A character [quote] always keeps: an ASCII letter, a digit, or one
    of [_], [.], [-] and [~]. *)
Definition is_unreserved (c : ascii) : bool :=
  Retrieval.is_ascii_letter c || is_digit c
  || bool_decide (c ∈ ["_"; "."; "-"; "~"]%char).

Definition hex_digit (n : nat) : ascii :=
  nth n (T "0123456789ABCDEF") "0"%char.

(** A byte as [quote] writes it: [%XX]. *)
Definition percent (byte : nat) : text :=
  ["%"%char; hex_digit (byte / 16); hex_digit (byte mod 16)].

(** [urllib.parse.quote(s)], with its default [safe="/"]. *)
Definition quote (s : text) : text :=
  s ≫= fun c => if is_unreserved c || is_slash c then [c] else utf8 c ≫= percent.

(** [p.parent] *)
Definition parent (p : Path) : Path :=
  {| root := root p; parts := removelast (parts p) |}.

(** A part of a path as [pathlib] keeps it: not empty, without a slash,
    and not the single dot. *)
Definition plain_part (p : text) : Prop :=
  p ≠ [] ∧ ("/"%char ∉ p) ∧ p ≠ T ".".

(** [get_file_public_url]; [FILE_SERVICE_BASE_URL] is the setting of that
    name, and [relative_path] is [None] for a column that holds no text. *)
Definition get_file_public_url (FILE_SERVICE_BASE_URL : text)
    (relative_path : option text) : text :=
  let base_url := rstrip_slash FILE_SERVICE_BASE_URL in
  match relative_path with
  | None | Some [] => base_url ++ T "/files"
  | Some relative_path =>
      let rel := lstrip_chars is_slash (as_posix (parse relative_path)) in
      let rel_path := parse rel in
      let encoded_name := quote (name rel_path) in
      let encoded_path :=
        if decide (as_posix (parent rel_path) = T ".") then encoded_name
        else as_posix (parent rel_path) ++ T "/" ++ encoded_name in
      base_url ++ T "/files/" ++ encoded_path
  end.

End FileService.

(** * Properties *)

(** ** The event bus *)

Section EventsFacts.
Import Events.
Context {World : Type}.
Implicit Types (h : handler World) (st : bus_state World).
Implicit Types (subs : gmap string (list (handler World))).

Lemma invoked_app (a b : list (bus_action World)) :
  invoked (a ++ b) = invoked a ++ invoked b.
Proof.
  induction a as [|[h|? ? ?] a IH]; simpl; [done| |done].
  by rewrite IH.
Qed.

Lemma _execute_handler_returns h event st :
  (_execute_handler h event st).2 = Returned tt
  ∧ invoked (actions (_execute_handler h event st).1) = invoked (actions st) ++ [h]
  ∧ world (_execute_handler h event st).1 = (call h event (world st)).1.
Proof.
  unfold _execute_handler; simpl.
  destruct (call h event (world st)) as [w [[]|[msg]]]; simpl;
    rewrite ?invoked_app; simpl; rewrite ?app_nil_r; done.
Qed.

Lemma gather_handlers (hs : list (handler World)) event st :
  ∃ st' rs,
    gather ((fun h => _execute_handler h event) <$> hs) st = (st', Returned rs)
    ∧ invoked (actions st') = invoked (actions st) ++ hs
    ∧ world st' = foldl (fun w h => (call h event w).1) (world st) hs
    ∧ length rs = length hs.
Proof.
  revert st; induction hs as [|h hs IH]; intros st.
  - exists st, []. simpl. by rewrite app_nil_r.
  - rewrite fmap_cons. cbn [gather].
    destruct (_execute_handler_returns h event st) as (Hr & Hi & Hw).
    destruct (_execute_handler h event st) as [st1 r]; cbn [fst snd] in *.
    destruct (IH st1) as (st' & rs & -> & Hinv & Hworld & Hlen).
    exists st', (r :: rs). rewrite Hinv, Hi, <- app_assoc. simpl.
    by rewrite Hworld, Hw, Hlen.
Qed.

(** C8. Whatever the handlers do, [publish] returns normally, and the
    handlers it invoked are exactly the handlers registered for the event's
    name, each once and in registration order: a handler that raises is
    caught and neither stops the publisher nor any handler after it.  What
    the handlers did, whether they returned or raised, is all done when
    [publish] returns. *)
Theorem publish_isolates_handlers subs event st :
  let handlers := default [] (subs !! name event) in
  (publish subs event st).2 = Returned tt
  ∧ invoked (actions (publish subs event st).1) = invoked (actions st) ++ handlers
  ∧ world (publish subs event st).1
    = foldl (fun w h => (call h event w).1) (world st) handlers.
Proof.
  unfold publish. destruct (subs !! name event) as [hs|]; simpl.
  - destruct (gather_handlers hs event st) as (st' & rs & -> & Hinv & Hworld & _).
    done.
  - by rewrite app_nil_r.
Qed.

Lemma subscribe_same_name subs e h h' l :
  subs !! e = Some l -> h' ∈ l -> __name__ h' = __name__ h ->
  subscribe e h subs = subs.
Proof.
  intros Hl Hin Hname. unfold subscribe. rewrite Hl. simpl. rewrite Hl. simpl.
  rewrite bool_decide_eq_true_2; [done|].
  rewrite <- Hname. by apply list_elem_of_fmap_2.
Qed.

Lemma subscribe_lookup subs e h e' l :
  subscribe e h subs !! e' = Some l ->
  (e' = e ∧ l = default [] (subs !! e) ∧ __name__ h ∈ __name__ <$> l)
  ∨ (e' = e ∧ l = default [] (subs !! e) ++ [h]
     ∧ __name__ h ∉ __name__ <$> default [] (subs !! e))
  ∨ (e' ≠ e ∧ subs !! e' = Some l).
Proof.
  unfold subscribe.
  destruct (decide (e' = e)) as [->|Hne].
  - destruct (subs !! e) as [l0|] eqn:Hl0; simpl.
    + rewrite Hl0; simpl. case_bool_decide as Hin.
      * rewrite Hl0. intros [= <-]. by left.
      * rewrite lookup_insert_eq. intros [= <-]. right; left. done.
    + rewrite lookup_insert_eq; simpl.
      rewrite lookup_insert_eq. intros [= <-]. right; left.
      split; [done|]. split; [done|]. apply not_elem_of_nil.
  - intros H. right; right. split; [done|].
    destruct (subs !! e) as [l0|] eqn:Hl0; simpl in H.
    + rewrite Hl0 in H; simpl in H. case_bool_decide.
      * done.
      * by rewrite lookup_insert_ne in H.
    + rewrite lookup_insert_eq in H; simpl in H.
      by rewrite !lookup_insert_ne in H.
Qed.

Lemma bus_reachable_NoDup subs :
  bus_reachable subs ->
  ∀ e l, subs !! e = Some l -> NoDup (__name__ <$> l).
Proof.
  induction 1 as [|subs e0 h Hreach IH|subs Hreach IH]; intros e l Hl.
  - by rewrite lookup_empty in Hl.
  - apply subscribe_lookup in Hl as [(-> & -> & _)|[(-> & -> & Hnin)|(Hne & Hl)]].
    + destruct (subs !! e0) eqn:E; simpl; [by eapply IH|constructor].
    + rewrite fmap_app. apply NoDup_app. split; [|split].
      * destruct (subs !! e0) eqn:E; simpl; [by eapply IH|constructor].
      * intros x Hx Hx'. apply list_elem_of_singleton in Hx'. by subst.
      * apply NoDup_singleton.
    + by eapply IH.
  - unfold clear_subscribers in Hl. by rewrite lookup_empty in Hl.
Qed.

(** C10. On any subscriber table the bus can hold, subscribing a handler
    whose [__name__] is that of a handler already registered for the event
    leaves the table unchanged, whatever the body of the new handler is;
    and after any [subscribe] the handlers registered for an event have
    pairwise different names. *)
Theorem subscribe_dedup_by_name subs event_name h :
  bus_reachable subs ->
  (∀ h' l, subs !! event_name = Some l -> h' ∈ l ->
           __name__ h' = __name__ h -> subscribe event_name h subs = subs)
  ∧ (∀ e l, subscribe event_name h subs !! e = Some l ->
            NoDup (__name__ <$> l)).
Proof.
  intros Hreach. split.
  - intros h' l. apply subscribe_same_name.
  - apply bus_reachable_NoDup. by constructor.
Qed.

(** X7. Subscribing a handler whose [__name__] is not yet registered for
    the event puts it after the handlers already registered for it, and
    changes nothing for any other event; the next [publish] of the event
    invokes it last. *)
Theorem subscribe_appends_new_handler subs event_name h :
  __name__ h ∉ __name__ <$> default [] (subs !! event_name) ->
  subscribe event_name h subs !! event_name
  = Some (default [] (subs !! event_name) ++ [h])
  ∧ (∀ e, e ≠ event_name -> subscribe event_name h subs !! e = subs !! e)
  ∧ ∀ event st,
      name event = event_name ->
      invoked (actions (publish (subscribe event_name h subs) event st).1)
      = invoked (actions st) ++ default [] (subs !! event_name) ++ [h].
Proof.
  intros Hnew.
  assert (Hown : subscribe event_name h subs !! event_name
                 = Some (default [] (subs !! event_name) ++ [h])).
  { unfold subscribe. destruct (subs !! event_name) as [l|] eqn:Hl; simpl.
    - rewrite Hl. simpl in *. rewrite bool_decide_eq_false_2 by done.
      by rewrite lookup_insert_eq.
    - rewrite lookup_insert_eq. simpl. by rewrite lookup_insert_eq. }
  split; [done|]. split.
  - intros e He. unfold subscribe.
    destruct (subs !! event_name) as [l|] eqn:Hl; simpl.
    + rewrite Hl. simpl in *. rewrite bool_decide_eq_false_2 by done.
      by rewrite lookup_insert_ne.
    + rewrite lookup_insert_eq. simpl. by rewrite !lookup_insert_ne.
  - intros event st <-. unfold publish. rewrite Hown.
    destruct (gather_handlers (default [] (subs !! name event) ++ [h]) event st)
      as (st' & rs & -> & Hinv & _).
    done.
Qed.

End EventsFacts.

(** A table that holds a handler for each of the two events; the new
    handler goes after the one registered for its event, which raises. *)
Lemma subscribe_appends_new_handler_witness :
  Events.subscribe Events.ARCHIVE_COMPLETED Events.notify_handler
    (Events.subscribe Events.FILE_UPLOADED Events.upload_handler
       (Events.subscribe Events.ARCHIVE_COMPLETED Events.raising_handler ∅))
    !! Events.ARCHIVE_COMPLETED
  = Some [Events.raising_handler; Events.notify_handler]
  ∧ Events.subscribe Events.ARCHIVE_COMPLETED Events.notify_handler
      (Events.subscribe Events.FILE_UPLOADED Events.upload_handler
         (Events.subscribe Events.ARCHIVE_COMPLETED Events.raising_handler ∅))
      !! Events.FILE_UPLOADED
    = Some [Events.upload_handler]
  ∧ Events.invoked
      (Events.actions
         (Events.publish
            (Events.subscribe Events.ARCHIVE_COMPLETED Events.notify_handler
               (Events.subscribe Events.FILE_UPLOADED Events.upload_handler
                  (Events.subscribe Events.ARCHIVE_COMPLETED
                     Events.raising_handler ∅)))
            {| Events.name := Events.ARCHIVE_COMPLETED; Events.payload := ∅;
               Events.timestamp := 0 |}
            {| Events.world := tt; Events.actions := [] |}).1)
    = [Events.raising_handler; Events.notify_handler].
Proof.
  destruct (subscribe_appends_new_handler
              (Events.subscribe Events.FILE_UPLOADED Events.upload_handler
                 (Events.subscribe Events.ARCHIVE_COMPLETED
                    Events.raising_handler ∅))
              Events.ARCHIVE_COMPLETED Events.notify_handler)
    as (Hown & Hothers & Hpublish).
  - vm_compute. by intros [[=]|[]%elem_of_nil]%elem_of_cons.
  - split; [by rewrite Hown|]. split.
    + by rewrite Hothers.
    + by rewrite Hpublish.
Defined.

Lemma subscribe_dedup_by_name_witness :
  Events.subscribe Events.ARCHIVE_COMPLETED Events.raising_handler
    (Events.subscribe Events.ARCHIVE_COMPLETED Events.quiet_handler ∅)
  = Events.subscribe Events.ARCHIVE_COMPLETED Events.quiet_handler ∅.
Proof.
  destruct (subscribe_dedup_by_name
              (Events.subscribe Events.ARCHIVE_COMPLETED Events.quiet_handler ∅)
              Events.ARCHIVE_COMPLETED Events.raising_handler) as [Hnoop _].
  - apply Events.reach_subscribe, Events.reach_new.
  - apply (Hnoop Events.quiet_handler [Events.quiet_handler]).
    + vm_compute. reflexivity.
    + apply list_elem_of_here.
    + reflexivity.
Defined.

(** ** The vectorizer plugin *)

Section VectorizerFacts.
Import Vectorizer.

Lemma chunk_while_unfold (text_to_embed : text) start :
  chunk_while text_to_embed start =
  if decide (start < length text_to_embed)
  then slice text_to_embed start ((start + CHUNK_SIZE) `min` length text_to_embed)
       :: chunk_while text_to_embed (start + (CHUNK_SIZE - OVERLAP))
  else [].
Proof.
  rewrite chunk_while_equation_1.
  by destruct (decide (start < length text_to_embed)).
Qed.


Lemma chunk_while_lookup (text_to_embed : text) i : ∀ start,
  chunk_while text_to_embed start !! i =
  if decide (start + i * 1800 < length text_to_embed)
  then Some (slice text_to_embed (start + i * 1800)
               ((start + i * 1800 + 2000) `min` length text_to_embed))
  else None.
Proof.
  induction i as [|i IH]; intros start; rewrite chunk_while_unfold.
  - rewrite Nat.mul_0_l, Nat.add_0_r. unfold CHUNK_SIZE.
    by destruct (decide (start < length text_to_embed)).
  - destruct (decide (start < length text_to_embed)) as [Hlt|Hge].
    + change ((?x :: ?l) !! S i) with (l !! i). rewrite IH.
      replace (start + (CHUNK_SIZE - OVERLAP) + i * 1800) with (start + S i * 1800)
        by (unfold CHUNK_SIZE, OVERLAP; lia).
      done.
    + rewrite decide_False by lia. done.
Qed.


Lemma split_chunks_long (text_to_embed : text) i :
  CHUNK_SIZE < length text_to_embed ->
  split_chunks text_to_embed !! i =
  if decide (i * 1800 < length text_to_embed)
  then Some (slice text_to_embed (i * 1800)
               ((i * 1800 + 2000) `min` length text_to_embed))
  else None.
Proof.
  intros Hlong. unfold split_chunks. rewrite decide_True by done.
  by rewrite chunk_while_lookup.
Qed.


Section EmbedChunks.
Variable embed_text : text -> result (list Q).
Variables (archive_id : Z) (source_length : nat) (is_image : bool).

Lemma embed_chunks_spec indexed : ∀ next_id nodes,
  embed_chunks embed_text archive_id source_length is_image next_id indexed
    = Returned nodes ->
  Forall (fun n =>
            VectorNode.parent_archive_id n = archive_id
            ∧ 10 ≤ length (strip (VectorNode.content n))
            ∧ (VectorNode.chunk_index n, VectorNode.content n) ∈ indexed
            ∧ (next_id ≤ VectorNode.id n)%Z) nodes
  ∧ (VectorNode.chunk_index <$> nodes) `sublist_of` indexed.*1.
Proof.
  induction indexed as [|[i chunk] indexed IH]; intros next_id nodes; simpl.
  - intros [= <-]. split; [constructor|apply sublist_nil].
  - destruct (decide (length (strip chunk) < 10)) as [Hshort|Hlong].
    { intros H. destruct (IH _ _ H) as [HF Hsub]. split.
      - eapply Forall_impl; [exact HF|]. intros n (?&?&?&?).
        repeat split; try done. by apply list_elem_of_further.
      - by apply sublist_cons. }
    destruct (embed_text chunk) as [chunk_vector|e]; [|done].
    destruct (truthy chunk_vector).
    + destruct (embed_chunks _ _ _ _ (next_id + 1)%Z indexed) as [rest|e] eqn:Hrest;
        [|done].
      intros [= <-]. destruct (IH _ _ Hrest) as [HF Hsub]. split.
      * constructor; simpl.
        -- repeat split; [lia|apply list_elem_of_here|lia].
        -- eapply Forall_impl; [exact HF|]. intros n (?&?&?&?).
           repeat split; try done; [by apply list_elem_of_further|lia].
      * simpl. by apply sublist_skip.
    + intros H. destruct (IH _ _ H) as [HF Hsub]. split.
      * eapply Forall_impl; [exact HF|]. intros n (?&?&?&?).
        repeat split; try done. by apply list_elem_of_further.
      * by apply sublist_cons.
Qed.

(** The key the database hands out does not decide which chunks are
    stored. *)
Lemma embed_chunks_next_id indexed : ∀ id1 id2 nodes,
  embed_chunks embed_text archive_id source_length is_image id1 indexed
    = Returned nodes ->
  ∃ nodes',
    embed_chunks embed_text archive_id source_length is_image id2 indexed
      = Returned nodes'
    ∧ VectorNode.chunk_index <$> nodes' = VectorNode.chunk_index <$> nodes
    ∧ VectorNode.content <$> nodes' = VectorNode.content <$> nodes.
Proof.
  induction indexed as [|[i chunk] indexed IH]; intros id1 id2 nodes; simpl.
  - intros [= <-]. by exists [].
  - destruct (decide (length (strip chunk) < 10)); [by apply IH|].
    destruct (embed_text chunk) as [chunk_vector|e]; [|done].
    destruct (truthy chunk_vector); [|by apply IH].
    destruct (embed_chunks _ _ _ _ (id1 + 1)%Z indexed) as [rest|e] eqn:Hrest;
      [|done].
    intros [= <-].
    destruct (IH _ (id2 + 1)%Z _ Hrest) as (rest' & -> & Hidx & Hcontent).
    eexists. split; [done|]. rewrite !fmap_cons. by rewrite Hidx, Hcontent.
Qed.

End EmbedChunks.



Lemma enumerate_fst {A} (l : list A) : (enumerate l).*1 = seq 0 (length l).
Proof. unfold enumerate. apply fst_zip. by rewrite length_seq. Qed.

Lemma delete_nodes_of_none archive_id (nodes : list VectorNode.t) :
  length (nodes_of archive_id nodes) = 0 ->
  delete_nodes_of archive_id nodes = nodes.
Proof.
  unfold nodes_of, delete_nodes_of.
  induction nodes as [|n nodes IH]; [done|]. rewrite !filter_cons.
  destruct (decide (VectorNode.parent_archive_id n = archive_id)) as [Heq|Hne].
  - done.
  - rewrite decide_True by done. intros H. by rewrite IH.
Qed.

Lemma nodes_of_delete_same archive_id (nodes : list VectorNode.t) :
  nodes_of archive_id (delete_nodes_of archive_id nodes) = [].
Proof.
  unfold nodes_of, delete_nodes_of.
  induction nodes as [|n nodes IH]; [done|]. rewrite filter_cons.
  destruct (decide (VectorNode.parent_archive_id n ≠ archive_id)) as [Hne|Heq];
    [|done].
  by rewrite filter_cons, decide_False.
Qed.

Lemma nodes_of_delete_other archive_id p (nodes : list VectorNode.t) :
  p ≠ archive_id ->
  nodes_of p (delete_nodes_of archive_id nodes) = nodes_of p nodes.
Proof.
  intros Hp. unfold nodes_of, delete_nodes_of.
  induction nodes as [|n nodes IH]; [done|]. rewrite !filter_cons.
  destruct (decide (VectorNode.parent_archive_id n = archive_id)) as [Heq|Hne].
  - rewrite decide_False by (intros Hn; by apply Hn).
    rewrite decide_False by congruence. done.
  - rewrite decide_True by done. rewrite filter_cons. by rewrite IH.
Qed.

Lemma nodes_of_own archive_id (nodes : list VectorNode.t) :
  Forall (fun n => VectorNode.parent_archive_id n = archive_id) nodes ->
  nodes_of archive_id nodes = nodes
  ∧ ∀ p, p ≠ archive_id -> nodes_of p nodes = [].
Proof.
  unfold nodes_of. induction 1 as [|n nodes Hn HF [IH1 IH2]]; [done|]. split.
  - rewrite filter_cons, decide_True by done. by rewrite IH1.
  - intros p Hp. rewrite filter_cons, decide_False by congruence. by apply IH2.
Qed.

Lemma text_to_embed_store_coarse now record vector :
  text_to_embed (store_coarse now record vector) = text_to_embed record
  ∧ ArchiveRecord.file_type (store_coarse now record vector)
    = ArchiveRecord.file_type record.
Proof. unfold store_coarse. by destruct (truthy vector). Qed.

(** What a committed pass read and wrote. *)
Lemma _process_vectorization_committed embed_text now archive_id db db1 k :
  _process_vectorization embed_text now archive_id db = (db1, Committed k) ->
  ∃ record vector new_nodes,
    archives db !! archive_id = Some record
    ∧ strip (text_to_embed record) ≠ []
    ∧ embed_text (take 2000 (text_to_embed record)) = Returned vector
    ∧ embed_chunks embed_text archive_id (length (text_to_embed record))
        (bool_decide (ArchiveRecord.file_type record = T "image"))
        (next_node_id db) (enumerate (split_chunks (text_to_embed record)))
      = Returned new_nodes
    ∧ k = length new_nodes
    ∧ archives db1 = <[archive_id := store_coarse now record vector]> (archives db)
    ∧ vector_nodes db1 = delete_nodes_of archive_id (vector_nodes db) ++ new_nodes
    ∧ next_node_id db1 = (next_node_id db + Z.of_nat k)%Z.
Proof.
  unfold _process_vectorization.
  destruct (archives db !! archive_id) as [record|]; [|done].
  destruct (decide (strip (text_to_embed record) = [])) as [|Htext]; [done|].
  destruct (embed_text (take 2000 (text_to_embed record))) as [vector|e] eqn:Hcoarse;
    [|done].
  destruct (text_to_embed_store_coarse now record vector) as [_ ->].
  destruct (embed_chunks _ _ _ _ _ _) as [new_nodes|e] eqn:Hchunks; [|done].
  intros [= <- <-]. exists record, vector, new_nodes. simpl.
  repeat split; try done.
  destruct (decide (0 < length (nodes_of archive_id (vector_nodes db)))) as [|Hnone];
    [done|].
  rewrite delete_nodes_of_none; [done|lia].
Qed.

(** A pass whose embedding calls all return commits. *)
Lemma _process_vectorization_commits embed_text now archive_id db record vector new_nodes :
  archives db !! archive_id = Some record ->
  strip (text_to_embed record) ≠ [] ->
  embed_text (take 2000 (text_to_embed record)) = Returned vector ->
  embed_chunks embed_text archive_id (length (text_to_embed record))
    (bool_decide (ArchiveRecord.file_type record = T "image"))
    (next_node_id db) (enumerate (split_chunks (text_to_embed record)))
  = Returned new_nodes ->
  ∃ db1,
    _process_vectorization embed_text now archive_id db
    = (db1, Committed (length new_nodes)).
Proof.
  intros Hrec Htext Hcoarse Hchunks. unfold _process_vectorization.
  rewrite Hrec. rewrite decide_False by done. rewrite Hcoarse.
  destruct (text_to_embed_store_coarse now record vector) as [_ ->].
  rewrite Hchunks. by eexists.
Qed.




Lemma embed_chunks_keys embed_text archive_id source_length is_image indexed :
  ∀ next_id nodes,
  embed_chunks embed_text archive_id source_length is_image next_id indexed
    = Returned nodes ->
  Forall (fun n => (VectorNode.id n < next_id + Z.of_nat (length nodes))%Z) nodes.
Proof.
  induction indexed as [|[i chunk] indexed IH]; intros next_id nodes; simpl.
  - intros [= <-]. constructor.
  - destruct (decide (length (strip chunk) < 10)); [by apply IH|].
    destruct (embed_text chunk) as [chunk_vector|e]; [|done].
    destruct (truthy chunk_vector); [|by apply IH].
    destruct (embed_chunks _ _ _ _ (next_id + 1)%Z indexed) as [rest|e] eqn:Hrest;
      [|done].
    intros [= <-]. constructor; [simpl; lia|].
    eapply Forall_impl; [exact (IH _ _ Hrest)|]. intros node Hnode.
    simpl in Hnode. rewrite length_cons. lia.
Qed.

(** A pass that does not commit leaves the database as it was. *)
Lemma _process_vectorization_unchanged embed_text now archive_id db :
  (∃ k, (_process_vectorization embed_text now archive_id db).2 = Committed k)
  ∨ (_process_vectorization embed_text now archive_id db).1 = db.
Proof.
  unfold _process_vectorization.
  destruct (archives db !! archive_id) as [record|]; [|by right].
  destruct (decide _); [by right|].
  destruct (embed_text _) as [vector|e]; [|by right].
  destruct (embed_chunks _ _ _ _ _ _) as [new_nodes|e]; [|by right].
  left. by eexists.
Qed.

(** What a committed pass leaves in the chunk table. *)
Lemma committed_pass embed_text now archive_id db db1 k :
  _process_vectorization embed_text now archive_id db = (db1, Committed k) ->
  length (nodes_of archive_id (vector_nodes db1)) = k
  ∧ Forall (fun n => (next_node_id db ≤ VectorNode.id n < next_node_id db1)%Z)
      (nodes_of archive_id (vector_nodes db1))
  ∧ (∀ n, n ∈ vector_nodes db1 -> VectorNode.parent_archive_id n = archive_id ->
          n ∈ nodes_of archive_id (vector_nodes db1))
  ∧ NoDup (VectorNode.chunk_index <$> nodes_of archive_id (vector_nodes db1))
  ∧ (∀ p, p ≠ archive_id ->
          nodes_of p (vector_nodes db1) = nodes_of p (vector_nodes db))
  ∧ (next_node_id db ≤ next_node_id db1)%Z
  ∧ vector_nodes db1
    = delete_nodes_of archive_id (vector_nodes db)
      ++ nodes_of archive_id (vector_nodes db1).
Proof.
  intros Hpass.
  apply _process_vectorization_committed in Hpass
    as (record & vector & new_nodes & Hrec & Htext & Hcoarse & Hchunks
        & -> & Harch & Hnodes & Hnext).
  destruct (embed_chunks_spec _ _ _ _ _ _ _ Hchunks) as [HF Hsub].
  pose proof (embed_chunks_keys _ _ _ _ _ _ _ Hchunks) as Hkeys.
  assert (Hown : Forall (fun n => VectorNode.parent_archive_id n = archive_id) new_nodes).
  { eapply Forall_impl; [exact HF|]. by intros n (?&_). }
  destruct (nodes_of_own archive_id new_nodes Hown) as [Hmine Hothers].
  assert (Hafter : nodes_of archive_id (vector_nodes db1) = new_nodes).
  { rewrite Hnodes. unfold nodes_of. rewrite filter_app.
    fold (nodes_of archive_id (delete_nodes_of archive_id (vector_nodes db))).
    fold (nodes_of archive_id new_nodes).
    by rewrite nodes_of_delete_same, Hmine. }
  rewrite Hafter. split; [done|]. split.
  { rewrite Forall_forall in HF, Hkeys. apply Forall_forall. intros n Hn.
    destruct (HF n Hn) as (_&_&_&?). specialize (Hkeys n Hn). lia. }
  split.
  { intros n Hn Hparent. rewrite <- Hafter. unfold nodes_of.
    by apply list_elem_of_filter. }
  split.
  { eapply sublist_NoDup; [|exact Hsub]. rewrite enumerate_fst. apply NoDup_seq. }
  split.
  { intros p Hp. rewrite Hnodes. unfold nodes_of. rewrite filter_app.
    fold (nodes_of p (delete_nodes_of archive_id (vector_nodes db))).
    fold (nodes_of p new_nodes).
    rewrite nodes_of_delete_other, Hothers by done. by rewrite app_nil_r. }
  split; [lia|done].
Qed.

(** On the databases the indexer meets, chunk indices are unique per
    parent and every key is one already handed out. *)
Lemma indexed_invariant db :
  indexed db -> chunk_index_unique db ∧ keys_below db.
Proof.
  induction 1 as [docs next|embed_text now archive_id db Hdb [IHu IHk]
                  |docs db Hdb [IHu IHk]].
  - split; [intros p; constructor|constructor].
  - destruct (_process_vectorization_unchanged embed_text now archive_id db)
      as [[k Hk]| ->]; [|done].
    destruct (_process_vectorization embed_text now archive_id db)
      as [db1 outcome] eqn:Hpass.
    simpl in Hk. subst outcome. simpl.
    destruct (committed_pass _ _ _ _ _ _ Hpass)
      as (_ & Hnew & _ & Hdistinct & Hrest & Hnext & Hnodes).
    split.
    + intros p. destruct (decide (p = archive_id)) as [->|Hp]; [done|].
      rewrite Hrest by done. apply IHu.
    + unfold keys_below. rewrite Hnodes. apply Forall_app. split.
      * unfold delete_nodes_of. apply Forall_forall.
        intros n [_ Hn]%list_elem_of_filter.
        unfold keys_below in IHk. rewrite Forall_forall in IHk.
        specialize (IHk n Hn). lia.
      * eapply Forall_impl; [exact Hnew|]. intros n Hn. simpl in Hn. lia.
  - done.
Qed.

(** C7.  On a database the indexer meets, a pass over a document that
    commits leaves for it exactly the chunks it has created: none of the
    chunks the document had before is left, the chunks of other documents
    are as before, and in the whole table no two chunks of one parent
    share a chunk index.  A second pass over the unchanged document, with
    the embedding capability answering as before, commits again with the
    same number of chunks, under the same indices and with the same
    contents, and leaves none of the chunks of the first pass. *)
Theorem reindexing_replaces_chunks embed_text now now' archive_id db db1 k :
  indexed db ->
  _process_vectorization embed_text now archive_id db = (db1, Committed k) ->
  length (nodes_of archive_id (vector_nodes db1)) = k
  ∧ (∀ n, n ∈ vector_nodes db -> VectorNode.parent_archive_id n = archive_id ->
          n ∉ vector_nodes db1)
  ∧ (∀ p, p ≠ archive_id ->
          nodes_of p (vector_nodes db1) = nodes_of p (vector_nodes db))
  ∧ chunk_index_unique db1
  ∧ ∃ db2,
      _process_vectorization embed_text now' archive_id db1 = (db2, Committed k)
      ∧ length (nodes_of archive_id (vector_nodes db2)) = k
      ∧ VectorNode.chunk_index <$> nodes_of archive_id (vector_nodes db2)
        = VectorNode.chunk_index <$> nodes_of archive_id (vector_nodes db1)
      ∧ VectorNode.content <$> nodes_of archive_id (vector_nodes db2)
        = VectorNode.content <$> nodes_of archive_id (vector_nodes db1)
      ∧ (∀ n, n ∈ vector_nodes db1 ->
              VectorNode.parent_archive_id n = archive_id ->
              n ∉ vector_nodes db2)
      ∧ chunk_index_unique db2.
Proof.
  intros Hdb Hpass.
  assert (Hgone : ∀ embed now0 d d1 j,
    indexed d ->
    _process_vectorization embed now0 archive_id d = (d1, Committed j) ->
    ∀ n, n ∈ vector_nodes d -> VectorNode.parent_archive_id n = archive_id ->
         n ∉ vector_nodes d1).
  { intros embed now0 d d1 j Hd Hp n Hn Hparent Hn1.
    destruct (indexed_invariant d Hd) as [_ Hkeys].
    destruct (committed_pass _ _ _ _ _ _ Hp) as (_ & Hnew & Hmine & _).
    unfold keys_below in Hkeys. rewrite Forall_forall in Hkeys, Hnew.
    specialize (Hkeys n Hn). specialize (Hnew n (Hmine n Hn1 Hparent)). lia. }
  assert (Hdb1 : indexed db1).
  { pose proof (indexed_pass embed_text now archive_id db Hdb) as H1.
    by rewrite Hpass in H1. }
  destruct (committed_pass _ _ _ _ _ _ Hpass) as (Hlen & _ & _ & _ & Hrest & _).
  split; [done|]. split; [by eapply Hgone|]. split; [done|].
  split; [by apply indexed_invariant|].
  pose proof Hpass as Hparts.
  apply _process_vectorization_committed in Hparts
    as (record & vector & new_nodes & Hrec & Htext & Hcoarse & Hchunks
        & -> & Harch & Hnodes & Hnext).
  assert (Hrec1 : archives db1 !! archive_id = Some (store_coarse now record vector)).
  { rewrite Harch. apply lookup_insert_eq. }
  destruct (text_to_embed_store_coarse now record vector) as [Htext1 Htype1].
  destruct (embed_chunks_next_id _ _ _ _ _ _ (next_node_id db1) _ Hchunks)
    as (nodes2 & Hchunks2 & Hidx & Hcontent).
  destruct (_process_vectorization_commits embed_text now' archive_id db1
              (store_coarse now record vector) vector nodes2) as [db2 Hpass2].
  { done. } { by rewrite Htext1. } { by rewrite Htext1. }
  { by rewrite Htext1, Htype1. }
  assert (Hlen2 : length nodes2 = length new_nodes).
  { by rewrite <- (length_fmap VectorNode.chunk_index nodes2), Hidx, length_fmap. }
  rewrite Hlen2 in Hpass2. exists db2. split; [done|].
  assert (Hdb2 : indexed db2).
  { pose proof (indexed_pass embed_text now' archive_id db1 Hdb1) as H2.
    by rewrite Hpass2 in H2. }
  assert (Hafter : nodes_of archive_id (vector_nodes db1) = new_nodes).
  { destruct (embed_chunks_spec _ _ _ _ _ _ _ Hchunks) as [HF _].
    assert (Hown : Forall (fun n => VectorNode.parent_archive_id n = archive_id)
                     new_nodes).
    { eapply Forall_impl; [exact HF|]. by intros n (?&_). }
    destruct (nodes_of_own archive_id new_nodes Hown) as [Hmine _].
    rewrite Hnodes. unfold nodes_of. rewrite filter_app.
    fold (nodes_of archive_id (delete_nodes_of archive_id (vector_nodes db))).
    fold (nodes_of archive_id new_nodes).
    by rewrite nodes_of_delete_same, Hmine. }
  assert (Hafter2 : nodes_of archive_id (vector_nodes db2) = nodes2).
  { pose proof Hpass2 as Hparts2.
    apply _process_vectorization_committed in Hparts2
      as (record2 & vector2 & new_nodes2 & Hrec2 & _ & _ & Hchunks2' & _ & _
          & Hnodes2 & _).
    rewrite Hrec1 in Hrec2. injection Hrec2 as <-.
    rewrite Htext1, Htype1, Hchunks2 in Hchunks2'. injection Hchunks2' as <-.
    destruct (embed_chunks_spec _ _ _ _ _ _ _ Hchunks2) as [HF2 _].
    assert (Hown2 : Forall (fun n => VectorNode.parent_archive_id n = archive_id)
                      nodes2).
    { eapply Forall_impl; [exact HF2|]. by intros n (?&_). }
    destruct (nodes_of_own archive_id nodes2 Hown2) as [Hmine2 _].
    rewrite Hnodes2. unfold nodes_of. rewrite filter_app.
    fold (nodes_of archive_id (delete_nodes_of archive_id (vector_nodes db1))).
    fold (nodes_of archive_id nodes2).
    by rewrite nodes_of_delete_same, Hmine2. }
  rewrite Hafter, Hafter2.
  split; [done|]. split; [done|]. split; [done|].
  split; [by eapply Hgone|by apply indexed_invariant].
Qed.

Lemma reindexing_replaces_chunks_witness :
  ∃ db1 db2,
    _process_vectorization demo_embed 10 1 demo_db = (db1, Committed 3)
    ∧ _process_vectorization demo_embed 20 1 db1 = (db2, Committed 3)
    ∧ length (nodes_of 1 (vector_nodes db2)) = 3
    ∧ Forall (fun n => n ∉ vector_nodes db2) (vector_nodes db1)
    ∧ chunk_index_unique db2.
Proof.
  assert (Hpass : _process_vectorization demo_embed 10 1 demo_db
                  = ((_process_vectorization demo_embed 10 1 demo_db).1, Committed 3))
    by (vm_compute; reflexivity).
  destruct (reindexing_replaces_chunks demo_embed 10 20 1 demo_db _ 3
              (indexed_empty _ _) Hpass)
    as (_ & _ & _ & _ & db2 & Hpass2 & Hlen2 & _ & _ & Hgone & Huniq).
  eexists _, db2. split; [exact Hpass|]. split; [exact Hpass2|].
  split; [exact Hlen2|]. split; [|exact Huniq].
  apply Forall_forall. intros n Hn. apply Hgone; [done|].
  destruct (committed_pass _ _ _ _ _ _ Hpass) as (_ & _ & _ & _ & _ & _ & Hnodes).
  rewrite Hnodes in Hn. apply elem_of_app in Hn as [Hn|Hn].
  - exfalso. revert Hn. unfold delete_nodes_of, demo_db. cbn [vector_nodes].
    rewrite filter_nil. apply not_elem_of_nil.
  - unfold nodes_of in Hn. by apply list_elem_of_filter in Hn as [? _].
Defined.

(** X1. A text longer than 2,000 characters is cut into as many windows as
    there are multiples of 1,800 below its length: its length divided by
    1,800, rounded up. *)
Theorem chunk_count (text_to_embed : text) :
  length (split_chunks text_to_embed)
  = if decide (2000 < length text_to_embed)
    then (length text_to_embed + 1799) / 1800
    else 1.
Proof.
  destruct (decide (2000 < length text_to_embed)) as [Hlong|Hshort].
  - assert (Hlong' : CHUNK_SIZE < length text_to_embed) by done.
    set (n := (length text_to_embed + 1799) / 1800).
    pose proof (Nat.div_mod_eq (length text_to_embed + 1799) 1800) as Hdiv.
    pose proof (Nat.mod_upper_bound (length text_to_embed + 1799) 1800) as Hmod.
    fold n in Hdiv.
    pose proof (split_chunks_long text_to_embed (n - 1) Hlong') as Hlast.
    pose proof (split_chunks_long text_to_embed n Hlong') as Hend.
    rewrite decide_True in Hlast by lia. rewrite decide_False in Hend by lia.
    apply lookup_lt_Some in Hlast. apply lookup_ge_None in Hend. lia.
  - unfold split_chunks. by rewrite decide_False.
Qed.

(** X2. A pass that ends in an exception, raised by an embedding call, is
    rolled back as a whole: it leaves the Document table and the chunk
    table as it found them.  So does a pass that finds no record. *)
Theorem failed_pass_is_rolled_back embed_text now archive_id db :
  match (_process_vectorization embed_text now archive_id db).2 with
  | Committed k =>
      length (nodes_of archive_id
                (vector_nodes (_process_vectorization embed_text now archive_id db).1))
      = k
  | RolledBack _ | NoRecord | NoText =>
      (_process_vectorization embed_text now archive_id db).1 = db
  end.
Proof.
  destruct (_process_vectorization embed_text now archive_id db)
    as [db1 outcome] eqn:Hpass.
  destruct (_process_vectorization_unchanged embed_text now archive_id db)
    as [[k Hk]|Hsame]; rewrite Hpass in *; simpl in *.
  - subst outcome. by destruct (committed_pass _ _ _ _ _ _ Hpass) as [? _].
  - subst db1. destruct outcome as [| |k|e]; try done.
    by destruct (committed_pass _ _ _ _ _ _ Hpass) as [? _].
Qed.

End VectorizerFacts.

(** ** The archiver plugin *)

Section ArchiverFacts.
Import Archiver.

Local Ltac raised_before_move :=
  simpl; split; [done|]; split; [done|]; split; [by left|by intros ? ?].

Local Ltac raised_after_move final_path relative_path :=
  simpl; split; [done|]; split; [done|]; split;
  [ intros [?%elem_of_singleton|[_ Hn]%elem_of_difference]%elem_of_union;
    [right; by exists final_path, relative_path
    |destruct Hn; by apply elem_of_singleton]
  | intros _ _; by exists final_path, relative_path ].

(** The [try] block publishes exactly when it returns, and what it returns
    is the completed record it has committed. *)
Lemma try_body_outcome env file_path record w :
  match try_body env file_path record w with
  | (_, w1, Returned r) =>
      published w1 = published w ++ [completion_event r file_path (today env)]
      ∧ ArchiveRecord.processing_status r = COMPLETED
      ∧ rows w1 !! ArchiveRecord.id r = Some r
  | (l, w1, Raised e) =>
      published w1 = published w
      ∧ rows w1 = rows w
      ∧ (components file_path ∈ files w1 -> files w1 = files w
         ∨ ∃ final_path relative_path,
             generated_target_path env = Returned (final_path, relative_path)
             ∧ components final_path = components file_path)
      ∧ (components file_path ∉ files w1 -> components file_path ∈ files w ->
         ∃ final_path relative_path,
           generated_target_path env = Returned (final_path, relative_path)
           ∧ files w1 = {[components final_path]} ∪ files w ∖ {[components file_path]})
  end.
Proof.
  unfold try_body.
  destruct (sanitized_username env) as [user|e]; [|raised_before_move].
  destruct (default_storage_root env) as [root|e]; [|raised_before_move].
  destruct (analyze_file env) as [[[d|]|]|e0]; try raised_before_move.
  all: destruct (_pick_year_month _ _) as [y m].
  all: destruct (generated_target_path env) as [[final_path relative_path]|e];
    [|raised_before_move].
  all: unfold move; destruct (move_error env) as [e|]; [raised_before_move|].
  all: case_bool_decide as Hsrc; [|raised_before_move].
  all: destruct (st_size env) as [size|e]; [|raised_after_move final_path relative_path].
  all: destruct (commit_error env) as [e|]; [raised_after_move final_path relative_path|].
  all: destruct record as [record|]; [|raised_after_move final_path relative_path].
  all: simpl; by rewrite lookup_insert_eq.
Qed.

Lemma _handle_failed_file_moves file_path root user ym fs :
  components file_path ∈ fs ->
  _handle_failed_file file_path (_file_type_dir file_path) ym root user None fs
  = Returned ({[failed_path root user ym file_path]} ∪ fs ∖ {[components file_path]}).
Proof.
  intros Hin. unfold _handle_failed_file, failed_path.
  rewrite bool_decide_eq_true_2 by done. by rewrite <- app_assoc.
Qed.

(** C9, as the code has it.  A run on a record that raises emits no
    completion event and leaves the record FAILED with the message of the
    exception.  If the uploaded file is still at its upload path when the
    exception is raised, and the user name and storage root are known and
    the move itself does not fail, the file is moved into the [_FAILED]
    directory of its folder; if the file has already been moved to its
    final path, it stays there.  A run that returns has emitted the
    completion event, for a COMPLETED record. *)
Theorem archiving_failure_handling env file_path record w :
  match _process_and_persist env file_path (Some record) w with
  | (w', Returned r) =>
      published w' = published w ++ [completion_event r file_path (today env)]
      ∧ ArchiveRecord.processing_status r = COMPLETED
  | (w', Raised e) =>
      published w' = published w
      ∧ (∃ r, rows w' !! ArchiveRecord.id record = Some r
              ∧ ArchiveRecord.processing_status r = FAILED
              ∧ ArchiveRecord.processing_error r = Some (msg e))
      ∧ let '(l, w1, _) := try_body env file_path (Some record) w in
        if bool_decide (components file_path ∈ files w1)
        then ∀ root user,
               storage_root l = Some root -> username l = Some user ->
               user ≠ ""%string -> failed_dir_error env = None ->
               ∃ ym, files w'
                     = {[failed_path root user ym file_path]}
                       ∪ files w1 ∖ {[components file_path]}
        else files w' = files w1
  end.
Proof.
  unfold _process_and_persist.
  pose proof (try_body_outcome env file_path (Some record) w) as Hbody.
  destruct (try_body env file_path (Some record) w) as [[l w1] [r|e]].
  - destruct Hbody as (Hpub & Hstatus & _). done.
  - destruct Hbody as (Hpub & Hrows & _). simpl.
    split; [done|]. split.
    { exists (failed record e). by rewrite lookup_insert_eq. }
    case_bool_decide as Hat; [|done].
    intros root user -> -> Huser Hmove.
    rewrite bool_decide_eq_true_2 by done. rewrite Hmove.
    rewrite _handle_failed_file_moves by done. by eexists.
Qed.

Lemma archiving_failure_handling_witness :
  target_failure_run.2 = Raised (Exception "Permission denied")
  ∧ published target_failure_run.1 = []
  ∧ ∃ r, rows target_failure_run.1 !! 1%Z = Some r
         ∧ ArchiveRecord.processing_status r = FAILED
         ∧ ArchiveRecord.processing_error r = Some "Permission denied"%string.
Proof.
  pose proof (archiving_failure_handling
                (demo_env (Raised (Exception "Permission denied")) None)
                demo_upload demo_row demo_world) as H.
  fold target_failure_run in H.
  assert (Hraised : target_failure_run.2 = Raised (Exception "Permission denied"))
    by (vm_compute; reflexivity).
  destruct target_failure_run as [w' outcome]. simpl in Hraised. subst outcome.
  destruct H as (Hpub & Hrow & _). done.
Defined.

(** C9 as stated fails: when the commit raises after the file has reached
    its final path, the run ends FAILED and without an event, but the file
    stays at its final path and nothing is put into [_FAILED]. *)
Lemma commit_failure_leaves_file_in_place :
  commit_failure_run.2 = Raised (Exception "database is down")
  ∧ files commit_failure_run.1 = {[components demo_final]}
  ∧ published commit_failure_run.1 = []
  ∧ ArchiveRecord.processing_status <$> rows commit_failure_run.1 !! 1%Z
    = Some FAILED.
Proof.
  split; [by vm_compute|]. split; [|by vm_compute].
  apply (bool_decide_unpack _). by vm_compute.
Qed.

(** X8. A run that returns has moved the uploaded file from its upload
    path to the generated final path, has committed the record as COMPLETED
    under the name and relative path of the final path, without an error
    message, and has emitted the completion event for it, once. *)
Theorem archiving_success env file_path record w w' r :
  _process_and_persist env file_path (Some record) w = (w', Returned r) ->
  ∃ final_path relative_path,
    generated_target_path env = Returned (final_path, relative_path)
    ∧ components file_path ∈ files w
    ∧ files w' = {[components final_path]} ∪ files w ∖ {[components file_path]}
    ∧ rows w' = <[ArchiveRecord.id record := r]> (rows w)
    ∧ ArchiveRecord.id r = ArchiveRecord.id record
    ∧ ArchiveRecord.processing_status r = COMPLETED
    ∧ ArchiveRecord.processing_error r = None
    ∧ ArchiveRecord.filename r = T (name final_path)
    ∧ ArchiveRecord.relative_path r = Some relative_path
    ∧ published w' = published w ++ [completion_event r file_path (today env)].
Proof.
  unfold _process_and_persist, try_body.
  destruct (sanitized_username env) as [user|e]; [|done].
  destruct (default_storage_root env) as [root|e]; [|done].
  destruct (analyze_file env) as [[[d|]|]|e0]; try done.
  all: destruct (_pick_year_month _ _) as [y m].
  all: destruct (generated_target_path env) as [[final_path relative_path]|e];
    [|done].
  all: unfold move; destruct (move_error env) as [e|]; [done|].
  all: case_bool_decide as Hsrc; [|done].
  all: destruct (st_size env) as [size|e]; [|done].
  all: destruct (commit_error env) as [e|]; [done|].
  all: intros [= <- <-]; by exists final_path, relative_path.
Qed.

Lemma archiving_success_witness :
  ∃ r, success_run.2 = Returned r
       ∧ ArchiveRecord.processing_status r = COMPLETED
       ∧ ArchiveRecord.filename r = T "2023-11-15-invoice.pdf"
       ∧ published success_run.1
         = [completion_event r demo_upload
              (today (demo_env (Returned (demo_final, demo_relative_path)) None))].
Proof.
  assert (Hreturned : ∃ r, success_run.2 = Returned r)
    by (vm_compute; by eexists).
  destruct Hreturned as [r Hr]. exists r. split; [done|].
  destruct success_run as [w' outcome] eqn:Hrun. simpl in Hr. subst outcome.
  unfold success_run in Hrun.
  apply archiving_success in Hrun
    as (final_path & relative_path & Htarget & _ & _ & _ & _ & Hstatus & _
        & Hname & _ & Hpublished).
  injection Htarget as <- <-. simpl. by rewrite Hpublished.
Defined.

End ArchiverFacts.

(** ** Ordered dictionaries *)

Section OrderedDictFacts.
Context {K V : Type} `{EqDecision K}.
Implicit Types (d : list (K * V)).

Lemma od_get_Some d k v : od_get k d = Some v -> (k, v) ∈ d.
Proof.
  induction d as [|[k' v'] d IH]; [done|]. simpl.
  destruct (decide (k' = k)) as [->|_].
  - intros [= ->]. apply list_elem_of_here.
  - intros H. by apply list_elem_of_further, IH.
Qed.

Lemma od_get_None d k : od_get k d = None -> k ∉ d.*1.
Proof.
  induction d as [|[k' v'] d IH]; simpl; [intros _; apply not_elem_of_nil|].
  destruct (decide (k' = k)) as [->|Hne]; [done|].
  intros H. apply not_elem_of_cons. split; [done|by apply IH].
Qed.

Lemma od_set_elem d k v x : x ∈ od_set k v d -> x = (k, v) ∨ x ∈ d.
Proof.
  induction d as [|[k' v'] d IH]; simpl.
  - intros ->%list_elem_of_singleton. by left.
  - destruct (decide (k' = k)) as [->|_].
    + intros [->|?]%elem_of_cons; [by left|]. right. by apply list_elem_of_further.
    + intros [->|Hx]%elem_of_cons; [right; apply list_elem_of_here|].
      destruct (IH Hx) as [->|?]; [by left|]. right. by apply list_elem_of_further.
Qed.

Lemma od_set_keys d k v :
  (od_set k v d).*1 = if decide (k ∈ d.*1) then d.*1 else d.*1 ++ [k].
Proof.
  induction d as [|[k' v'] d IH]; [done|]. cbn [od_set].
  destruct (decide (k' = k)) as [->|Hne]; rewrite !fmap_cons; cbn [fst].
  - rewrite decide_True; [done|apply list_elem_of_here].
  - rewrite IH. destruct (decide (k ∈ d.*1)) as [Hin|Hnin].
    + rewrite decide_True; [done|by apply list_elem_of_further].
    + rewrite decide_False; [done|]. by intros [?|?]%elem_of_cons.
Qed.

Lemma od_get_set d k v k' :
  od_get k' (od_set k v d) = if decide (k = k') then Some v else od_get k' d.
Proof.
  induction d as [|[k0 v0] d IH]; simpl.
  - by destruct (decide (k = k')).
  - destruct (decide (k0 = k)) as [->|Hne]; simpl.
    + by destruct (decide (k = k')).
    + destruct (decide (k0 = k')) as [->|Hne']; [|done].
      by rewrite decide_False by congruence.
Qed.

Lemma od_get_elem d k v : NoDup d.*1 -> (k, v) ∈ d -> od_get k d = Some v.
Proof.
  induction d as [|[k0 v0] d IH]; [by intros _ ?%elem_of_nil|].
  rewrite fmap_cons. cbn [fst od_get]. intros [Hk0 Hd]%NoDup_cons.
  intros [[= -> ->]|Hin]%elem_of_cons; [by rewrite decide_True|].
  rewrite decide_False; [by apply IH|].
  intros ->. apply Hk0. by apply (list_elem_of_fmap_2 fst) in Hin.
Qed.

(** Setting a key never makes a key occur twice. *)
Lemma od_set_NoDup d k v : NoDup d.*1 -> NoDup (od_set k v d).*1.
Proof.
  intros Hd. rewrite od_set_keys. destruct (decide (k ∈ d.*1)); [done|].
  apply NoDup_app. split; [done|]. split; [|apply NoDup_singleton].
  by intros x Hx ->%list_elem_of_singleton.
Qed.

End OrderedDictFacts.

(** ** Sorting by score *)

Section SortFacts.
Context {A : Type} (key : A -> Q).

Lemma Qlt_bool_true (a b : Q) : Qlt_bool a b = true -> (a < b)%Q.
Proof.
  unfold Qlt_bool. intros H%negb_true_iff.
  apply Qnot_le_lt. intros Hle%Qle_bool_iff. congruence.
Qed.

Lemma Qlt_bool_false (a b : Q) : Qlt_bool a b = false -> (b <= a)%Q.
Proof.
  unfold Qlt_bool. intros H%negb_false_iff. by apply Qle_bool_iff.
Qed.

Lemma insert_desc_Permutation x (l : list A) : insert_desc key x l ≡ₚ x :: l.
Proof.
  induction l as [|y l IH]; [done|]. simpl.
  destruct (Qlt_bool (key x) (key y)); [|done].
  rewrite IH. apply Permutation_swap.
Qed.

Lemma sort_desc_Permutation (l : list A) : sort_desc key l ≡ₚ l.
Proof.
  induction l as [|x l IH]; [done|]. simpl.
  by rewrite insert_desc_Permutation, IH.
Qed.

Lemma sort_desc_length (l : list A) : length (sort_desc key l) = length l.
Proof. by rewrite sort_desc_Permutation. Qed.

Lemma insert_desc_sorted x (l : list A) :
  StronglySorted (descending key) l ->
  StronglySorted (descending key) (insert_desc key x l).
Proof.
  induction 1 as [|y l Hl IH Hy]; simpl.
  - repeat constructor.
  - destruct (Qlt_bool (key x) (key y)) eqn:Hxy.
    + constructor; [done|]. rewrite insert_desc_Permutation.
      constructor; [|done]. by apply Qlt_le_weak, Qlt_bool_true.
    + apply Qlt_bool_false in Hxy. constructor; [by constructor|].
      constructor; [done|]. eapply Forall_impl; [exact Hy|].
      intros z Hz. unfold descending in *. by eapply Qle_trans.
Qed.

Lemma sort_desc_sorted (l : list A) :
  StronglySorted (descending key) (sort_desc key l).
Proof.
  induction l as [|x l IH]; simpl; [constructor|by apply insert_desc_sorted].
Qed.

Lemma StronglySorted_take (R : relation A) n (l : list A) :
  StronglySorted R l -> StronglySorted R (take n l).
Proof.
  intros H. rewrite <- (take_drop n l) in H.
  by apply StronglySorted_app_1_l in H.
Qed.

End SortFacts.

Lemma ranked_before_le (a b : nat * Q) : ranked_before a b -> (b.2 <= a.2)%Q.
Proof.
  intros [Hlt|[Heq _]]; [by apply Qlt_le_weak|]. rewrite Heq. apply Qle_refl.
Qed.

Lemma insert_desc_ranked (x : nat * Q) (l : list (nat * Q)) :
  StronglySorted ranked_before l ->
  Forall (fun y => x.1 < y.1) l ->
  StronglySorted ranked_before (insert_desc snd x l).
Proof.
  induction 1 as [|y l Hl IH Hy]; intros Hpos; simpl.
  - repeat constructor.
  - apply Forall_cons in Hpos as [Hxy Hpos].
    destruct (Qlt_bool x.2 y.2) eqn:Hscore.
    + constructor; [by apply IH|]. rewrite insert_desc_Permutation.
      constructor; [|done]. left. by apply Qlt_bool_true.
    + apply Qlt_bool_false in Hscore.
      assert (Hfirst : ∀ z, (z.2 <= x.2)%Q -> x.1 < z.1 -> ranked_before x z).
      { intros z Hz Hlt. destruct (Qlt_le_dec z.2 x.2) as [?|Hge]; [by left|].
        right. split; [|done]. by apply Qle_antisym. }
      constructor; [by constructor|]. constructor; [by apply Hfirst|].
      rewrite Forall_forall in Hy, Hpos. apply Forall_forall. intros z Hz.
      apply Hfirst; [|by apply Hpos].
      eapply Qle_trans; [|exact Hscore]. by apply ranked_before_le, Hy.
Qed.

Lemma sort_desc_enumerate_from (scores : list Q) : ∀ a,
  StronglySorted ranked_before (sort_desc snd (zip (seq a (length scores)) scores))
  ∧ Forall (fun y => a ≤ y.1) (sort_desc snd (zip (seq a (length scores)) scores)).
Proof.
  induction scores as [|s scores IH]; intros a; simpl.
  - split; constructor.
  - destruct (IH (S a)) as [Hsorted Hpos]. split.
    + apply insert_desc_ranked; [done|].
      eapply Forall_impl; [exact Hpos|]. simpl. intros y ?. lia.
    + rewrite insert_desc_Permutation. constructor; [done|].
      eapply Forall_impl; [exact Hpos|]. simpl. intros y ?. lia.
Qed.

(** [sorted(enumerate(scores), key=score, reverse=True)] lists the
    positions by descending score, equal scores by ascending position. *)
Lemma sort_desc_enumerate (scores : list Q) :
  StronglySorted ranked_before (sort_desc snd (enumerate scores)).
Proof. apply (sort_desc_enumerate_from scores 0). Qed.

(** ** The retrieval agent *)

Section RetrievalFacts.
Import Dates Retrieval.

Section RankFacts.
Variable sv : services.

Lemma zero_scores_ranked n : ∀ a,
  StronglySorted ranked_before ((fun i => (i, 0%Q)) <$> seq a n).
Proof.
  induction n as [|n IH]; intros a; simpl; constructor; [apply IH|].
  apply Forall_fmap, Forall_forall. intros i [Hi _]%elem_of_seq.
  right. simpl. split; [reflexivity|lia].
Qed.

Lemma zero_scores_fst n a : ((fun i => (i, 0%Q)) <$> seq a n).*1 = seq a n.
Proof.
  rewrite <- list_fmap_compose. rewrite <- (list_fmap_id (seq a n)) at 2.
  by apply list_fmap_ext.
Qed.

(** The list the reranker returns: best first, at most [top_k] entries,
    no position twice. *)
Lemma rerank_spec query candidates top_k reranked :
  rerank sv query candidates top_k = Returned reranked ->
  StronglySorted ranked_before reranked
  ∧ length reranked ≤ top_k
  ∧ NoDup reranked.*1.
Proof.
  unfold rerank. destruct candidates as [|c candidates].
  { intros [= <-]. repeat split; [constructor|simpl; lia|constructor]. }
  destruct (rerank_model sv) as [predict|]; [|done].
  destruct (predict _ _) as [scores|e]; intros [= <-].
  - split; [apply StronglySorted_take, sort_desc_enumerate|].
    split; [rewrite length_take; lia|].
    rewrite fmap_take. eapply sublist_NoDup; [|apply sublist_take].
    rewrite sort_desc_Permutation, enumerate_fst. apply NoDup_seq.
  - split.
    { apply StronglySorted_take.
      apply (zero_scores_ranked (S (length candidates)) 0). }
    split; [rewrite length_take; lia|].
    rewrite fmap_take. eapply sublist_NoDup; [|apply sublist_take].
    change (NoDup ((fun i => (i, 0%Q)) <$> seq 0 (S (length candidates))).*1).
    rewrite zero_scores_fst. apply NoDup_seq.
Qed.

Lemma finalized_insert_ne keywords (items : list hit) idx item (entry : nat * Q) :
  entry.1 ≠ idx ->
  finalized sv keywords (<[idx := item]> items) entry
  = finalized sv keywords items entry.
Proof.
  intros Hne. unfold finalized. by rewrite list_lookup_insert_ne.
Qed.

Lemma omap_cons_eq {X Y : Type} (f : X -> option Y) x (l : list X) :
  omap f (x :: l)
  = match f x with Some y => y :: omap f l | None => omap f l end.
Proof. done. Qed.

Lemma omap_ext_in {X Y : Type} (f g : X -> option Y) (l : list X) :
  (∀ x, x ∈ l -> f x = g x) -> omap f l = omap g l.
Proof.
  induction l as [|x l IH]; intros Hfg; [done|]. csimpl.
  rewrite (Hfg x) by apply list_elem_of_here.
  rewrite IH; [done|]. intros y Hy. apply Hfg. by apply list_elem_of_further.
Qed.

(** When no position occurs twice, the loop appends, for each entry in
    turn, the hit that [finalized] gives on the candidates it started
    with. *)
Lemma rerank_loop_distinct keywords reranked : ∀ items final,
  NoDup reranked.*1 ->
  (∀ i, i ∈ final -> i ∉ reranked.*1) ->
  ∀ items' final',
  rerank_loop sv keywords reranked items final = (items', final') ->
  omap (fun idx => items' !! idx) final'
  = omap (fun idx => items !! idx) final
    ++ omap (finalized sv keywords items) reranked.
Proof.
  induction reranked as [|[idx score] reranked IH];
    intros items final Hdup Hfinal items' final'.
  { intros [= <- <-]. by rewrite app_nil_r. }
  rewrite fmap_cons in Hdup, Hfinal. cbn [fst] in Hdup, Hfinal.
  apply NoDup_cons in Hdup as [Hidx Hdup].
  assert (Hfinal' : ∀ i, i ∈ final -> i ∉ reranked.*1).
  { intros i Hi Hin. apply (Hfinal i Hi). by apply list_elem_of_further. }
  assert (Hnew : idx ∉ final).
  { intros Hi. apply (Hfinal idx Hi). apply list_elem_of_here. }
  assert (Hrest : ∀ item,
            omap (finalized sv keywords (<[idx := item]> items)) reranked
            = omap (finalized sv keywords items) reranked).
  { intros item. apply omap_ext_in. intros entry Hentry.
    apply finalized_insert_ne. intros Heq. apply Hidx. rewrite <- Heq.
    by apply list_elem_of_fmap_2. }
  assert (Hkeep : ∀ item,
            omap (fun i => <[idx := item]> items !! i) final
            = omap (fun i => items !! i) final).
  { intros item. apply omap_ext_in. intros i Hi.
    apply list_lookup_insert_ne. by intros ->. }
  cbn [rerank_loop]. rewrite omap_cons_eq. unfold finalized at 1. cbn [fst snd].
  destruct (items !! idx) as [item|] eqn:Hitem; [|by apply IH].
  destruct (Qlt_bool (h_score (rescored sv keywords item score)) 0.40) eqn:Hlow;
    intros Hloop; apply IH in Hloop; try done.
  - by rewrite Hloop, Hkeep, Hrest.
  - rewrite Hloop, omap_app, Hkeep, Hrest, <- app_assoc.
    rewrite omap_cons_eq, list_lookup_insert_eq by (by eapply lookup_lt_Some).
    done.
  - intros i [Hi| ->%list_elem_of_singleton]%elem_of_app; [by apply Hfinal'|done].
Qed.

(** With a reranker that answers, the result is read off its list. *)
Lemma rank_reranked query_text keywords top_k candidate_items reranked :
  rerank sv query_text (candidate_text <$> candidate_items) top_k = Returned reranked ->
  rank sv query_text keywords top_k candidate_items
  = omap (finalized sv keywords candidate_items) reranked.
Proof.
  intros Hrerank. unfold rank. destruct candidate_items as [|c items].
  { simpl in Hrerank. by injection Hrerank as <-. }
  rewrite Hrerank.
  destruct (rerank_spec _ _ _ _ Hrerank) as (_ & _ & Hdup).
  destruct (rerank_loop sv keywords reranked (c :: items) []) as [items' final'] eqn:Hloop.
  apply rerank_loop_distinct in Hloop; [done|done|].
  by intros i ?%elem_of_nil.
Qed.

Lemma finalized_Some keywords items entry h :
  finalized sv keywords items entry = Some h ->
  ∃ item, items !! entry.1 = Some item
          ∧ h = rescored sv keywords item entry.2
          ∧ (0.40 <= h_score h)%Q.
Proof.
  unfold finalized. destruct (items !! entry.1) as [item|]; [|done].
  destruct (Qlt_bool _ _) eqn:Hlow; [done|]. intros [= <-].
  exists item. split; [done|]. split; [done|]. by apply Qlt_bool_false.
Qed.

Lemma length_omap_le {X Y : Type} (f : X -> option Y) (l : list X) :
  length (omap f l) ≤ length l.
Proof.
  induction l as [|x l IH]; [done|]. rewrite omap_cons_eq.
  destruct (f x); simpl; lia.
Qed.

Lemma has_kw_false keywords item :
  Forall (fun k => contains (lower (content_to_check item)) (lower k) = false)
    keywords ->
  has_kw keywords item = false.
Proof.
  unfold has_kw. induction 1 as [|k keywords Hk _ IH]; [done|]. simpl.
  by rewrite Hk, IH.
Qed.

Lemma verified_score_halved keywords item norm_score :
  keywords ≠ [] -> has_kw keywords item = false -> (norm_score < 0.85)%Q ->
  verified_score keywords item norm_score = (norm_score * 0.5)%Q.
Proof.
  intros Hkw Hnone Hlow. unfold verified_score.
  destruct keywords as [|k keywords]; [done|]. rewrite Hnone.
  destruct (Qlt_bool norm_score 0.85) eqn:Hcmp; [done|].
  apply Qlt_bool_false in Hcmp. by apply Qle_not_lt in Hcmp.
Qed.

Lemma verified_score_trusted keywords item norm_score :
  (0.85 <= norm_score)%Q ->
  verified_score keywords item norm_score = norm_score.
Proof.
  intros Hhigh. unfold verified_score.
  destruct keywords as [|k keywords]; [done|].
  destruct (has_kw _ _); [done|].
  destruct (Qlt_bool norm_score 0.85) eqn:Hcmp; [|done].
  apply Qlt_bool_true in Hcmp. by apply Qle_not_lt in Hhigh.
Qed.

Lemma Qlt_bool_true_intro (a b : Q) : (a < b)%Q -> Qlt_bool a b = true.
Proof.
  intros Hlt. destruct (Qlt_bool a b) eqn:Hcmp; [done|].
  apply Qlt_bool_false in Hcmp. by apply Qle_not_lt in Hcmp.
Qed.

(** C5, as the code has it.  With a keyword list that is not empty, a
    candidate whose calibrated score is below 0.85 and whose snippet,
    summary and file name contain none of the keywords, compared in lower
    case, ends with exactly half the calibrated score.  A candidate whose
    calibrated score is at least 0.85 keeps it.  A candidate calibrated at
    0.60 without any keyword ends at 0.30, and the loop goes on without
    appending it.  With an empty keyword list every candidate keeps its
    calibrated score, whatever it is and whatever the candidate holds; the
    list is only empty for a query without explicit keywords that holds a
    space and nothing but white space. *)
Theorem keyword_penalty keywords item score :
  let norm_score := sigmoid sv score in
  let none_occurs :=
    Forall (fun k => contains (lower (content_to_check item)) (lower k) = false)
      keywords in
  (keywords ≠ [] -> none_occurs -> (norm_score < 0.85)%Q ->
   h_score (rescored sv keywords item score) = (norm_score * 0.5)%Q)
  ∧ ((0.85 <= norm_score)%Q ->
     h_score (rescored sv keywords item score) = norm_score)
  ∧ (keywords ≠ [] -> none_occurs -> (norm_score == 0.60)%Q ->
     (h_score (rescored sv keywords item score) == 0.30)%Q
     ∧ ∀ candidate_items idx reranked_indices final_results,
         candidate_items !! idx = Some item ->
         rerank_loop sv keywords ((idx, score) :: reranked_indices)
           candidate_items final_results
         = rerank_loop sv keywords reranked_indices
             (<[idx := rescored sv keywords item score]> candidate_items)
             final_results)
  ∧ (keywords = [] -> h_score (rescored sv keywords item score) = norm_score)
  ∧ (∀ query_text given,
       resolve_keywords query_text given = keywords -> keywords = [] ->
       (given = None ∨ given = Some [])
       ∧ " "%char ∈ query_text ∧ take 5 (split query_text) = []).
Proof.
  intros norm_score none_occurs. split; [|split; [|split; [|split]]].
  - intros Hkw Hnone%has_kw_false Hlow. by apply verified_score_halved.
  - intros Hhigh. by apply verified_score_trusted.
  - intros Hkw Hnone%has_kw_false Hscore.
    assert (Hfinal : h_score (rescored sv keywords item score)
                     = (norm_score * 0.5)%Q).
    { apply verified_score_halved; [done|done|]. by rewrite Hscore. }
    assert (Hthird : (h_score (rescored sv keywords item score) == 0.30)%Q).
    { rewrite Hfinal, Hscore. reflexivity. }
    split; [done|].
    intros candidate_items idx reranked_indices final_results Hitem.
    cbn [rerank_loop]. rewrite Hitem.
    rewrite Qlt_bool_true_intro; [done|]. by rewrite Hthird.
  - by intros ->.
  - intros query_text given <-. unfold resolve_keywords.
    destruct given as [[|k ks]|]; [|done|].
    + destruct (take 3 _ ++ take 2 _); [|done].
      case_bool_decide; [|done]. intros Hnone. split; [by right|done].
    + destruct (take 3 _ ++ take 2 _); [|done].
      case_bool_decide; [|done]. intros Hnone. split; [by left|done].
Qed.

(** What [rank] returns, on both paths. *)
Lemma rank_spec query_text keywords top_k candidate_items :
  length (rank sv query_text keywords top_k candidate_items) ≤ top_k
  ∧ match rerank sv query_text (candidate_text <$> candidate_items) top_k with
    | Returned reranked_indices =>
        StronglySorted ranked_before reranked_indices
        ∧ rank sv query_text keywords top_k candidate_items
          = omap (finalized sv keywords candidate_items) reranked_indices
        ∧ Forall (fun h => (0.40 <= h_score h)%Q)
            (rank sv query_text keywords top_k candidate_items)
    | Raised _ =>
        rank sv query_text keywords top_k candidate_items
        = take top_k (sort_desc h_score candidate_items)
        ∧ StronglySorted (descending h_score)
            (rank sv query_text keywords top_k candidate_items)
    end.
Proof.
  destruct (rerank sv query_text (candidate_text <$> candidate_items) top_k)
    as [reranked|e] eqn:Hrerank.
  - rewrite (rank_reranked _ _ _ _ _ Hrerank).
    destruct (rerank_spec _ _ _ _ Hrerank) as (Hsorted & Hlen & _).
    split; [etrans; [apply length_omap_le|done]|].
    split; [done|]. split; [done|].
    apply Forall_forall. intros h (entry & _ & Hh)%list_elem_of_omap.
    by apply finalized_Some in Hh as (_ & _ & _ & ?).
  - assert (Hrank : rank sv query_text keywords top_k candidate_items
                    = take top_k (sort_desc h_score candidate_items)).
    { unfold rank. destruct candidate_items as [|c items]; [done|].
      by rewrite Hrerank. }
    rewrite Hrank. split; [rewrite length_take; lia|]. split; [done|].
    apply StronglySorted_take, sort_desc_sorted.
Qed.

Lemma search_by_vector_no_vector query_text top_k f user_id min_score :
  embedding_fails sv query_text ->
  search_by_vector sv query_text top_k f user_id min_score = [].
Proof.
  unfold embedding_fails, search_by_vector. destruct (session sv); [|done].
  simpl. destruct (embed_text sv query_text) as [query_vector|e]; [|done].
  by intros ->.
Qed.

Lemma filter_raising_sublist {X : Type} (p : X -> result bool) (l l' : list X) :
  filter_raising p l = Returned l' -> l' `sublist_of` l.
Proof.
  revert l'. induction l as [|x l IH]; intros l'; simpl.
  - intros [= <-]. constructor.
  - destruct (p x) as [keep|e]; [|done].
    destruct (filter_raising p l) as [l0|e]; [|done].
    intros [= <-]. destruct keep; [apply sublist_skip|apply sublist_cons]; by apply IH.
Qed.

(** Without vector results every entry of the merge is a keyword hit. *)
Lemma merge_keyword_only keywords keyword_results :
  Forall (fun h => h_source h = "keyword"%string ∧ ∃ n, h_id h = IntKey n)
    (merge keywords [] keyword_results).*2.
Proof.
  unfold merge. generalize (max_id_of [] keyword_results). intros max_id.
  change (foldl add_vector [] []) with (@nil (doc_key * hit)).
  assert (Hinv : ∀ (rows : list ArchiveRecord.t) combined,
    Forall (fun '(k, h) => ∃ n, k = IntKey n ∧ h_id h = IntKey n
                                ∧ h_source h = "keyword"%string
                                ∧ h_score h = base_score_of max_id n) combined ->
    Forall (fun '(k, h) => ∃ n, k = IntKey n ∧ h_id h = IntKey n
                                ∧ h_source h = "keyword"%string
                                ∧ h_score h = base_score_of max_id n)
      (foldl (add_keyword keywords max_id) combined rows)).
  { induction rows as [|record rows IH]; intros combined Hc; [done|]. simpl.
    apply IH. unfold add_keyword.
    destruct (keyword_snippet keywords record) as [snip origin].
    destruct (od_get _ combined) as [existing|] eqn:Hget.
    - apply od_get_Some in Hget. rewrite Forall_forall in Hc.
      destruct (Hc _ Hget) as (n & [= <-] & _ & _ & ->).
      destruct (Qlt_bool _ _) eqn:Hcmp; [|by apply Forall_forall].
      apply Qlt_bool_true in Hcmp. by apply Qlt_irrefl in Hcmp.
    - apply Forall_forall. intros [k h] [[= -> ->]|Hin]%od_set_elem.
      + by eexists.
      + rewrite Forall_forall in Hc. by apply (Hc (k, h)). }
  specialize (Hinv keyword_results [] (Forall_nil_2 _)).
  rewrite Forall_forall in Hinv. apply Forall_forall.
  intros h ([k h'] & -> & Hin)%list_elem_of_fmap.
  destruct (Hinv _ Hin) as (n & _ & Hid & Hsource & _).
  split; [done|by exists n].
Qed.

(** A hit of the result is one of the candidates, with its key and its
    origin. *)
Lemma rank_origin query_text keywords top_k candidate_items h :
  h ∈ rank sv query_text keywords top_k candidate_items ->
  ∃ c, c ∈ candidate_items ∧ h_id h = h_id c ∧ h_source h = h_source c.
Proof.
  destruct (rank_spec query_text keywords top_k candidate_items) as [_ Hrank].
  destruct (rerank _ _ _ _) as [reranked|e].
  - destruct Hrank as (_ & -> & _).
    intros (entry & _ & Hh)%list_elem_of_omap.
    apply finalized_Some in Hh as (c & Hc & -> & _).
    exists c. split; [by eapply list_elem_of_lookup_2|done].
  - destruct Hrank as [-> _]. intros Hh. exists h. split; [|done].
    rewrite <- (sort_desc_Permutation h_score candidate_items).
    eapply elem_of_sublist; [exact Hh|]. apply sublist_take.
Qed.




End RankFacts.

(** C1, as the code has it.  When the embedding call on the query text
    gives no query vector (it raises, or it returns an empty vector),
    [search_by_vector] returns the empty list and [hybrid_search] goes on
    with the keyword results alone: it returns what the rest of the search
    returns for no vector result, and every hit it returns is a keyword
    hit. *)
Theorem embedding_failure_is_absorbed sv now query_text keywords top_k user_id
    time_range file_type :
  let resolved := resolve_keywords query_text keywords in
  let embedded := enhanced_query query_text resolved in
  let recall_k := if top_k <? 10 then top_k * 3 else top_k * 2 in
  embedding_fails sv embedded ->
  (∀ k f u min_score, search_by_vector sv embedded k f u min_score = [])
  ∧ hybrid_search sv now query_text keywords top_k user_id time_range file_type
    = hybrid_search_from sv now query_text resolved top_k time_range []
        (search_by_keywords sv resolved recall_k user_id file_type)
  ∧ ∀ hits,
      hybrid_search sv now query_text keywords top_k user_id time_range file_type
        = Returned hits ->
      Forall (fun h => h_source h = "keyword"%string ∧ ∃ n, h_id h = IntKey n) hits.
Proof.
  intros resolved embedded recall_k Hfails.
  assert (Hnone : ∀ k f u min_score,
            search_by_vector sv embedded k f u min_score = []).
  { intros. by apply search_by_vector_no_vector. }
  split; [done|]. split.
  { unfold hybrid_search. fold resolved. fold embedded. by rewrite Hnone. }
  intros hits. unfold hybrid_search. fold resolved. fold embedded. rewrite Hnone.
  unfold hybrid_search_from. cbn [filter_raising].
  destruct (filter_raising _ _) as [keyword_results|e]; [|done].
  intros [= <-]. apply Forall_forall. intros h Hh.
  apply rank_origin in Hh as (c & Hc & -> & ->).
  pose proof (merge_keyword_only resolved keyword_results) as Hmerge.
  rewrite Forall_forall in Hmerge. by apply Hmerge.
Qed.

Lemma embedding_failure_is_absorbed_witness :
  ∃ hits, embedding_down_run = Returned hits
          ∧ Forall (fun h => h_source h = "keyword"%string ∧ ∃ n, h_id h = IntKey n) hits.
Proof.
  destruct embedding_down_run as [hits|e] eqn:Hrun; [|by vm_compute in Hrun].
  exists hits. split; [done|].
  unfold embedding_down_run, sample_search in Hrun.
  eapply embedding_failure_is_absorbed; [|exact Hrun].
  exact I.
Defined.

(** C1 as stated fails: with the embedding capability down, the search
    raises nothing and returns the invoice, found by its keyword. *)
Lemma embedding_failure_returns_keyword_hit :
  match embedding_down_run with
  | Returned [h] => h_id h = IntKey 1 ∧ h_source h = "keyword"%string
  | _ => False
  end.
Proof. vm_compute. by split. Qed.

(** C2, the failing input.  The invoice is recalled through a chunk and
    through the keyword.  The vector result is stored in [combined] under
    the string of its id and the keyword result under the integer, so the
    two are not merged and the result holds the document twice. *)
Theorem document_returned_twice :
  match both_paths_run with
  | Returned [first; second] =>
      h_id first = StrKey 1 ∧ h_id second = IntKey 1
      ∧ doc_of (h_id first) = doc_of (h_id second)
      ∧ h_source first = "vector"%string ∧ h_source second = "keyword"%string
  | _ => False
  end.
Proof. vm_compute. by repeat split. Qed.

Lemma keyword_penalty_witness :
  (h_score (rescored flat_services [T "invoice"] photo_hit 1) == 0.30)%Q
  ∧ rerank_loop flat_services [T "invoice"] [(0, 1%Q)] [photo_hit] []
    = ([rescored flat_services [T "invoice"] photo_hit 1], [])
  ∧ h_score (rescored flat_services [] photo_hit 1) = sigmoid flat_services 1
  ∧ (sigmoid flat_services 1 == 0.60)%Q.
Proof.
  destruct (keyword_penalty flat_services [T "invoice"] photo_hit 1)
    as (_ & _ & Hexcluded & _).
  destruct (keyword_penalty flat_services [] photo_hit 1)
    as (_ & _ & _ & Hempty & _).
  destruct Hexcluded as [Hscore Hloop].
  - done.
  - by repeat constructor.
  - reflexivity.
  - split; [exact Hscore|]. split; [by rewrite (Hloop [photo_hit] 0 [] [])|].
    split; [by apply Hempty|reflexivity].
Defined.

(** C5 as stated fails: the query of one space has no keywords, so the
    photo contains none of them; its calibrated score 0.5 is below 0.85,
    and yet it is not halved. *)
Lemma no_keywords_no_penalty :
  resolve_keywords (T " ") None = []
  ∧ match blank_query_run with
    | Returned [h] =>
        h_id h = IntKey 2
        ∧ (h_score h == sigmoid (sample_services (Returned [1%Q]) [] [photo] (Some [0%Q])) 0)%Q
        ∧ (h_score h == 0.5)%Q
    | _ => False
    end.
Proof. split; [reflexivity|]. vm_compute. by repeat split. Qed.



Example parse_year_token : _parse_date (T "2024") = None.
Proof. reflexivity. Qed.

Example parse_month_token :
  micros <$> _parse_date (T "2023-11") = micros <$> _parse_date (T "2023-11-01").
Proof. reflexivity. Qed.

(** C4, the failing input.  The expression ["2024"] is read neither as a
    date nor, with ["-01"] added, as a month, so it sets no bound: the
    document dated 2023-11-15 passes the filter that should exclude it.
    The expression ["2023-11"] sets the lower bound 2023-11-01 and the
    document passes it. *)
Theorem year_token_sets_no_bound now fallback_dt :
  range_bounds now (T "2024") = Returned (None, None)
  ∧ _match_time_range now (Some (T "2023-11-15")) (Some (T "2024")) fallback_dt
    = Returned true
  ∧ pass_time now (record_map_of [invoice]) (Some (T "2024")) 1 = Returned true
  ∧ _match_time_range now (Some (T "2023-11-15")) (Some (T "2023-11")) fallback_dt
    = Returned true.
Proof. repeat split; reflexivity. Qed.

Section VectorRecallFacts.
Variable sv : services.
Variable query_vector : list Q.
Implicit Types (c : VectorNode.t) (p : ArchiveRecord.t).

Lemma foldl_snoc {X Y : Type} (g : X -> Y -> X) (x : X) (l : list Y) (y : Y) :
  foldl g x (l ++ [y]) = g (foldl g x l) y.
Proof. by rewrite foldl_app. Qed.

(** After the loop over the child nodes, the entry of a document holds
    its best chunk. *)
Lemma aggregate_children (children : list VectorNode.t) pid :
  match od_get pid (foldl (aggregate_child sv query_vector) [] children) with
  | Some info =>
      ∃ c, best_chunk sv query_vector children pid c
           ∧ i_score info = calc_score sv query_vector (Some (VectorNode.embedding c))
           ∧ snippet info = VectorNode.content c
  | None => ∀ c, c ∈ children -> VectorNode.parent_archive_id c ≠ pid
  end.
Proof.
  revert pid. induction children as [|c children IH] using rev_ind; intros pid.
  { simpl. by intros c ?%elem_of_nil. }
  rewrite foldl_snoc.
  set (agg := foldl (aggregate_child sv query_vector) [] children) in *.
  unfold aggregate_child.
  destruct (decide (VectorNode.parent_archive_id c = pid)) as [<-|Hne].
  - specialize (IH (VectorNode.parent_archive_id c)).
    destruct (od_get (VectorNode.parent_archive_id c) agg) as [existing|] eqn:Hget.
    + destruct IH as (c0 & (Hin & Hp & Hmax) & Hscore & Hsnippet).
      destruct (Qlt_bool _ _) eqn:Hcmp.
      * apply Qlt_bool_true in Hcmp. rewrite od_get_set, decide_True by done.
        exists c. split; [|done]. split; [set_solver|]. split; [done|].
        intros c' [Hc'| ->%list_elem_of_singleton]%elem_of_app Hp';
          [|apply Qle_refl].
        apply Qlt_le_weak. eapply Qle_lt_trans; [|exact Hcmp].
        rewrite Hscore. by apply Hmax.
      * apply Qlt_bool_false in Hcmp. rewrite Hget.
        exists c0. split; [|done]. split; [set_solver|]. split; [done|].
        intros c' [Hc'| ->%list_elem_of_singleton]%elem_of_app Hp';
          [by apply Hmax|].
        by rewrite <- Hscore.
    + rewrite od_get_set, decide_True by done.
      exists c. split; [|done]. split; [set_solver|]. split; [done|].
      intros c' [Hc'| ->%list_elem_of_singleton]%elem_of_app Hp';
        [|apply Qle_refl].
      by destruct (IH c' Hc').
  - assert (Hsame : od_get pid
              match od_get (VectorNode.parent_archive_id c) agg with
              | Some existing =>
                  if Qlt_bool (i_score existing)
                       (calc_score sv query_vector (Some (VectorNode.embedding c)))
                  then od_set (VectorNode.parent_archive_id c)
                         {| i_score := calc_score sv query_vector
                                         (Some (VectorNode.embedding c));
                            snippet := VectorNode.content c;
                            i_source := "child_node";
                            child_id := Some (VectorNode.id c) |} agg
                  else agg
              | None =>
                  od_set (VectorNode.parent_archive_id c)
                    {| i_score := calc_score sv query_vector
                                    (Some (VectorNode.embedding c));
                       snippet := VectorNode.content c;
                       i_source := "child_node";
                       child_id := Some (VectorNode.id c) |} agg
              end = od_get pid agg).
    { destruct (od_get (VectorNode.parent_archive_id c) agg) as [existing|];
        [destruct (Qlt_bool _ _); [|done]|];
        by rewrite od_get_set, decide_False. }
    rewrite Hsame. specialize (IH pid).
    destruct (od_get pid agg) as [info|].
    + destruct IH as (c0 & (Hin & Hp & Hmax) & Hscore & Hsnippet).
      exists c0. split; [|done]. split; [set_solver|]. split; [done|].
      intros c' [Hc'| ->%list_elem_of_singleton]%elem_of_app Hp';
        [by apply Hmax|done].
    + intros c' [Hc'| ->%list_elem_of_singleton]%elem_of_app; [by apply IH|done].
Qed.

(** After the loop over the parent archives, the entry of a document holds
    the highest score of its recalled chunks and of its own vector, and
    still the text of its best chunk when a chunk was recalled. *)
Lemma aggregate_parents (children : list VectorNode.t)
    (parents : list ArchiveRecord.t) pid :
  match od_get pid (aggregate sv query_vector children parents) with
  | Some info =>
      (∀ c, c ∈ children -> VectorNode.parent_archive_id c = pid ->
            (calc_score sv query_vector (Some (VectorNode.embedding c))
             <= i_score info)%Q)
      ∧ (∀ p, p ∈ parents -> ArchiveRecord.id p = pid ->
              (calc_score sv query_vector (ArchiveRecord.embedding p)
               <= i_score info)%Q)
      ∧ ((∃ c, c ∈ children ∧ VectorNode.parent_archive_id c = pid
               ∧ i_score info
                 = calc_score sv query_vector (Some (VectorNode.embedding c)))
         ∨ (∃ p, p ∈ parents ∧ ArchiveRecord.id p = pid
                 ∧ i_score info
                   = calc_score sv query_vector (ArchiveRecord.embedding p)))
      ∧ ((∃ c, c ∈ children ∧ VectorNode.parent_archive_id c = pid) ->
         ∃ c, best_chunk sv query_vector children pid c
              ∧ snippet info = VectorNode.content c)
  | None =>
      (∀ c, c ∈ children -> VectorNode.parent_archive_id c ≠ pid)
      ∧ ∀ p, p ∈ parents -> ArchiveRecord.id p ≠ pid
  end.
Proof.
  unfold aggregate. revert pid.
  induction parents as [|p parents IH] using rev_ind; intros pid.
  { simpl. pose proof (aggregate_children children pid) as Hc.
    destruct (od_get pid _) as [info|].
    - destruct Hc as (c0 & (Hin & Hp & Hmax) & Hscore & Hsnippet).
      split; [intros c Hc Hpc; rewrite Hscore; by apply Hmax|].
      split; [by intros p ?%elem_of_nil|].
      split; [left; by exists c0|].
      intros _. by exists c0.
    - split; [done|]. by intros p ?%elem_of_nil. }
  rewrite foldl_snoc.
  set (agg := foldl (aggregate_parent sv query_vector) _ parents) in *.
  unfold aggregate_parent.
  destruct (decide (ArchiveRecord.id p = pid)) as [<-|Hne].
  - specialize (IH (ArchiveRecord.id p)).
    destruct (od_get (ArchiveRecord.id p) agg) as [existing|] eqn:Hget.
    + destruct IH as (Hchildren & Hparents & Hattained & Hsnippet).
      destruct (Qlt_bool _ _) eqn:Hcmp.
      * apply Qlt_bool_true in Hcmp. rewrite od_get_set, decide_True by done.
        cbn [i_score snippet].
        split.
        { intros c Hc Hpc. apply Qlt_le_weak.
          eapply Qle_lt_trans; [|exact Hcmp]. by apply Hchildren. }
        split.
        { intros p' [Hp'| ->%list_elem_of_singleton]%elem_of_app Hid;
            [|apply Qle_refl].
          apply Qlt_le_weak. eapply Qle_lt_trans; [|exact Hcmp].
          by apply Hparents. }
        split; [|done]. right. exists p. split; [|done].
        apply elem_of_app. right. apply list_elem_of_here.
      * apply Qlt_bool_false in Hcmp. rewrite Hget.
        split; [done|]. split.
        { intros p' [Hp'| ->%list_elem_of_singleton]%elem_of_app Hid;
            [by apply Hparents|done]. }
        split; [|done].
        destruct Hattained as [?|(p0 & ? & ? & ?)]; [by left|].
        right. exists p0. set_solver.
    + destruct IH as [Hchildren Hparents].
      rewrite od_get_set, decide_True by done. cbn [i_score snippet].
      split; [intros c Hc Hpc; by destruct (Hchildren c Hc)|].
      split.
      { intros p' [Hp'| ->%list_elem_of_singleton]%elem_of_app Hid;
          [by destruct (Hparents p' Hp')|apply Qle_refl]. }
      split.
      { right. exists p. split; [|done].
        apply elem_of_app. right. apply list_elem_of_here. }
      intros (c & Hc & Hpc). by destruct (Hchildren c Hc).
  - assert (Hsame : od_get pid
              match od_get (ArchiveRecord.id p) agg with
              | Some existing =>
                  if Qlt_bool (i_score existing)
                       (calc_score sv query_vector (ArchiveRecord.embedding p))
                  then od_set (ArchiveRecord.id p)
                         {| i_score := calc_score sv query_vector
                                         (ArchiveRecord.embedding p);
                            snippet := snippet existing;
                            i_source := "parent_vector_boost";
                            child_id := child_id existing |} agg
                  else agg
              | None =>
                  od_set (ArchiveRecord.id p)
                    {| i_score := calc_score sv query_vector
                                    (ArchiveRecord.embedding p);
                       snippet := parent_snippet p;
                       i_source := "parent_vector";
                       child_id := None |} agg
              end = od_get pid agg).
    { destruct (od_get (ArchiveRecord.id p) agg) as [existing|];
        [destruct (Qlt_bool _ _); [|done]|];
        by rewrite od_get_set, decide_False. }
    rewrite Hsame. specialize (IH pid).
    destruct (od_get pid agg) as [info|].
    + destruct IH as (Hchildren & Hparents & Hattained & Hsnippet).
      split; [done|]. split.
      { intros p' [Hp'| ->%list_elem_of_singleton]%elem_of_app Hid;
          [by apply Hparents|done]. }
      split; [|done].
      destruct Hattained as [?|(p0 & ? & ? & ?)]; [by left|].
      right. exists p0. set_solver.
    + destruct IH as [Hchildren Hparents]. split; [done|].
      intros p' [Hp'| ->%list_elem_of_singleton]%elem_of_app;
        [by apply Hparents|done].
Qed.

Lemma aggregate_NoDup (children : list VectorNode.t) (parents : list ArchiveRecord.t) :
  NoDup (aggregate sv query_vector children parents).*1.
Proof.
  unfold aggregate.
  assert (Hchildren : NoDup (foldl (aggregate_child sv query_vector) [] children).*1).
  { induction children as [|c children IH] using rev_ind; [constructor|].
    rewrite foldl_snoc. unfold aggregate_child.
    destruct (od_get _ _) as [existing|];
      [destruct (Qlt_bool _ _); [|done]|]; by apply od_set_NoDup. }
  induction parents as [|p parents IH] using rev_ind; [done|].
  rewrite foldl_snoc. unfold aggregate_parent.
  destruct (od_get _ _) as [existing|];
    [destruct (Qlt_bool _ _); [|done]|]; by apply od_set_NoDup.
Qed.

End VectorRecallFacts.

Lemma record_map_of_lookup (records : list ArchiveRecord.t) k r :
  record_map_of records !! k = Some r -> ArchiveRecord.id r = k.
Proof.
  unfold record_map_of. revert k r.
  induction records as [|r0 records IH] using rev_ind; intros k r.
  - simpl. by rewrite lookup_empty.
  - rewrite foldl_app. simpl. rewrite lookup_insert.
    destruct (decide (ArchiveRecord.id r0 = k)) as [<-|Hne]; [|by apply IH].
    by intros [= <-].
Qed.

Lemma final_result_Some records min_score f pid info r :
  final_result (record_map_of records) min_score f (pid, info) = Some r ->
  vr_id r = pid ∧ vr_score r = i_score info
  ∧ matched_content (vr_metadata r) = snippet info
  ∧ (min_score <= vr_score r)%Q.
Proof.
  unfold final_result.
  destruct (record_map_of records !! pid) as [record|] eqn:Hrecord; [|done].
  apply record_map_of_lookup in Hrecord.
  destruct (Qlt_bool _ _) eqn:Hcmp; [done|]. apply Qlt_bool_false in Hcmp.
  destruct (filtered_out f record); [done|].
  by intros [= <-].
Qed.

Lemma omap_keys_sublist {X Y K : Type} (g : X -> option Y) (kx : X -> K)
    (ky : Y -> K) (l : list X) :
  (∀ x y, x ∈ l -> g x = Some y -> ky y = kx x) ->
  (ky <$> omap g l) `sublist_of` (kx <$> l).
Proof.
  induction l as [|x l IH]; intros Hkeys; [constructor|].
  rewrite omap_cons_eq, fmap_cons.
  assert (Hrest : (ky <$> omap g l) `sublist_of` (kx <$> l)).
  { apply IH. intros x' y Hx'. apply Hkeys. by apply list_elem_of_further. }
  destruct (g x) as [y|] eqn:Hg; [|by apply sublist_cons].
  rewrite fmap_cons, (Hkeys x y (list_elem_of_here _ _) Hg). by apply sublist_skip.
Qed.

(** X3. [search_by_vector] returns every document at most once, never
    more than [top_k] documents, in descending order of their score, none
    below [min_score].  The score of a returned document is the highest of
    the scores of its recalled chunks and of its own recalled vector, and
    the text it is returned with is that of its best-scoring chunk when one
    of its chunks was recalled. *)
Theorem vector_recall_best_per_document sv query_text top_k f user_id min_score :
  let results := search_by_vector sv query_text top_k f user_id min_score in
  NoDup (vr_id <$> results)
  ∧ length results ≤ top_k
  ∧ StronglySorted (descending vr_score) results
  ∧ ∀ r, r ∈ results ->
      (min_score <= vr_score r)%Q
      ∧ ∃ query_vector child_results parent_results,
          embed_text sv query_text = Returned query_vector
          ∧ nearest_chunks sv query_vector (top_k * 3) = Returned child_results
          ∧ nearest_archives sv query_vector user_id f top_k
            = Returned parent_results
          ∧ (∀ c, c ∈ child_results -> VectorNode.parent_archive_id c = vr_id r ->
                  (calc_score sv query_vector (Some (VectorNode.embedding c))
                   <= vr_score r)%Q)
          ∧ (∀ p, p ∈ parent_results -> ArchiveRecord.id p = vr_id r ->
                  (calc_score sv query_vector (ArchiveRecord.embedding p)
                   <= vr_score r)%Q)
          ∧ ((∃ c, c ∈ child_results ∧ VectorNode.parent_archive_id c = vr_id r
                   ∧ vr_score r
                     = calc_score sv query_vector (Some (VectorNode.embedding c)))
             ∨ (∃ p, p ∈ parent_results ∧ ArchiveRecord.id p = vr_id r
                     ∧ vr_score r
                       = calc_score sv query_vector (ArchiveRecord.embedding p)))
          ∧ ((∃ c, c ∈ child_results ∧ VectorNode.parent_archive_id c = vr_id r) ->
             ∃ c, best_chunk sv query_vector child_results (vr_id r) c
                  ∧ matched_content (vr_metadata r) = VectorNode.content c).
Proof.
  intros results. subst results. unfold search_by_vector.
  assert (Hempty : NoDup (vr_id <$> @nil vector_result)
                   ∧ length (@nil vector_result) ≤ top_k
                   ∧ StronglySorted (descending vr_score) (@nil vector_result)
                   ∧ ∀ r, r ∈ @nil vector_result -> False).
  { repeat split; [constructor|simpl; lia|constructor|by intros r ?%elem_of_nil]. }
  assert (Hnil : ∀ P : vector_result -> Prop,
            NoDup (vr_id <$> @nil vector_result)
            ∧ length (@nil vector_result) ≤ top_k
            ∧ StronglySorted (descending vr_score) (@nil vector_result)
            ∧ ∀ r, r ∈ @nil vector_result -> P r).
  { intros P. destruct Hempty as (? & ? & ? & Hno).
    repeat split; try done. intros r Hr. by destruct (Hno r Hr). }
  destruct (session sv); simpl; [|apply Hnil].
  destruct (embed_text sv query_text) as [query_vector|e] eqn:Hembed; [|apply Hnil].
  destruct (truthy query_vector); simpl; [|apply Hnil].
  destruct (nearest_chunks sv query_vector (top_k * 3)) as [child_results|e]
    eqn:Hchunks; [|apply Hnil].
  destruct (nearest_archives sv query_vector user_id f top_k) as [parent_results|e]
    eqn:Harchives; [|apply Hnil].
  pose proof (aggregate_NoDup sv query_vector child_results parent_results) as Hkeys.
  pose proof (aggregate_parents sv query_vector child_results parent_results) as Hagg.
  destruct (aggregate sv query_vector child_results parent_results)
    as [|entry aggregated] eqn:Haggregate; [apply Hnil|].
  destruct (documents sv) as [table|e]; [|apply Hnil].
  set (records := rows_with_ids table ((entry :: aggregated).*1)).
  set (final_results :=
         omap (final_result (record_map_of records) min_score f) (entry :: aggregated)).
  assert (Hin : ∀ r, r ∈ take top_k (sort_desc vr_score final_results) ->
                     r ∈ final_results).
  { intros r Hr. rewrite <- (sort_desc_Permutation vr_score final_results).
    eapply elem_of_sublist; [exact Hr|apply sublist_take]. }
  split.
  { rewrite fmap_take. eapply sublist_NoDup; [|apply sublist_take].
    rewrite sort_desc_Permutation.
    eapply sublist_NoDup; [exact Hkeys|].
    apply omap_keys_sublist. intros [pid info] r _ Hr.
    by apply final_result_Some in Hr as [? _]. }
  split; [rewrite length_take; lia|].
  split; [apply StronglySorted_take, sort_desc_sorted|].
  intros r Hr. apply Hin in Hr.
  apply list_elem_of_omap in Hr as ([pid info] & Hentry & Hr).
  apply final_result_Some in Hr as (Hid & Hscore & Hcontent & Hmin).
  split; [done|]. exists query_vector, child_results, parent_results.
  split; [done|]. split; [done|]. split; [done|].
  specialize (Hagg pid).
  assert (Hget : od_get pid (entry :: aggregated) = Some info)
    by (by apply od_get_elem).
  rewrite Hget in Hagg. rewrite Hid, Hscore, Hcontent. exact Hagg.
Qed.

Section MergeFacts.
Variable sv : services.

(** Every entry of [combined] is stored under its own id, and no key
    occurs twice. *)
Lemma merge_keys keywords vector_results keyword_results :
  NoDup (merge keywords vector_results keyword_results).*1
  ∧ Forall (fun entry => h_id entry.2 = entry.1)
      (merge keywords vector_results keyword_results).
Proof.
  unfold merge. generalize (max_id_of vector_results keyword_results).
  intros max_id.
  assert (Hvector : NoDup (foldl add_vector [] vector_results).*1
                    ∧ Forall (fun entry : doc_key * hit => h_id entry.2 = entry.1)
                        (foldl add_vector [] vector_results)).
  { induction vector_results as [|r results [IHkeys IHid]] using rev_ind.
    { split; constructor. }
    rewrite foldl_app. simpl. unfold add_vector at 1 3. split.
    - by apply od_set_NoDup.
    - apply Forall_forall. intros entry [->|Hin]%od_set_elem; [done|].
      rewrite Forall_forall in IHid. by apply IHid. }
  induction keyword_results as [|record records [IHkeys IHid]] using rev_ind;
    [done|].
  rewrite foldl_app. simpl. unfold add_keyword at 1 3.
  destruct (keyword_snippet keywords record) as [snip origin].
  rewrite Forall_forall in IHid.
  destruct (od_get _ _) as [existing|] eqn:Hget.
  - destruct (Qlt_bool _ _); [|by rewrite Forall_forall]. split.
    + by apply od_set_NoDup.
    + apply Forall_forall. intros entry [->|Hin]%od_set_elem; [|by apply IHid].
      apply od_get_Some in Hget. exact (IHid _ Hget).
  - split.
    + by apply od_set_NoDup.
    + apply Forall_forall. intros entry [->|Hin]%od_set_elem; [done|].
      by apply IHid.
Qed.

Lemma merge_ids_NoDup keywords vector_results keyword_results :
  NoDup (h_id <$> (merge keywords vector_results keyword_results).*2).
Proof.
  destruct (merge_keys keywords vector_results keyword_results) as [Hkeys Hid].
  replace (h_id <$> (merge keywords vector_results keyword_results).*2)
    with (merge keywords vector_results keyword_results).*1; [done|].
  rewrite <- list_fmap_compose. apply Forall_fmap_ext_1.
  eapply Forall_impl; [exact Hid|]. intros entry Hentry. simpl. by symmetry.
Qed.

Lemma finalized_NoDup keywords (items : list hit) (reranked : list (nat * Q)) :
  NoDup (h_id <$> items) -> NoDup reranked.*1 ->
  NoDup (h_id <$> omap (finalized sv keywords items) reranked).
Proof.
  intros Hitems. induction reranked as [|entry reranked IH]; [constructor|].
  rewrite fmap_cons. intros [Hentry Hrest]%NoDup_cons.
  rewrite omap_cons_eq.
  destruct (finalized sv keywords items entry) as [h|] eqn:Hfinal; [|by apply IH].
  rewrite fmap_cons. apply NoDup_cons. split; [|by apply IH].
  intros (h' & Heq & Hh')%list_elem_of_fmap.
  apply list_elem_of_omap in Hh' as (entry' & Hentry' & Hfinal').
  apply finalized_Some in Hfinal as (item & Hitem & -> & _).
  apply finalized_Some in Hfinal' as (item' & Hitem' & -> & _).
  simpl in Heq. apply Hentry.
  assert (Hsame : entry.1 = entry'.1).
  { eapply NoDup_lookup; [exact Hitems| |].
    - by rewrite list_lookup_fmap, Hitem.
    - by rewrite list_lookup_fmap, Hitem', Heq. }
  rewrite Hsame. by apply list_elem_of_fmap_2.
Qed.

Lemma rank_NoDup query_text keywords top_k (items : list hit) :
  NoDup (h_id <$> items) ->
  NoDup (h_id <$> rank sv query_text keywords top_k items).
Proof.
  intros Hitems.
  destruct (rank_spec sv query_text keywords top_k items) as [_ Hrank].
  destruct (rerank sv query_text (candidate_text <$> items) top_k)
    as [reranked|e] eqn:Hrerank.
  - destruct Hrank as (_ & -> & _).
    apply finalized_NoDup; [done|].
    by destruct (rerank_spec sv _ _ _ _ Hrerank) as (_ & _ & ?).
  - destruct Hrank as [-> _]. rewrite fmap_take.
    eapply sublist_NoDup; [|apply sublist_take].
    by rewrite sort_desc_Permutation.
Qed.

End MergeFacts.

(** X4. No two hits of a result have the same id: a result holds a
    document at most once as a vector hit, under the string of its id, and
    at most once as a keyword hit, under the integer, so at most twice. *)
Theorem one_hit_per_recall_path sv now query_text keywords top_k user_id
    time_range file_type hits :
  hybrid_search sv now query_text keywords top_k user_id time_range file_type
    = Returned hits ->
  NoDup (h_id <$> hits)
  ∧ ∀ doc, length (filter (fun h => doc_of (h_id h) = doc) hits) ≤ 2.
Proof.
  unfold hybrid_search, hybrid_search_from.
  destruct (filter_raising _ _) as [vector_results|e]; [|done].
  destruct (filter_raising _ _) as [keyword_results|e]; [|done].
  intros [= <-].
  assert (Hids : NoDup (h_id <$> rank sv query_text
                          (resolve_keywords query_text keywords) top_k
                          (merge (resolve_keywords query_text keywords)
                             vector_results keyword_results).*2))
    by apply rank_NoDup, merge_ids_NoDup.
  split; [done|]. intros doc.
  set (hits := rank _ _ _ _ _) in *.
  rewrite <- (length_fmap h_id).
  change 2 with (length [StrKey doc; IntKey doc]).
  apply submseteq_length, NoDup_submseteq.
  - eapply sublist_NoDup; [exact Hids|]. apply fmap_sublist, sublist_filter.
  - intros k (h & -> & [Hdoc _]%list_elem_of_filter)%list_elem_of_fmap.
    destruct (h_id h) as [n|n]; simpl in Hdoc; subst n; set_solver.
Qed.

Lemma one_hit_per_recall_path_witness :
  ∃ hits, both_paths_run = Returned hits
          ∧ NoDup (h_id <$> hits)
          ∧ length (filter (fun h => doc_of (h_id h) = 1%Z) hits) ≤ 2.
Proof.
  destruct both_paths_run as [hits|e] eqn:Hrun; [|by vm_compute in Hrun].
  exists hits. split; [done|].
  unfold both_paths_run, sample_search in Hrun.
  destruct (one_hit_per_recall_path _ _ _ _ _ _ _ _ _ Hrun) as [Hids Htwice].
  split; [exact Hids|apply Htwice].
Defined.

(** X6. A time range that is a single date or month sets a lower bound
    only: the month ["2023-11"] lets through every document dated on or
    after 2023-11-01, those of later months and years included. *)
Theorem single_token_has_no_upper_bound now time_range :
  match_last (strip time_range) = None ->
  split_tilde (strip time_range) = None ->
  range_bounds now time_range
  = Returned (instant_of <$> _parse_date (strip time_range), None)
  ∧ ∀ candidate semantic_dt start fallback_dt,
      time_range ≠ [] ->
      _parse_date (strip time_range) = Some start ->
      _parse_date candidate = Some semantic_dt ->
      le_instant (instant_of start) (instant_of semantic_dt) = Returned true ->
      _match_time_range now (Some candidate) (Some time_range) fallback_dt
      = Returned true.
Proof.
  intros Hlast Htilde.
  assert (Hbounds : range_bounds now time_range
                    = Returned (instant_of <$> _parse_date (strip time_range), None)).
  { unfold range_bounds. by rewrite Hlast, Htilde. }
  split; [done|].
  intros candidate semantic_dt start fallback_dt Hrange Hstart Hdate Hle.
  unfold _match_time_range.
  destruct time_range as [|ch time_range]; [done|].
  rewrite Hbounds, Hdate, Hstart. exact Hle.
Qed.

Lemma single_token_has_no_upper_bound_witness :
  _match_time_range sample_now (Some (T "2024-03-09")) (Some (T "2023-11")) None
  = Returned true.
Proof.
  destruct (single_token_has_no_upper_bound sample_now (T "2023-11"))
    as [_ Hpass]; [reflexivity|reflexivity|].
  eapply Hpass; [done|reflexivity|reflexivity|].
  by vm_compute.
Defined.

End RetrievalFacts.

(** ** Names and target paths *)

Section NamingFacts.
Import Dates Naming.

Lemma isspace_not_safe c : isspace c = true -> is_safe c = false.
Proof. destruct c as [[] [] [] [] [] [] [] []]; vm_compute; congruence. Qed.

Lemma slash_not_safe : is_safe "/"%char = false.
Proof. reflexivity. Qed.

Lemma sub_unsafe_safe s : ∀ in_run,
  Forall (fun c => is_safe c = true) (sub_unsafe in_run s).
Proof.
  induction s as [|c s IH]; intros in_run; simpl; [constructor|].
  destruct (is_safe c) eqn:Hc; [by constructor|].
  destruct in_run; [apply IH|]. constructor; [reflexivity|apply IH].
Qed.

Lemma sub_unsafe_id s in_run :
  Forall (fun c => is_safe c = true) s -> sub_unsafe in_run s = s.
Proof.
  intros Hs. revert in_run. induction Hs as [|c s Hc _ IH]; intros in_run; [done|].
  simpl. by rewrite Hc, IH.
Qed.

Lemma lstrip_id (s : text) :
  Forall (fun c => isspace c = false) s -> lstrip s = s.
Proof. destruct 1 as [|c s Hc _]; [done|]. simpl. by rewrite Hc. Qed.

Lemma strip_id (s : text) :
  Forall (fun c => isspace c = false) s -> strip s = s.
Proof.
  intros Hs. unfold strip, rstrip. rewrite (lstrip_id s Hs).
  rewrite lstrip_id; [apply reverse_involutive|]. by apply Forall_reverse.
Qed.

Lemma safe_not_space (s : text) :
  Forall (fun c => is_safe c = true) s -> Forall (fun c => isspace c = false) s.
Proof.
  intros Hs. eapply Forall_impl; [exact Hs|].
  intros c Hc. destruct (isspace c) eqn:Hsp; [|done].
  apply isspace_not_safe in Hsp. congruence.
Qed.

(** X9. A sanitised user name is never empty and is made of letters,
    digits, underscores, dots and hyphens only, so it holds no slash and
    no white space.  A name that is already of this kind is returned as it
    is: sanitising is idempotent, and the name [".."] passes unchanged. *)
Theorem sanitized_username_is_safe (username : text) :
  _sanitize_username username ≠ []
  ∧ Forall (fun c => is_safe c = true) (_sanitize_username username)
  ∧ ("/"%char ∉ _sanitize_username username)
  ∧ (∀ safe : text, safe ≠ [] -> Forall (fun c => is_safe c = true) safe ->
       _sanitize_username safe = safe)
  ∧ _sanitize_username (_sanitize_username username) = _sanitize_username username
  ∧ _sanitize_username (T "..") = T "..".
Proof.
  assert (Hsafe : Forall (fun c => is_safe c = true) (_sanitize_username username)).
  { unfold _sanitize_username. destruct username as [|c u]; [by repeat constructor|].
    pose proof (sub_unsafe_safe (strip (c :: u)) false) as Hsub.
    destruct (sub_unsafe false (strip (c :: u))); [by repeat constructor|done]. }
  assert (Hfull : _sanitize_username username ≠ []).
  { unfold _sanitize_username. destruct username as [|c u]; [done|].
    by destruct (sub_unsafe false (strip (c :: u))). }
  assert (Hfixed : ∀ safe : text, safe ≠ [] ->
            Forall (fun c => is_safe c = true) safe ->
            _sanitize_username safe = safe).
  { intros safe Hne Hs. unfold _sanitize_username.
    destruct safe as [|c s]; [done|].
    rewrite strip_id by (by apply safe_not_space).
    by rewrite sub_unsafe_id. }
  split; [done|]. split; [done|]. split.
  { intros Hin. rewrite Forall_forall in Hsafe. specialize (Hsafe _ Hin).
    by rewrite slash_not_safe in Hsafe. }
  split; [done|]. split; [by apply Hfixed|reflexivity].
Qed.

(** *** File names *)

Lemma digit_char_is_digit d : is_digit (digit_char d) = true.
Proof.
  unfold digit_char. pose proof (Z.mod_pos_bound d 10) as Hd.
  set (k := Z.to_nat (d mod 10)). assert (Hk : k < 10) by lia.
  clearbody k. do 10 (destruct k as [|k]; [reflexivity|]). lia.
Qed.

Lemma digit_not_special c :
  is_digit c = true -> c ≠ "/"%char ∧ c ≠ "."%char.
Proof. intros Hc. split; intros ->; by vm_compute in Hc. Qed.

Lemma digit_char_not_slash d : "/"%char ≠ digit_char d.
Proof.
  intros Heq. pose proof (digit_char_is_digit d) as Hd.
  rewrite <- Heq in Hd. by vm_compute in Hd.
Qed.

Lemma split_slash_no_slash (s : text) : ∀ cur,
  "/"%char ∉ s -> split_slash cur s = [reverse cur ++ s].
Proof.
  induction s as [|c s IH]; intros cur Hs; simpl.
  - by rewrite app_nil_r.
  - apply not_elem_of_cons in Hs as [Hc Hs].
    rewrite decide_False by done. rewrite IH by done.
    by rewrite reverse_cons, <- app_assoc.
Qed.

Lemma split_slash_parts (s : text) : ∀ cur p,
  "/"%char ∉ cur -> p ∈ split_slash cur s -> "/"%char ∉ p.
Proof.
  induction s as [|c s IH]; intros cur p Hcur; simpl.
  - intros ->%list_elem_of_singleton. by rewrite elem_of_reverse.
  - destruct (decide (c = "/"%char)) as [->|Hc].
    + intros [->|Hp]%elem_of_cons; [by rewrite elem_of_reverse|].
      eapply IH; [|exact Hp]. apply not_elem_of_nil.
    + apply IH. by apply not_elem_of_cons.
Qed.

(** The name of a path holds no slash. *)
Lemma name_no_slash (s : text) : "/"%char ∉ name (parse s).
Proof.
  unfold name, parse. cbn [parts].
  destruct (last _) as [p|] eqn:Hlast; simpl; [|apply not_elem_of_nil].
  apply last_Some_elem_of in Hlast. apply list_elem_of_filter in Hlast as [_ Hp].
  eapply split_slash_parts; [|exact Hp]. apply not_elem_of_nil.
Qed.

(** A text without slash, other than the empty text and ["."], is one
    part, and a path joined with it is the path of that entry. *)
Lemma parse_plain (s : text) :
  "/"%char ∉ s -> s ≠ [] -> s ≠ T "." ->
  parse s = {| root := []; parts := [s] |}.
Proof.
  intros Hslash Hne Hdot. unfold parse. rewrite split_slash_no_slash by done.
  simpl. rewrite filter_cons, decide_True by done. rewrite filter_nil. f_equal.
  destruct s as [|c s]; [done|].
  destruct (decide (c = "/"%char)) as [->|Hc]; [|by repeat case_match].
  destruct Hslash. apply list_elem_of_here.
Qed.

Lemma joinpath_plain (dir : Path) (s : text) :
  "/"%char ∉ s -> s ≠ [] -> s ≠ T "." -> joinpath dir s = child dir s.
Proof. intros. unfold joinpath. by rewrite parse_plain. Qed.

Lemma stem_suffix_no_slash (n : text) :
  "/"%char ∉ n -> ("/"%char ∉ stem_of n) ∧ ("/"%char ∉ suffix_of n).
Proof.
  intros Hn. unfold stem_of, suffix_of. destruct (suffix_start n) as [i|].
  - split; intros Hin; apply Hn.
    + eapply elem_of_sublist; [exact Hin|]. apply sublist_take.
    + eapply elem_of_sublist; [exact Hin|]. apply sublist_drop.
  - split; [done|apply not_elem_of_nil].
Qed.

Lemma rfind_dot_spec (s : text) : ∀ i found j,
  rfind_dot s i found = Some j ->
  found = Some j ∨ (i ≤ j ∧ s !! (j - i) = Some "."%char).
Proof.
  induction s as [|c s IH]; intros i found j; simpl; [by left|].
  intros Hj. apply IH in Hj as [Hj|[Hle Hj]].
  - destruct (decide (c = "."%char)) as [->|_]; [|by left].
    injection Hj as <-. right. split; [done|]. by rewrite Nat.sub_diag.
  - right. split; [lia|]. by replace (j - i) with (S (j - S i)) by lia.
Qed.

Lemma suffix_start_dot (n : text) i :
  suffix_start n = Some i -> n !! i = Some "."%char.
Proof.
  unfold suffix_start. destruct (rfind_dot n 0 None) as [j|] eqn:Hj; [|done].
  destruct (_ && _); [|done]. intros [= <-].
  apply rfind_dot_spec in Hj as [?|[_ Hj]]; [done|]. by rewrite Nat.sub_0_r in Hj.
Qed.

(** A name that starts with a date and a separator has a stem that starts
    with them. *)
Lemma dated_stem (y1 y2 y3 y4 m1 m2 d1 d2 : ascii) (rest : text) :
  forallb is_digit [y1; y2; y3; y4; m1; m2; d1; d2] = true ->
  has_dashed_date
    (stem_of (y1 :: y2 :: y3 :: y4 :: "-"%char :: m1 :: m2 :: "-"%char
              :: d1 :: d2 :: "-"%char :: rest)) = true.
Proof.
  intros Hdigits.
  set (n := y1 :: y2 :: y3 :: y4 :: "-"%char :: m1 :: m2 :: "-"%char
            :: d1 :: d2 :: "-"%char :: rest).
  assert (Hn : has_dashed_date n = true).
  { unfold n, has_dashed_date. by rewrite Hdigits. }
  unfold stem_of. destruct (suffix_start n) as [i|] eqn:Hi; [|done].
  apply suffix_start_dot in Hi.
  assert (Hnodot : "."%char ∉ [y1; y2; y3; y4; m1; m2; d1; d2]).
  { intros Hin%list_elem_of_In. rewrite forallb_forall in Hdigits.
    by apply Hdigits in Hin. }
  unfold n in *.
  do 11 (destruct i as [|i];
         [simpl in Hi;
          first [discriminate Hi
                |injection Hi as ->; destruct Hnodot;
                 repeat first [apply list_elem_of_here|apply list_elem_of_further]]|]).
  simpl. unfold has_dashed_date in Hn. exact Hn.
Qed.

Lemma pretty_N_char_digit (x : N) : is_digit (pretty_N_char x) = true.
Proof. unfold pretty_N_char. by repeat case_match. Qed.

Lemma pretty_N_go_digits (x : N) : ∀ s : string,
  Forall (fun c => is_digit c = true) (T s) ->
  Forall (fun c => is_digit c = true) (T (pretty_N_go x s)).
Proof.
  induction x as [x IH] using (well_founded_induction N.lt_wf_0). intros s Hs.
  destruct (decide (x = 0%N)) as [->|Hx]; [by rewrite pretty_N_go_0|].
  rewrite pretty_N_go_step by lia. apply IH.
  - apply N.div_lt; lia.
  - unfold T. simpl. constructor; [apply pretty_N_char_digit|done].
Qed.

(** The year as [strftime] writes it: digits, after a minus sign for a
    negative number, which no date has. *)
Lemma pretty_Z_plain (y : Z) :
  Forall (fun c => is_digit c = true ∨ c = "-"%char) (T (pretty y)).
Proof.
  assert (Hpos : ∀ p, Forall (fun c => is_digit c = true ∨ c = "-"%char)
                        (T (pretty (Npos p)))).
  { intros p. apply (Forall_impl (fun c => is_digit c = true)); [|by intros c ?; left].
    unfold pretty, pretty_N. rewrite decide_False by done.
    apply pretty_N_go_digits. constructor. }
  destruct y as [|p|p].
  - by repeat constructor; left.
  - apply Hpos.
  - change (T (pretty (Z.neg p))) with ("-"%char :: T (pretty (Npos p))).
    constructor; [by right|apply Hpos].
Qed.

(** From the year 1000 on the year has four digits. *)
Lemma strftime_Y_four today :
  (1000 <= year today <= 9999)%Z ->
  strftime_Y today
  = [digit_char (year today / 1000); digit_char (year today / 100);
     digit_char (year today / 10); digit_char (year today)].
Proof.
  intros Hyear. unfold strftime_Y.
  assert (Hall : Forall (fun y => T (pretty y)
                                  = [digit_char (y / 1000); digit_char (y / 100);
                                     digit_char (y / 10); digit_char y])
                   (seqZ 1000 9000)).
  { apply (bool_decide_unpack _). by vm_compute. }
  rewrite Forall_forall in Hall. apply Hall. apply elem_of_seqZ. lia.
Qed.

(** The name made for a suggested name without a date is one path
    component, whatever the day. *)
Lemma normalized_plain today (suggested_name : text) :
  has_compact_date (stem_of (name (parse suggested_name)))
  || has_dashed_date (stem_of (name (parse suggested_name))) = false ->
  ("/"%char ∉ _normalize_filename today suggested_name)
  ∧ _normalize_filename today suggested_name ≠ []
  ∧ _normalize_filename today suggested_name ≠ T ".".
Proof.
  intros Hplain. unfold _normalize_filename. rewrite Hplain.
  destruct (stem_suffix_no_slash (name (parse suggested_name))
              (name_no_slash suggested_name)) as [Hstem Hsuffix].
  set (stem := stem_of _) in *. set (suffix := suffix_of _) in *.
  unfold date_part, strftime_Y, strftime_m, strftime_d.
  split.
  { assert (Hyear : "/"%char ∉ T (pretty (year today))).
    { intros Hin. pose proof (pretty_Z_plain (year today)) as Hy.
      rewrite Forall_forall in Hy.
      by destruct (Hy _ Hin) as [Hd|Hd]; vm_compute in Hd. }
    assert (Hhyphen : "/"%char ∉ T "-") by (by intros [=]%list_elem_of_singleton).
    rewrite !not_elem_of_app, !not_elem_of_cons.
    repeat split; try done; try apply digit_char_not_slash;
      apply not_elem_of_nil. }
  split; intros Heq; apply (f_equal length) in Heq;
    rewrite !length_app in Heq; simpl in Heq; lia.
Qed.

(** From the year 1000 on it starts with the date of the day. *)
Lemma normalized_dated today (suggested_name : text) :
  (1000 <= year today <= 9999)%Z ->
  has_compact_date (stem_of (name (parse suggested_name)))
  || has_dashed_date (stem_of (name (parse suggested_name))) = false ->
  has_dashed_date (stem_of (_normalize_filename today suggested_name)) = true.
Proof.
  intros Hyear Hplain. unfold _normalize_filename. rewrite Hplain.
  unfold date_part. rewrite strftime_Y_four by done.
  unfold strftime_m, strftime_d. simpl.
  apply dated_stem. cbn [forallb]. by rewrite !digit_char_is_digit.
Qed.

(** X10. A normalised file name always carries a date at its front: a
    name whose stem starts with a date is kept as it is, any other name
    gets the date of today in front of its last path component.
    Normalising is therefore idempotent, whatever the day of the second
    call is. *)
Theorem normalized_name_is_dated today today' (suggested_name : text) :
  (1000 <= year today <= 9999)%Z ->
  let final_name := _normalize_filename today suggested_name in
  (has_compact_date (stem_of (name (parse final_name)))
   || has_dashed_date (stem_of (name (parse final_name))) = true)
  ∧ _normalize_filename today' final_name = final_name
  ∧ (final_name = suggested_name
     ∨ final_name
       = date_part today ++ T "-" ++ stem_of (name (parse suggested_name))
         ++ suffix_of (name (parse suggested_name))).
Proof.
  intros Hyear final_name.
  assert (Hdated : has_compact_date (stem_of (name (parse final_name)))
                   || has_dashed_date (stem_of (name (parse final_name))) = true).
  { subst final_name.
    destruct (has_compact_date (stem_of (name (parse suggested_name)))
              || has_dashed_date (stem_of (name (parse suggested_name))))
      eqn:Hgiven.
    - unfold _normalize_filename. by rewrite Hgiven.
    - destruct (normalized_plain today suggested_name Hgiven)
        as (Hslash & Hne & Hdot).
      pose proof (normalized_dated today suggested_name Hyear Hgiven) as Hdate.
      rewrite parse_plain by done. unfold name. simpl.
      rewrite Hdate. apply orb_true_r. }
  split; [done|]. split.
  - unfold _normalize_filename at 1. by rewrite Hdated.
  - subst final_name. clear Hdated. unfold _normalize_filename.
    destruct (has_compact_date (stem_of (name (parse suggested_name))) || _);
      [by left|by right].
Qed.

Lemma normalized_name_is_dated_witness :
  _normalize_filename Retrieval.sample_now (T "invoice.pdf")
  = T "2024-03-09-invoice.pdf"
  ∧ _normalize_filename Retrieval.sample_now (T "2024-03-09-invoice.pdf")
    = T "2024-03-09-invoice.pdf".
Proof.
  destruct (normalized_name_is_dated Retrieval.sample_now Retrieval.sample_now
              (T "invoice.pdf")) as (_ & Hagain & _); [done|].
  split; [reflexivity|exact Hagain].
Defined.

(** *** Target paths *)

Lemma pretty_nat_digits (n : nat) :
  Forall (fun c => is_digit c = true) (T (pretty n)).
Proof.
  unfold pretty, pretty_nat, pretty, pretty_N.
  destruct (decide (N.of_nat n = 0%N)); [by repeat constructor|].
  apply pretty_N_go_digits. constructor.
Qed.

Lemma T_inj (s1 s2 : string) : T s1 = T s2 -> s1 = s2.
Proof.
  unfold T. intros Heq.
  rewrite <- (string_of_list_ascii_of_string s1), Heq.
  apply string_of_list_ascii_of_string.
Qed.

Lemma numbered_inj (final_name : text) c1 c2 :
  numbered final_name c1 = numbered final_name c2 -> c1 = c2.
Proof.
  unfold numbered. intros Heq.
  apply app_inv_head, app_inv_head, app_inv_tail, T_inj in Heq.
  by apply pretty_nat_inj in Heq.
Qed.

Lemma numbered_plain (final_name : text) counter :
  ("/"%char ∉ numbered final_name counter)
  ∧ numbered final_name counter ≠ []
  ∧ numbered final_name counter ≠ T ".".
Proof.
  unfold numbered.
  destruct (stem_suffix_no_slash (name (parse final_name))
              (name_no_slash final_name)) as [Hstem Hsuffix].
  set (stem := stem_of _) in *. set (suffix := suffix_of _) in *.
  assert (Hunder : "_"%char ∈ stem ++ T "_" ++ T (pretty counter) ++ suffix).
  { apply elem_of_app. right. apply list_elem_of_here. }
  split.
  - rewrite !not_elem_of_app. split; [done|]. split.
    { by intros ?%list_elem_of_singleton. }
    split; [|done]. intros Hin.
    pose proof (pretty_nat_digits counter) as Hdigits.
    rewrite Forall_forall in Hdigits. by apply Hdigits in Hin.
  - split; intros Heq; rewrite Heq in Hunder.
    + by apply elem_of_nil in Hunder.
    + by apply list_elem_of_singleton in Hunder.
Qed.

Section FreePathFacts.
Variable exists_ : Path -> bool.
Variables (target_dir : Path) (final_name : text).

Lemma free_path_spec fuel : ∀ counter final_path,
  match free_path exists_ target_dir final_name fuel counter final_path with
  | Some p =>
      exists_ p = false
      ∧ (p = final_path
         ∨ ∃ i, i < fuel ∧ p = child target_dir (numbered final_name (counter + i)))
  | None =>
      ∀ i, i < fuel ->
           exists_ (child target_dir (numbered final_name (counter + i))) = true
  end.
Proof.
  induction fuel as [|fuel IH]; intros counter final_path; simpl.
  - destruct (exists_ final_path) eqn:Hexists; [intros i; lia|].
    split; [done|by left].
  - destruct (exists_ final_path) eqn:Hexists; [|split; [done|by left]].
    destruct (numbered_plain final_name counter) as (Hslash & Hne & Hdot).
    rewrite joinpath_plain by done.
    specialize (IH (S counter) (child target_dir (numbered final_name counter))).
    destruct (free_path _ _ _ _ _ _) as [p|] eqn:Hfree.
    + destruct IH as [Hfree' [->|(i & Hi & ->)]]; (split; [done|]); right.
      * exists 0. split; [lia|]. by rewrite Nat.add_0_r.
      * exists (S i). split; [lia|]. by replace (counter + S i) with (S counter + i) by lia.
    + intros i Hi. destruct i as [|i].
      * rewrite Nat.add_0_r.
        destruct fuel as [|fuel']; simpl in Hfree;
          destruct (exists_ (child target_dir (numbered final_name counter)));
          done.
      * replace (counter + S i) with (S counter + i) by lia. apply IH. lia.
Qed.

(** A directory with fewer entries than the loop has turns has a free
    numbered name within these turns. *)
Lemma free_path_found (listing : list text) fuel counter final_path :
  (∀ entry, exists_ (child target_dir entry) = true -> entry ∈ listing) ->
  length listing < fuel ->
  is_Some (free_path exists_ target_dir final_name fuel counter final_path).
Proof.
  intros Hlisting Hfuel.
  pose proof (free_path_spec fuel counter final_path) as Hspec.
  destruct (free_path _ _ _ _ _ _) as [p|]; [by eexists|]. exfalso.
  set (tried := (fun i => numbered final_name (counter + i)) <$> seq 0 fuel).
  assert (Hdistinct : NoDup tried).
  { apply NoDup_fmap_2; [|apply NoDup_seq].
    intros i j Hij. apply numbered_inj in Hij. lia. }
  assert (Hin : ∀ entry, entry ∈ tried -> entry ∈ listing).
  { intros entry (i & -> & Hi%elem_of_seq)%list_elem_of_fmap.
    apply Hlisting, Hspec. lia. }
  pose proof (submseteq_length _ _ (NoDup_submseteq _ _ Hdistinct Hin)) as Hlen.
  unfold tried in Hlen. rewrite length_fmap, length_seq in Hlen. lia.
Qed.

End FreePathFacts.

(** X11. Given a listing of the entries of the target directory and more
    turns than the listing has entries, [_generate_target_path] returns,
    and the path it returns does not exist: a file already stored is never
    overwritten.  When the path of the normalised name is free it is the
    one returned.  For a suggested name without a slash the path is an
    entry of the target directory, and the relative path is that entry
    under the relative directory. *)
Theorem target_path_is_free exists_ today fuel (listing : list text)
    (suggested_name year month file_type_dir username mount_path : text)
    storage_root_id :
  let relative_dir := relative_dir_of year month file_type_dir username in
  let target_dir := target_dir_of year month file_type_dir username mount_path in
  let final_name := _normalize_filename today suggested_name in
  (∀ entry, exists_ (child target_dir entry) = true -> entry ∈ listing) ->
  length listing < fuel ->
  ∃ final_path relative_path,
    _generate_target_path exists_ today fuel None suggested_name year month
      file_type_dir username mount_path storage_root_id
    = Some (Returned (final_path, relative_path, storage_root_id))
    ∧ exists_ final_path = false
    ∧ relative_path = as_posix (joinpath relative_dir (name final_path))
    ∧ (exists_ (joinpath target_dir final_name) = false ->
       final_path = joinpath target_dir final_name)
    ∧ ("/"%char ∉ suggested_name ->
       ∃ entry, final_path = child target_dir entry
                ∧ ("/"%char ∉ entry)
                ∧ relative_path = as_posix (child relative_dir entry)).
Proof.
  intros relative_dir target_dir final_name Hlisting Hfuel.
  unfold _generate_target_path. fold relative_dir target_dir final_name.
  destruct (free_path_found exists_ target_dir final_name listing fuel 1
              (joinpath target_dir final_name) Hlisting Hfuel) as [p Hp].
  pose proof (free_path_spec exists_ target_dir final_name fuel 1
                (joinpath target_dir final_name)) as Hspec.
  rewrite Hp in Hspec. destruct Hspec as [Hfree Hwhich]. rewrite Hp.
  exists p, (as_posix (joinpath relative_dir (name p))).
  split; [done|]. split; [done|]. split; [done|]. split.
  { intros Hfirst. destruct fuel as [|fuel']; simpl in Hp; rewrite Hfirst in Hp;
      by injection Hp as <-. }
  intros Hslash.
  assert (Hentry : ∃ entry, p = child target_dir entry ∧ ("/"%char ∉ entry)
                            ∧ entry ≠ [] ∧ entry ≠ T ".").
  { destruct Hwhich as [->|(i & _ & ->)].
    - exists final_name.
      assert (Hfinal : ("/"%char ∉ final_name) ∧ final_name ≠ []
                       ∧ final_name ≠ T ".").
      { subst final_name. unfold _normalize_filename.
        destruct (has_compact_date (stem_of (name (parse suggested_name))) || _)
          eqn:Hgiven.
        - split; [done|]. split; intros ->; by vm_compute in Hgiven.
        - pose proof (normalized_plain today suggested_name Hgiven) as Hplain.
          unfold _normalize_filename in Hplain. rewrite Hgiven in Hplain.
          by destruct Hplain as (? & ? & ?). }
      destruct Hfinal as (? & ? & ?). by rewrite joinpath_plain.
    - eexists. split; [done|]. apply numbered_plain. }
  destruct Hentry as (entry & -> & Hplain & Hne & Hdot).
  exists entry. split; [done|]. split; [done|].
  assert (Hname : name (child target_dir entry) = entry).
  { unfold name, child. cbn [parts]. by rewrite last_snoc. }
  rewrite Hname. by rewrite joinpath_plain.
Qed.

(** A directory that holds the invoice of the day and its first copy. *)
Lemma target_path_is_free_witness :
  let taken (p : Path) :=
    bool_decide (name p ∈ [T "2024-03-09-invoice.pdf"; T "2024-03-09-invoice_1.pdf"]) in
  ∃ final_path relative_path,
    _generate_target_path taken Retrieval.sample_now 3 None (T "invoice.pdf")
      (T "2024") (T "03") (T "Documents") (T "alice") (T "/app/data") 1
    = Some (Returned (final_path, relative_path, 1%Z))
    ∧ taken final_path = false.
Proof.
  intros taken.
  destruct (target_path_is_free taken Retrieval.sample_now 3
              [T "2024-03-09-invoice.pdf"; T "2024-03-09-invoice_1.pdf"]
              (T "invoice.pdf") (T "2024") (T "03") (T "Documents") (T "alice")
              (T "/app/data") 1)
    as (final_path & relative_path & Hpath & Hfree & _).
  - intros entry Htaken. unfold taken in Htaken.
    apply bool_decide_eq_true_1 in Htaken.
    revert Htaken. unfold name, child. cbn [parts]. by rewrite last_snoc.
  - simpl. lia.
  - exists final_path, relative_path. split; [exact Hpath|exact Hfree].
Defined.

End NamingFacts.

(** ** File types and folders *)

Section FileTypeFacts.
Import Archiver.

(** The suffixes that one of the two tables knows. *)
Lemma known_suffix_cases (P : string -> Prop) :
  Forall P
    [".pdf"; ".doc"; ".docx"; ".txt"; ".xls"; ".xlsx"; ".ppt"; ".pptx"; ".csv";
     ".md"; ".jpg"; ".jpeg"; ".png"; ".heic"; ".gif"; ".bmp"; ".webp"; ".svg";
     ".mp3"; ".wav"; ".flac"; ".aac"; ".ogg"; ".m4a";
     ".mp4"; ".avi"; ".mov"; ".mkv"; ".wmv"; ".flv"; ".webm";
     ".memo"; ".note"]%string ->
  (∀ s, s ∉ [".pdf"; ".doc"; ".docx"; ".txt"; ".xls"; ".xlsx"; ".ppt"; ".pptx";
             ".csv"; ".md"; ".jpg"; ".jpeg"; ".png"; ".heic"; ".gif"; ".bmp";
             ".webp"; ".svg"; ".mp3"; ".wav"; ".flac"; ".aac"; ".ogg"; ".m4a";
             ".mp4"; ".avi"; ".mov"; ".mkv"; ".wmv"; ".flv"; ".webm";
             ".memo"; ".note"]%string -> P s) ->
  ∀ s, P s.
Proof.
  intros Hknown Hother s.
  destruct (decide (s ∈ [".pdf"; ".doc"; ".docx"; ".txt"; ".xls"; ".xlsx"; ".ppt";
                         ".pptx"; ".csv"; ".md"; ".jpg"; ".jpeg"; ".png"; ".heic";
                         ".gif"; ".bmp"; ".webp"; ".svg"; ".mp3"; ".wav"; ".flac";
                         ".aac"; ".ogg"; ".m4a"; ".mp4"; ".avi"; ".mov"; ".mkv";
                         ".wmv"; ".flv"; ".webm"; ".memo"; ".note"]%string))
    as [Hin|Hout]; [|by apply Hother].
  rewrite Forall_forall in Hknown. by apply Hknown.
Qed.

(** X12. The folder a file is stored in and the type it is processed as
    agree, with these exceptions: a [.heic] file is stored with the images
    but processed as a document (its text is read, not recognised), and a
    file stored under [Others] is processed as a document or as a memo.  A
    file processed as image, audio or video is always stored in the folder
    of that name. *)
Theorem folder_and_type (file_path : FilePath) :
  let type := _get_file_type file_path in
  let dir := _file_type_dir file_path in
  (type ∈ ["Images"; "Audio"; "Video"]%string -> dir = type)
  ∧ (dir = type
     ∨ (suffix file_path = ".heic"%string ∧ dir = "Images"%string
        ∧ type = "Documents"%string)
     ∨ (dir = "Others"%string
        ∧ (type = "Documents"%string ∨ type = "Memos"%string))).
Proof.
  destruct file_path as [parent name suffix]. cbv zeta.
  unfold _get_file_type, _file_type_dir. cbn [Archiver.suffix].
  revert suffix. apply known_suffix_cases.
  - repeat (apply Forall_cons; split;
            [vm_compute; split;
             [intros Hin; repeat (apply elem_of_cons in Hin as [Heq|Hin];
                                  [first [done|discriminate Heq]|]);
              by apply elem_of_nil in Hin
             |first [by left|by right; left
                    |right; right; split; [done|by left]
                    |right; right; split; [done|by right]]]|]).
    apply Forall_nil_2.
  - intros s Hs. rewrite !not_elem_of_cons in Hs.
    assert (Htype : first_type s FILE_TYPE_MAPPING = None).
    { unfold FILE_TYPE_MAPPING, first_type.
      repeat (rewrite bool_decide_eq_false_2;
              [|rewrite !not_elem_of_cons; intuition auto using not_elem_of_nil]).
      done. }
    rewrite Htype. simpl.
    repeat (rewrite bool_decide_eq_false_2;
            [|rewrite !not_elem_of_cons; intuition auto using not_elem_of_nil]).
    split; [|right; right; split; [done|by left]].
    intros Hin. repeat (apply elem_of_cons in Hin as [Heq|Hin]; [discriminate Heq|]).
    by apply elem_of_nil in Hin.
Qed.

End FileTypeFacts.

(** ** The plugin manager *)

Section PluginFacts.
Import Events Plugins.
Context {World : Type}.
Implicit Types (m : manager World) (p : plugin World).

Lemma register_class_raised m e : register_class m (Raised e) = m.
Proof. done. Qed.

(** Loading goes through the classes that can be instantiated, in order. *)
Lemma load_plugins_instances
    (modules : list (result (list (result (plugin World))))) m :
  (load_plugins (Returned (Some modules)) m).1
  = foldl register_class m (Returned <$> instances modules).
Proof.
  unfold load_plugins. cbn [fst]. revert m.
  induction modules as [|module modules IH]; intros m; [done|].
  cbn [foldl]. rewrite IH. unfold instances at 2. cbn [mbind list_bind].
  fold (instances modules). rewrite fmap_app, foldl_app. f_equal.
  destruct module as [classes|e]; [|done].
  unfold _register_plugin_from_module. clear IH. revert m.
  induction classes as [|cls classes IH]; intros m; [done|].
  cbn [foldl mbind list_bind]. rewrite fmap_app, foldl_app, <- IH.
  by destruct cls.
Qed.

Lemma register_class_dom m p :
  dom (plugins m) ⊆ dom (plugins (register_class m (Returned p)))
  ∧ ((register p (bus m)).2 = Returned tt ->
     plugin_name p ∈ dom (plugins (register_class m (Returned p)))).
Proof.
  unfold register_class. case_bool_decide as Hknown; [done|].
  destruct (register p (bus m)) as [subscribers [[]|e]]; simpl.
  - rewrite dom_insert. split; [set_solver|]. intros _. set_solver.
  - done.
Qed.

Lemma foldl_register_dom (ps : list (plugin World)) : ∀ m,
  (∀ p subscribers, p ∈ ps -> (register p subscribers).2 = Returned tt) ->
  dom (plugins m) ⊆ dom (plugins (foldl register_class m (Returned <$> ps)))
  ∧ ∀ p, p ∈ ps ->
         plugin_name p ∈ dom (plugins (foldl register_class m (Returned <$> ps))).
Proof.
  induction ps as [|p0 ps IH]; intros m Hreturns.
  { split; [done|]. by intros p ?%elem_of_nil. }
  rewrite fmap_cons. cbn [foldl].
  destruct (register_class_dom m p0) as [Hsub Hnew].
  destruct (IH (register_class m (Returned p0))) as [Hsub' Hall].
  { intros p subscribers Hp. apply Hreturns. by apply list_elem_of_further. }
  split; [by etrans|].
  intros p [->|Hp]%elem_of_cons; [|by apply Hall].
  apply Hsub', Hnew, Hreturns, list_elem_of_here.
Qed.

(** A plugin whose name is in the dictionary is skipped. *)
Lemma foldl_register_known (ps : list (plugin World)) : ∀ m,
  (∀ p, p ∈ ps -> plugin_name p ∈ dom (plugins m)) ->
  foldl register_class m (Returned <$> ps) = m.
Proof.
  induction ps as [|p0 ps IH]; intros m Hknown; [done|].
  rewrite fmap_cons. cbn [foldl].
  assert (Hskip : register_class m (Returned p0) = m).
  { unfold register_class. rewrite bool_decide_eq_true_2; [done|].
    apply Hknown, list_elem_of_here. }
  rewrite Hskip. apply IH. intros p Hp. by apply Hknown, list_elem_of_further.
Qed.

Lemma register_class_fresh m p subscribers :
  plugin_name p ∉ dom (plugins m) ->
  register p (bus m) = (subscribers, Returned tt) ->
  register_class m (Returned p)
  = {| bus := subscribers; plugins := <[plugin_name p := p]> (plugins m) |}.
Proof.
  intros Hnew Hregister. unfold register_class.
  rewrite bool_decide_eq_false_2 by done. by rewrite Hregister.
Qed.

Local Ltac fresh_name :=
  cbn [plugins plugin_name subscriber_plugin idle_plugin];
  rewrite ?dom_insert_L, ?dom_empty_L;
  rewrite ?not_elem_of_union, ?not_elem_of_singleton;
  repeat split; first [done|apply not_elem_of_empty].

(** X13. A plugin whose name is in the dictionary of the manager is never
    registered again.  So when the start-up runs a second time in one
    process, with plugins whose [register] returns, the subscribers are
    cleared and no plugin subscribes again: the bus is left without any
    subscriber, and publishing an event invokes no handler. *)
Theorem second_start_leaves_bus_empty
    (modules : list (result (list (result (plugin World))))) m :
  (∀ p subscribers, p ∈ instances modules ->
     (register p subscribers).2 = Returned tt) ->
  let started := init_plugins (Returned (Some modules)) m in
  let restarted := init_plugins (Returned (Some modules)) started in
  (∀ p, p ∈ instances modules -> plugin_name p ∈ dom (plugins started))
  ∧ bus restarted = ∅
  ∧ plugins restarted = plugins started
  ∧ ∀ event st,
      (publish (bus restarted) event st).2 = Returned tt
      ∧ invoked (actions (publish (bus restarted) event st).1) = invoked (actions st).
Proof.
  intros Hreturns started restarted.
  assert (Hknown : ∀ p, p ∈ instances modules ->
                        plugin_name p ∈ dom (plugins started)).
  { subst started. unfold init_plugins. rewrite load_plugins_instances.
    by apply foldl_register_dom. }
  assert (Hrestarted : restarted = {| bus := ∅; plugins := plugins started |}).
  { subst restarted. unfold init_plugins at 1. rewrite load_plugins_instances.
    by apply foldl_register_known. }
  split; [done|]. rewrite Hrestarted. cbn [bus plugins].
  split; [done|]. split; [done|]. intros event st.
  unfold publish. rewrite lookup_empty. cbn [fst snd]. done.
Qed.

(** X14. After a first start-up with the plugins of the repository,
    whatever their handlers do, the bus holds the handler of the archiver
    for uploaded files and the handler of the vectorizer for completed
    archives, and nothing else: the handler of [ExamplePlugin] has the name
    of the archiver's handler, so its subscription is dropped, although the
    plugin counts as registered. *)
Theorem repository_start (archive vectorize example
      : Event -> World -> World * result unit) m :
  plugins m = ∅ ->
  let started :=
    init_plugins (Returned (Some (repository_package archive vectorize example))) m in
  bus started !! FILE_UPLOADED
  = Some [{| __name__ := "handle_file_uploaded"; call := archive |}]
  ∧ bus started !! ARCHIVE_COMPLETED
    = Some [{| __name__ := "handle_archive_completed"; call := vectorize |}]
  ∧ (∀ event_name, event_name ≠ FILE_UPLOADED -> event_name ≠ ARCHIVE_COMPLETED ->
       bus started !! event_name = None)
  ∧ dom (plugins started)
    = {["AudioIOPlugin"; "CoreArchiverPlugin"; "CoreVectorizerPlugin";
        "ExamplePlugin"]}.
Proof.
  intros Hfresh started. subst started.
  set (archiver := {| __name__ := "handle_file_uploaded"; call := archive |}).
  set (vectorizer := {| __name__ := "handle_archive_completed"; call := vectorize |}).
  set (other := {| __name__ := "handle_file_uploaded"; call := example |}).
  assert (Hfirst : subscribe FILE_UPLOADED archiver (∅ : gmap string (list (handler World)))
                   = {[FILE_UPLOADED := [archiver]]}).
  { unfold subscribe. rewrite lookup_empty.
    rewrite lookup_insert_eq. cbn [default fmap list_fmap].
    rewrite bool_decide_eq_false_2 by apply not_elem_of_nil.
    by rewrite insert_insert_eq. }
  assert (Hsecond : subscribe ARCHIVE_COMPLETED vectorizer
                      ({[FILE_UPLOADED := [archiver]]} : gmap string (list (handler World)))
                    = <[ARCHIVE_COMPLETED := [vectorizer]]> {[FILE_UPLOADED := [archiver]]}).
  { unfold subscribe. rewrite lookup_singleton_ne by done.
    rewrite lookup_insert_eq. cbn [default fmap list_fmap].
    rewrite bool_decide_eq_false_2 by apply not_elem_of_nil.
    by rewrite insert_insert_eq. }
  assert (Hthird : subscribe FILE_UPLOADED other
                     (<[ARCHIVE_COMPLETED := [vectorizer]]> {[FILE_UPLOADED := [archiver]]})
                   = <[ARCHIVE_COMPLETED := [vectorizer]]> {[FILE_UPLOADED := [archiver]]}).
  { apply (subscribe_same_name _ _ _ archiver [archiver]);
      [|apply list_elem_of_here|done].
    rewrite lookup_insert_ne by done. apply lookup_singleton_eq. }
  assert (Hstarted :
    init_plugins (Returned (Some (repository_package archive vectorize example))) m
    = {| bus := <[ARCHIVE_COMPLETED := [vectorizer]]> {[FILE_UPLOADED := [archiver]]};
         plugins :=
           <["ExamplePlugin"%string := subscriber_plugin "ExamplePlugin" FILE_UPLOADED other]>
             (<["CoreVectorizerPlugin"%string :=
                  subscriber_plugin "CoreVectorizerPlugin" ARCHIVE_COMPLETED vectorizer]>
                (<["CoreArchiverPlugin"%string :=
                     subscriber_plugin "CoreArchiverPlugin" FILE_UPLOADED archiver]>
                   (<["AudioIOPlugin"%string := idle_plugin "AudioIOPlugin"]> ∅))) |}).
  { unfold init_plugins, load_plugins, repository_package. cbn [fst foldl].
    unfold _register_plugin_from_module. cbn [foldl]. rewrite Hfresh.
    unfold clear_subscribers.
    rewrite (register_class_fresh {| bus := ∅; plugins := ∅ |}
               (idle_plugin "AudioIOPlugin") ∅); [|fresh_name|done].
    rewrite (register_class_fresh _
               (subscriber_plugin "CoreArchiverPlugin" FILE_UPLOADED archiver)
               {[FILE_UPLOADED := [archiver]]});
      [|fresh_name|cbn [bus register subscriber_plugin]; by rewrite Hfirst].
    rewrite (register_class_fresh _
               (subscriber_plugin "CoreVectorizerPlugin" ARCHIVE_COMPLETED vectorizer)
               (<[ARCHIVE_COMPLETED := [vectorizer]]> {[FILE_UPLOADED := [archiver]]}));
      [|fresh_name|cbn [bus register subscriber_plugin]; by rewrite Hsecond].
    rewrite (register_class_fresh _
               (subscriber_plugin "ExamplePlugin" FILE_UPLOADED other)
               (<[ARCHIVE_COMPLETED := [vectorizer]]> {[FILE_UPLOADED := [archiver]]}));
      [|fresh_name|cbn [bus register subscriber_plugin]; by rewrite Hthird].
    done. }
  rewrite Hstarted. cbn [bus plugins].
  split; [rewrite lookup_insert_ne by done; apply lookup_singleton_eq|].
  split; [apply lookup_insert_eq|]. split.
  - intros event_name Hupload Hcompleted.
    rewrite lookup_insert_ne by done. by rewrite lookup_singleton_ne.
  - rewrite !dom_insert_L, dom_empty_L. apply set_eq. intros name.
    rewrite !elem_of_union, !elem_of_singleton.
    split; intros Hname; repeat destruct Hname as [Hname|Hname];
      try (by apply not_elem_of_empty in Hname); subst name; tauto.
Qed.

End PluginFacts.

Lemma second_start_leaves_bus_empty_witness :
  let package :=
    Returned (Some (Plugins.repository_package (World := unit)
       (fun _ w => (w, Returned tt)) (fun _ w => (w, Returned tt))
       (fun _ w => (w, Returned tt)))) in
  Plugins.bus
    (Plugins.init_plugins package
       (Plugins.init_plugins package {| Plugins.bus := ∅; Plugins.plugins := ∅ |}))
  = ∅.
Proof.
  intros package.
  apply (second_start_leaves_bus_empty (World := unit)).
  intros p subscribers Hp. unfold Plugins.repository_package, Plugins.instances in Hp.
  cbn [mbind list_bind app] in Hp.
  repeat (apply elem_of_cons in Hp as [->|Hp]; [reflexivity|]).
  by apply elem_of_nil in Hp.
Defined.

Lemma repository_start_witness :
  let quiet : Events.Event -> unit -> unit * result unit :=
    fun _ w => (w, Returned tt) in
  Plugins.bus
    (Plugins.init_plugins
       (Returned (Some (Plugins.repository_package quiet quiet quiet)))
       {| Plugins.bus := ∅; Plugins.plugins := ∅ |})
  !! Events.FILE_UPLOADED
  = Some [{| Events.__name__ := "handle_file_uploaded"; Events.call := quiet |}].
Proof.
  intros quiet.
  destruct (repository_start quiet quiet quiet
              {| Plugins.bus := ∅; Plugins.plugins := ∅ |}) as [Hupload _].
  - reflexivity.
  - exact Hupload.
Defined.

(** ** The embedding service *)

Section AIServiceFacts.
Import AIService.
Implicit Types (models : list (text -> result (list Q))).

Lemma try_models_returned models input vector : ∀ last_error,
  try_models models input last_error = Returned vector
  ↔ ∃ failed model rest,
      models = failed ++ model :: rest
      ∧ Forall (fun m => ∃ e, m input = Raised e) failed
      ∧ model input = Returned vector.
Proof.
  induction models as [|m models IH]; intros last_error; simpl.
  - split; [done|]. intros (failed & model & rest & Heq & _). by destruct failed.
  - destruct (m input) as [v|[msg]] eqn:Hm.
    + split.
      * intros [= ->]. exists [], m, models. by repeat split.
      * intros (failed & model & rest & Heq & Hfailed & Hmodel).
        destruct failed as [|m' failed]; simplify_eq/=; [congruence|].
        apply Forall_cons in Hfailed as [[e He] _]. congruence.
    + rewrite IH. split.
      * intros (failed & model & rest & -> & Hfailed & Hmodel).
        exists (m :: failed), model, rest. repeat split; [|done].
        constructor; [by eexists|done].
      * intros (failed & model & rest & Heq & Hfailed & Hmodel).
        destruct failed as [|m' failed]; simplify_eq/=; [congruence|].
        apply Forall_cons in Hfailed as [_ Hfailed].
        by exists failed, model, rest.
Qed.

Lemma try_models_raises models input : ∀ last_error,
  (∃ e, try_models models input last_error = Raised e)
  ↔ Forall (fun m => ∃ e, m input = Raised e) models.
Proof.
  induction models as [|m models IH]; intros last_error; simpl.
  - split; [constructor|by eexists].
  - rewrite Forall_cons. destruct (m input) as [v|[msg]] eqn:Hm.
    + split; [by intros [e ?]|by intros [[e ?] _]].
    + rewrite IH. split; [|by intros [_ ?]]. intros Hall. split; [by eexists|done].
Qed.

Lemma try_models_last_error init last msg input : ∀ last_error,
  Forall (fun m => ∃ e, m input = Raised e) init ->
  last input = Raised (Exception msg) ->
  try_models (init ++ [last]) input last_error
  = Raised (Exception ("所有记忆模型均失败。Last Error: " +:+ msg)).
Proof.
  induction init as [|m init IH]; intros last_error Hinit Hlast; simpl.
  - by rewrite Hlast.
  - apply Forall_cons in Hinit as [[[msg'] Hm] Hinit]. rewrite Hm. by apply IH.
Qed.

(** X15. [embed_text] gives the answer of the first active embedding model
    whose call returns, in the order of the list, whatever that answer is;
    the models after it are not consulted.  It raises exactly when the list
    is empty or every model raises, and then, for a list that is not empty,
    the message carries the error of the last model. *)
Theorem embedding_failover models input :
  (∀ vector,
     embed_text models input = Returned vector
     ↔ ∃ failed model rest,
         models = failed ++ model :: rest
         ∧ Forall (fun m => ∃ e, m input = Raised e) failed
         ∧ model input = Returned vector)
  ∧ ((∃ e, embed_text models input = Raised e)
     ↔ Forall (fun m => ∃ e, m input = Raised e) models)
  ∧ (∀ init last msg,
       models = init ++ [last] ->
       Forall (fun m => ∃ e, m input = Raised e) init ->
       last input = Raised (Exception msg) ->
       embed_text models input
       = Raised (Exception ("所有记忆模型均失败。Last Error: " +:+ msg))).
Proof.
  assert (Hloop : models ≠ [] ->
            embed_text models input = try_models models input None).
  { by destruct models. }
  split; [|split].
  - intros vector. destruct models as [|m models].
    + split; [done|]. intros (failed & model & rest & Heq & _). by destruct failed.
    + rewrite Hloop by done. apply try_models_returned.
  - destruct models as [|m models].
    + split; [constructor|by eexists].
    + rewrite Hloop by done. apply try_models_raises.
  - intros init last msg -> Hinit Hlast.
    rewrite Hloop by (by destruct init). by apply try_models_last_error.
Qed.

End AIServiceFacts.

(** ** Document vectors *)

Section DocumentVectorFacts.
Import DocumentVectors.
Variable embed_text : text -> result (list Q).

Lemma digit_pretty_N_char (x : N) :
  (x < 10)%N -> Dates.digit (pretty_N_char x) = Some (Z.of_N x).
Proof.
  intros Hx. destruct x as [|p]; [done|].
  do 4 (try destruct p as [p|p|]; try done; try lia).
Qed.

Lemma int_digits_pretty (x : N) :
  x ≠ 0%N ->
  ∃ p, ∀ (s : string) acc b,
    int_digits acc b (T (pretty_N_go x s)) = int_digits (acc * p + Z.of_N x) true (T s).
Proof.
  induction x as [x IH] using (well_founded_induction N.lt_wf_0). intros Hx.
  assert (Hstep : ∀ s, pretty_N_go x s
            = pretty_N_go (x `div` 10) (String (pretty_N_char (x `mod` 10)) s)).
  { intros s. apply pretty_N_go_step. lia. }
  pose proof (N.mod_lt x 10) as Hmod.
  pose proof (N.div_mod x 10) as Hdiv.
  destruct (decide (x `div` 10 = 0)%N) as [Hzero|Hmore].
  - exists 10%Z. intros s acc b. rewrite Hstep, Hzero, pretty_N_go_0.
    unfold T. simpl. rewrite digit_pretty_N_char by lia.
    f_equal. lia.
  - destruct (IH (x `div` 10)%N) as [p Hp]; [apply N.div_lt; lia|done|].
    exists (p * 10)%Z. intros s acc b. rewrite Hstep, Hp.
    unfold T. simpl. rewrite digit_pretty_N_char by lia.
    f_equal. lia.
Qed.

Lemma lskip_id (s : text) :
  Forall (fun c => int_space c = false) s -> lskip s = s.
Proof. destruct 1 as [|c s Hc _]; [done|]. simpl. by rewrite Hc. Qed.

Lemma digit_not_int_space c : Naming.is_digit c = true -> int_space c = false.
Proof. destruct c as [[] [] [] [] [] [] [] []]; vm_compute; congruence. Qed.

(** [int(str(n))] is [n]. *)
Lemma python_int_str (n : Z) : python_int (python_str n) = Some n.
Proof.
  assert (Hpos : ∀ p, int_literal (T (pretty (Npos p))) = Some (Zpos p)
                      ∧ int_digits 0 false (T (pretty (Npos p))) = Some (Zpos p)
                      ∧ Forall (fun c => int_space c = false) (T (pretty (Npos p)))).
  { intros p. unfold pretty, pretty_N. rewrite decide_False by done.
    destruct (int_digits_pretty (Npos p)) as [k Hk]; [done|].
    pose proof (Hk EmptyString 0%Z false) as Hvalue.
    cbn [T list_ascii_of_string int_digits] in Hvalue. rewrite Z.mul_0_l, Z.add_0_l in Hvalue.
    change (Z.of_N (Npos p)) with (Zpos p) in Hvalue.
    pose proof (pretty_N_go_digits (Npos p) EmptyString) as Hdigits.
    specialize (Hdigits (Forall_nil_2 _)).
    split; [|split; [done|]].
    - destruct (T (pretty_N_go (N.pos p) EmptyString)) as [|c rest] eqn:Hshape; [done|].
      apply Forall_cons in Hdigits as [Hc _]. unfold int_literal.
      rewrite !decide_False; [done| |]; intros ->; by vm_compute in Hc.
    - eapply Forall_impl; [exact Hdigits|]. apply digit_not_int_space. }
  unfold python_int, python_str. destruct n as [|p|p].
  - reflexivity.
  - destruct (Hpos p) as (Hliteral & _ & Hspace).
    change (pretty (Z.pos p)) with (pretty (Npos p)).
    rewrite (lskip_id _ Hspace), (lskip_id (reverse _)) by (by apply Forall_reverse).
    by rewrite reverse_involutive.
  - destruct (Hpos p) as (_ & Hdigits & Hspace).
    change (T (pretty (Z.neg p))) with ("-"%char :: T (pretty (Npos p))).
    assert (Hall : Forall (fun c => int_space c = false) ("-"%char :: T (pretty (Npos p)))).
    { by constructor. }
    rewrite (lskip_id _ Hall), (lskip_id (reverse _)) by (by apply Forall_reverse).
    rewrite reverse_involutive. unfold int_literal.
    rewrite decide_True by done. by rewrite Hdigits.
Qed.


(** X16. For a stored record addressed by the text of its id,
    [embed_document] succeeds exactly when the record belongs to the user
    and the embedding call returns a vector that is not empty; it then
    writes the vector, the mark 1 and the time on that record, and a call
    that fails leaves the database as it was.  [delete_document_vector]
    afterwards succeeds whoever owns the record, and leaves the record with
    its three vector columns cleared and everything else, the chunk table
    included, as before the two calls. *)
Theorem document_vector_round_trip now input user_id db id record :
  archives db !! id = Some record ->
  let embedded := embed_document embed_text now true (python_str id) input user_id db in
  let deleted := delete_document_vector true (python_str id) embedded.1 in
  (embedded.2 = true
   ↔ ArchiveRecord.user_id record = user_id
     ∧ ∃ vector, embed_text input = Returned vector ∧ vector ≠ [])
  ∧ (embedded.2 = false -> embedded.1 = db)
  ∧ (∀ vector, embedded.2 = true -> embed_text input = Returned vector ->
       archives embedded.1
       = <[id := with_vector record (Some vector) 1 (Some now)]> (archives db))
  ∧ deleted.2 = true
  ∧ archives deleted.1 = <[id := with_vector record None 0 None]> (archives db)
  ∧ vector_nodes deleted.1 = vector_nodes db
  ∧ next_node_id deleted.1 = next_node_id db.
Proof.
  intros Hrecord embedded deleted.
  assert (Hembedded :
    embedded = match embed_text input with
               | Returned (x :: vector) =>
                   if decide (ArchiveRecord.user_id record = user_id)
                   then (store id (with_vector record (Some (x :: vector)) 1 (Some now)) db,
                         true)
                   else (db, false)
               | _ => (db, false)
               end).
  { subst embedded. unfold embed_document. cbn [negb].
    destruct (embed_text input) as [[|x vector]|e]; [done| |done].
    cbn [truthy negb]. by rewrite python_int_str, Hrecord. }
  assert (Hdeleted : deleted.2 = true
            ∧ deleted.1 = store id (with_vector record None 0 None) embedded.1
            ∧ vector_nodes embedded.1 = vector_nodes db
            ∧ next_node_id embedded.1 = next_node_id db
            ∧ <[id := with_vector record None 0 None]> (archives embedded.1)
              = <[id := with_vector record None 0 None]> (archives db)).
  { subst deleted. unfold delete_document_vector. cbn [negb].
    rewrite python_int_str, Hembedded.
    destruct (embed_text input) as [[|x vector]|e];
      [cbn [fst]; by rewrite Hrecord| |cbn [fst]; by rewrite Hrecord].
    destruct (decide (ArchiveRecord.user_id record = user_id));
      [|cbn [fst]; by rewrite Hrecord].
    cbn [fst store archives]. rewrite lookup_insert_eq. cbn [fst snd store archives].
    by rewrite insert_insert_eq. }
  destruct Hdeleted as (Hok & Hdb & Hnodes & Hnext & Hrows).
  split; [|split; [|split; [|split; [done|]]]].
  - rewrite Hembedded. destruct (embed_text input) as [[|x vector]|e]; cbn [snd].
    + split; [done|]. by intros [_ (vector & [= <-] & ?)].
    + destruct (decide (ArchiveRecord.user_id record = user_id)); cbn [snd].
      * split; [|done]. intros _. split; [done|]. by eexists.
      * split; [done|]. by intros [? _].
    + split; [done|]. by intros [_ (vector & ? & _)].
  - rewrite Hembedded. destruct (embed_text input) as [[|x vector]|e]; [done| |done].
    by destruct (decide (ArchiveRecord.user_id record = user_id)).
  - intros vector. rewrite Hembedded.
    destruct (embed_text input) as [[|x vector']|e]; [done| |done].
    destruct (decide (ArchiveRecord.user_id record = user_id)); [|done].
    by intros _ [= <-].
  - rewrite Hdb. cbn [store archives vector_nodes next_node_id]. done.
Qed.

End DocumentVectorFacts.

(** ** The batch job *)

Section BatchFacts.
Import DocumentVectors.
Variable embed_text : text -> result (list Q).
Variable clock : nat -> Z.
Variables (user_id : Z) (start : database).

Lemma row_invariant_later processed record_id id row :
  row_invariant embed_text user_id start processed id row ->
  id ≠ record_id ->
  row_invariant embed_text user_id start (record_id :: processed) id row.
Proof.
  unfold row_invariant. intros Hrow Hid.
  destruct (archives start !! id) as [record|], row as [record'|]; try done.
  destruct Hrow as [[-> Hmark]|(Hin & Hrest)].
  - left. split; [done|]. intros [?|Hin]%elem_of_cons; [done|by apply Hmark].
  - right. split; [by apply list_elem_of_further|done].
Qed.

Lemma vectorize_one_step processed st record_id :
  keyed start ->
  batch_invariant embed_text user_id start processed (db st) ->
  let st' := vectorize_one embed_text clock user_id st record_id in
  let counted := counts_as_success embed_text user_id start record_id in
  batch_invariant embed_text user_id start (record_id :: processed) (db st')
  ∧ success_count st' = success_count st + (if counted then 1 else 0)
  ∧ failed_count st' = failed_count st + (if counted then 0 else 1).
Proof.
  intros Hkeyed (Hnodes & Hnext & Hrows) st' counted.
  assert (Hsame : row_invariant embed_text user_id start (record_id :: processed)
                    record_id (archives (db st) !! record_id) ->
                  batch_invariant embed_text user_id start (record_id :: processed) (db st)).
  { intros Hrow. split; [done|]. split; [done|]. intros id.
    destruct (decide (id = record_id)) as [->|Hid]; [done|].
    by apply row_invariant_later. }
  pose proof (Hrows record_id) as Hrow.
  subst st' counted. unfold vectorize_one, counts_as_success.
  unfold row_invariant in Hrow, Hsame.
  destruct (archives start !! record_id) as [record|] eqn:Hstart,
           (archives (db st) !! record_id) as [record'|] eqn:Hcurrent; try done.
  2:{ cbn [db success_count failed_count]. split; [by apply Hsame|lia]. }
  assert (Huser : ArchiveRecord.user_id record' = ArchiveRecord.user_id record).
  { by destruct Hrow as [[-> _]|(_ & _ & _ & vector & at_ & _ & ->)]. }
  rewrite Huser. case_bool_decide as Hmine; cbn [negb andb].
  2:{ cbn [db success_count failed_count]. split; [|lia]. apply Hsame.
      destruct Hrow as [[-> _]|(_ & Hcounted & _)].
      - left. split; [done|]. intros _. unfold counts_as_success.
        rewrite Hstart. by rewrite bool_decide_eq_false_2.
      - unfold counts_as_success in Hcounted. rewrite Hstart in Hcounted.
        by rewrite bool_decide_eq_false_2 in Hcounted. }
  destruct Hrow as [[-> Hmark]|(Hin & Hcounted & Hfresh & vector & at_ & Hvector & ->)].
  2:{ cbn [with_vector ArchiveRecord.is_vectorized].
      rewrite bool_decide_eq_true_2 by done. cbn [db success_count failed_count].
      unfold counts_as_success in Hcounted. rewrite Hstart in Hcounted.
      rewrite bool_decide_eq_true_2 in Hcounted by done. cbn [andb] in Hcounted.
      rewrite Hcounted. split; [|lia]. apply Hsame. right.
      split; [by apply list_elem_of_further|]. split.
      { unfold counts_as_success. rewrite Hstart.
        by rewrite bool_decide_eq_true_2. }
      split; [done|]. by exists vector, at_. }
  case_bool_decide as Hvectorized; cbn [orb].
  { cbn [db success_count failed_count]. split; [|lia]. apply Hsame. by left. }
  assert (Hfailed :
    (match vector_text record with
     | [] => false
     | _ => match embed_text (vector_text record) with
            | Returned vector => truthy vector
            | Raised _ => false
            end
     end) = false ->
    batch_invariant embed_text user_id start (record_id :: processed) (db st)).
  { intros Hnot. apply Hsame. left. split; [done|]. intros _.
    unfold counts_as_success. rewrite Hstart.
    rewrite bool_decide_eq_true_2 by done.
    rewrite bool_decide_eq_false_2 by done. cbn [andb orb]. by rewrite Hnot. }
  destruct (vector_text record) as [|c input] eqn:Htext.
  { cbn [db success_count failed_count]. split; [by apply Hfailed|lia]. }
  unfold embed_document. cbn [negb].
  rewrite (Hkeyed _ _ Hstart), python_int_str, Hcurrent.
  destruct (embed_text (c :: input)) as [[|x vector]|e] eqn:Hembed.
  { cbn [truthy negb db success_count failed_count].
    split; [by apply Hfailed|lia]. }
  2:{ cbn [db success_count failed_count]. split; [by apply Hfailed|lia]. }
  cbn [truthy negb]. rewrite decide_True by done.
  cbn [store archives]. rewrite lookup_insert_eq.
  cbn [db success_count failed_count].
  split; [|lia].
  split; [done|]. split; [done|]. intros id. cbn [store archives].
  destruct (decide (id = record_id)) as [->|Hid].
  - rewrite lookup_insert_eq. unfold row_invariant. rewrite Hstart. right.
    split; [apply list_elem_of_here|]. split.
    { unfold counts_as_success. rewrite Hstart, Htext, Hembed.
      rewrite bool_decide_eq_true_2 by done.
      by rewrite bool_decide_eq_false_2. }
    split; [done|]. rewrite Htext. by eexists _, _.
  - rewrite !lookup_insert_ne by done. by apply row_invariant_later.
Qed.

Lemma batch_fold (record_ids : list Z) : ∀ processed st,
  keyed start ->
  batch_invariant embed_text user_id start processed (db st) ->
  let final := foldl (vectorize_one embed_text clock user_id) st record_ids in
  batch_invariant embed_text user_id start (reverse record_ids ++ processed) (db final)
  ∧ success_count final
    = success_count st
      + length (filter (fun id => counts_as_success embed_text user_id start id = true)
                  record_ids)
  ∧ success_count final + failed_count final
    = success_count st + failed_count st + length record_ids.
Proof.
  induction record_ids as [|record_id record_ids IH]; intros processed st Hkeyed Hinv.
  { simpl. split; [done|lia]. }
  destruct (vectorize_one_step processed st record_id Hkeyed Hinv)
    as (Hinv' & Hsuccess & Hfailed).
  destruct (IH _ _ Hkeyed Hinv') as (Hfinal & Hcount & Htotal).
  cbn [foldl]. rewrite reverse_cons, <- app_assoc. split; [done|].
  rewrite filter_cons. rewrite Htotal, Hcount, Hsuccess, Hfailed.
  destruct (counts_as_success embed_text user_id start record_id).
  - rewrite decide_True by done. simpl. lia.
  - rewrite decide_False by done. simpl. lia.
Qed.

(** X17. On a Document table keyed by its ids, the batch job counts every
    id of its list as a success or as a failure; the successes are the ids
    of records of the user that were marked as vectorized at the start or
    whose text is embedded into a vector that is not empty, counted as often
    as they occur in the list.  At the end each of these records carries the
    mark 1: a marked one is untouched, whatever its vector, the others hold
    the vector of their text.  Every other row, and the chunk table, are as
    at the start. *)
Theorem batch_vectorize_outcome (record_ids : list Z) :
  keyed start ->
  let final := _process_batch_vectorize embed_text clock record_ids user_id start in
  let counted id := counts_as_success embed_text user_id start id = true in
  success_count final = length (filter counted record_ids)
  ∧ success_count final + failed_count final = length record_ids
  ∧ vector_nodes (db final) = vector_nodes start
  ∧ (∀ id record,
       archives start !! id = Some record -> id ∈ record_ids -> counted id ->
       ∃ record',
         archives (db final) !! id = Some record'
         ∧ ArchiveRecord.is_vectorized record' = 1%Z
         ∧ (ArchiveRecord.is_vectorized record = 1%Z -> record' = record)
         ∧ (ArchiveRecord.is_vectorized record ≠ 1%Z ->
            ∃ vector at_,
              embed_text (vector_text record) = Returned vector
              ∧ record' = with_vector record (Some vector) 1 (Some at_)))
  ∧ (∀ id, id ∉ record_ids ∨ ¬ counted id ->
       archives (db final) !! id = archives start !! id).
Proof.
  intros Hkeyed final counted. unfold _process_batch_vectorize in final.
  assert (Hstart : batch_invariant embed_text user_id start [] start).
  { split; [done|]. split; [done|]. intros id. unfold row_invariant.
    destruct (archives start !! id); [|done]. left. split; [done|].
    by intros ?%elem_of_nil. }
  destruct (batch_fold record_ids []
              {| db := start; success_count := 0; failed_count := 0; clock_reads := 0 |}
              Hkeyed Hstart) as ((Hnodes & _ & Hrows) & Hcount & Htotal).
  fold final in Hnodes, Hrows, Hcount, Htotal. cbn [success_count failed_count] in *.
  split; [done|]. split; [done|]. split; [done|]. split.
  - intros id record Hrecord Hin Hcounted. specialize (Hrows id).
    unfold row_invariant in Hrows. rewrite Hrecord in Hrows.
    assert (Hprocessed : id ∈ reverse record_ids ++ []).
    { rewrite app_nil_r. by apply elem_of_reverse. }
    destruct (archives (db final) !! id) as [record'|]; [|done].
    exists record'. split; [done|].
    destruct Hrows as [[-> Hmark]|(_ & _ & Hfresh & vector & at_ & Hvector & ->)].
    + split; [by apply Hmark|]. split; [done|]. intros Hfresh.
      destruct Hfresh. by apply Hmark.
    + split; [done|]. split; [done|]. intros _. by exists vector, at_.
  - intros id Hid. specialize (Hrows id). unfold row_invariant in Hrows.
    destruct (archives start !! id) as [record|],
             (archives (db final) !! id) as [record'|]; try done.
    destruct Hrows as [[-> _]|(Hin & Hcounted & _)]; [done|].
    rewrite app_nil_r, elem_of_reverse in Hin. by destruct Hid.
Qed.

End BatchFacts.

Lemma document_vector_round_trip_witness :
  (DocumentVectors.delete_document_vector true (DocumentVectors.python_str 1)
     (DocumentVectors.embed_document Vectorizer.demo_embed 0 true
        (DocumentVectors.python_str 1) (T "invoice") 1 Vectorizer.demo_db).1).2
  = true.
Proof.
  destruct (document_vector_round_trip Vectorizer.demo_embed 0 (T "invoice") 1
              Vectorizer.demo_db 1 demo_record) as (_ & _ & _ & Hdeleted & _).
  - apply lookup_singleton_eq.
  - exact Hdeleted.
Defined.

Lemma batch_vectorize_outcome_witness :
  DocumentVectors.success_count
    (DocumentVectors._process_batch_vectorize Vectorizer.demo_embed Z.of_nat
       [1; 2; 1]%Z 1 Vectorizer.demo_db)
  = 2.
Proof.
  destruct (batch_vectorize_outcome Vectorizer.demo_embed Z.of_nat 1
              Vectorizer.demo_db [1; 2; 1]%Z) as (Hcount & _).
  - intros id record Hrecord. unfold Vectorizer.demo_db in Hrecord.
    cbn [archives] in Hrecord.
    by apply lookup_singleton_Some in Hrecord as [<- <-].
  - rewrite Hcount. by vm_compute.
Defined.

(** ** From an upload to the index *)

Section PipelineFacts.
Import Events Pipeline.
Variable embed_text : text -> result (list Q).
Variable now : Z.
Variable env : Archiver.environment.

(** [publish] returns, and leaves the world as the handlers of the event
    leave it, one after the other. *)
Lemma publish_world {World : Type} (subs : gmap string (list (handler World)))
    event st :
  ∃ st', publish subs event st = (st', Returned tt)
         ∧ world st' = foldl (fun w h => (call h event w).1) (world st)
                         (default [] (subs !! name event)).
Proof.
  unfold publish. destruct (subs !! name event) as [hs|]; simpl.
  - destruct (gather_handlers hs event st) as (st' & rs & -> & _ & Hworld & _).
    by exists st'.
  - by exists st.
Qed.

(** An indexing pass changes no status. *)
Lemma pass_keeps_status archive_id (d : database) id :
  ArchiveRecord.processing_status
  <$> archives (Vectorizer._process_vectorization embed_text now archive_id d).1 !! id
  = ArchiveRecord.processing_status <$> archives d !! id.
Proof.
  destruct (_process_vectorization_unchanged embed_text now archive_id d)
    as [[k Hk]| ->]; [|done].
  destruct (Vectorizer._process_vectorization embed_text now archive_id d)
    as [d1 outcome] eqn:Hpass.
  cbn [fst snd] in *. subst outcome.
  apply _process_vectorization_committed in Hpass
    as (record & vector & new_nodes & Hrecord & _ & _ & _ & _ & -> & _).
  destruct (decide (id = archive_id)) as [->|Hid].
  - rewrite lookup_insert_eq, Hrecord. simpl. unfold Vectorizer.store_coarse.
    by destruct (truthy vector).
  - by rewrite lookup_insert_ne.
Qed.

(** What an archiving run writes. *)
Lemma _process_and_persist_outcome file_path record w :
  match Archiver._process_and_persist env file_path (Some record) w with
  | (w', Returned r) =>
      Archiver.published w'
      = Archiver.published w
        ++ [Archiver.completion_event r file_path (Archiver.today env)]
      ∧ ArchiveRecord.id r = ArchiveRecord.id record
      ∧ ArchiveRecord.processing_status r = COMPLETED
      ∧ Archiver.rows w' = <[ArchiveRecord.id record := r]> (Archiver.rows w)
  | (w', Raised e) =>
      Archiver.published w' = Archiver.published w
      ∧ Archiver.rows w'
        = <[ArchiveRecord.id record := Archiver.failed record e]> (Archiver.rows w)
  end.
Proof.
  unfold Archiver._process_and_persist.
  pose proof (try_body_outcome env file_path (Some record) w) as Hbody.
  destruct (Archiver.try_body env file_path (Some record) w) as [[l w1] [r|e]] eqn:Hrun.
  - destruct Hbody as (Hpublished & Hstatus & _).
    split; [done|]. split; [|split; [done|]].
    all: revert Hrun; unfold Archiver.try_body.
    all: destruct (Archiver.sanitized_username env) as [user|e]; [|done].
    all: destruct (Archiver.default_storage_root env) as [root|e]; [|done].
    all: destruct (Archiver.analyze_file env) as [[[d|]|]|e0]; try done.
    all: destruct (Archiver._pick_year_month _ _) as [y m].
    all: destruct (Archiver.generated_target_path env) as [[final_path relative_path]|e];
      [|done].
    all: unfold Archiver.move; destruct (Archiver.move_error env) as [e|]; [done|].
    all: case_bool_decide as Hsrc; [|done].
    all: destruct (Archiver.st_size env) as [size|e]; [|done].
    all: destruct (Archiver.commit_error env) as [e|]; [done|].
    all: by intros [= <- <- <-].
  - destruct Hbody as (Hpublished & Hrows & _). cbn [Archiver.published Archiver.rows].
    by rewrite Hrows.
Qed.

Lemma update_record_again id record s :
  update_record id record (update_record id record s) = update_record id record s.
Proof.
  unfold update_record, DocumentVectors.store. cbn [files db archives vector_nodes next_node_id].
  by rewrite insert_insert_eq.
Qed.

(** X18. With the archiver subscribed to uploads and the vectorizer to
    completed archives, [process_file_background] on a stored record marks
    it PROCESSING and runs the archiving on it.  If the archiving returns,
    the answer is [True], the record is COMPLETED and the indexing pass has
    run on it once, whatever the pass did: an embedding failure during
    indexing does not fail the upload.  If the archiving raises, the answer
    is [False], the record is FAILED with the message of the exception, and
    the chunk table is as before: nothing is indexed. *)
Theorem upload_outcome (bus inner : gmap string (list (handler system)))
    (file_path : list string) record_id model_id timestamp s record :
  archives (db s) !! record_id = Some record ->
  ArchiveRecord.id record = record_id ->
  bus !! FILE_UPLOADED = Some [archiver_handler env inner] ->
  inner !! ARCHIVE_COMPLETED = Some [vectorizer_handler embed_text now] ->
  let processing := with_status record PROCESSING None in
  let started := update_record record_id processing s in
  let archived :=
    Archiver._process_and_persist env (path_of file_path) (Some processing)
      (archiver_world started) in
  let out := process_file_background bus file_path record_id model_id timestamp s in
  match archived.2 with
  | Returned r =>
      out.2 = true
      ∧ files out.1 = Archiver.files archived.1
      ∧ db out.1
        = (Vectorizer._process_vectorization embed_text now record_id
             (db (with_archiver_world started archived.1))).1
      ∧ ArchiveRecord.processing_status <$> archives (db out.1) !! record_id
        = Some COMPLETED
  | Raised e =>
      out.2 = false
      ∧ out.1 = with_archiver_world started archived.1
      ∧ archives (db out.1) !! record_id = Some (Archiver.failed processing e)
      ∧ vector_nodes (db out.1) = vector_nodes (db s)
      ∧ next_node_id (db out.1) = next_node_id (db s)
  end.
Proof.
  intros Hrecord Hid Hbus Hinner processing started archived out.
  assert (Hhandled :
    (handle_file_uploaded env inner
       (upload_event file_path processing model_id timestamp) started).1
    = match archived with
      | (w, Returned _) =>
          deliver inner (Archiver.published w) (with_archiver_world started w)
      | (w, Raised _) => with_archiver_world started w
      end).
  { unfold handle_file_uploaded, upload_event. cbn [payload].
    rewrite lookup_insert_eq.
    rewrite lookup_insert_ne by done. rewrite lookup_insert_eq. cbn [fst].
    unfold _process_archive_flow.
    replace (ArchiveRecord.id processing) with record_id by done.
    assert (Hrow : archives (db started) !! record_id = Some processing).
    { subst started. unfold update_record, DocumentVectors.store.
      cbn [db archives]. apply lookup_insert_eq. }
    rewrite Hrow.
    change (with_status processing PROCESSING (ArchiveRecord.processing_error processing))
      with processing.
    subst started. rewrite update_record_again. done. }
  assert (Hout : out = (let world := (handle_file_uploaded env inner
                           (upload_event file_path processing model_id timestamp)
                           started).1 in
                        match archives (db world) !! record_id with
                        | Some row =>
                            (world,
                             match ArchiveRecord.processing_status row with
                             | FAILED => false
                             | _ => true
                             end)
                        | None => (world, false)
                        end)).
  { subst out. unfold process_file_background. rewrite Hrecord.
    fold processing. fold started.
    destruct (publish_world bus (upload_event file_path processing model_id timestamp)
                {| world := started; actions := [] |}) as (st' & -> & Hworld).
    cbn [name upload_event world] in Hworld. rewrite Hbus in Hworld.
    change (world st'
            = (handle_file_uploaded env inner
                 (upload_event file_path processing model_id timestamp) started).1)
      in Hworld.
    cbn [fst]. by rewrite Hworld. }
  rewrite Hout, Hhandled. clear Hout Hhandled out.
  pose proof (_process_and_persist_outcome (path_of file_path) processing
                (archiver_world started)) as Hpersist.
  fold archived in Hpersist.
  destruct archived as [w [r|e]]; cbn [fst snd].
  - destruct Hpersist as (Hpublished & Hsame & Hstatus & Hrows).
    cbn [archiver_world Archiver.published app] in Hpublished.
    rewrite Hpublished. unfold deliver. cbn [foldl].
    destruct (publish_world inner
                (Archiver.completion_event r (path_of file_path) (Archiver.today env))
                {| world := with_archiver_world started w; actions := [] |})
      as (st' & -> & Hworld).
    cbn [name Archiver.completion_event world] in Hworld. rewrite Hinner in Hworld.
    change (world st'
            = (handle_archive_completed embed_text now
                 (Archiver.completion_event r (path_of file_path) (Archiver.today env))
                 (with_archiver_world started w)).1) in Hworld.
    unfold handle_archive_completed in Hworld.
    cbn [payload Archiver.completion_event] in Hworld.
    rewrite lookup_insert_eq in Hworld. cbn [fst] in Hworld.
    replace (ArchiveRecord.id r) with record_id in Hworld by (by rewrite Hsame).
    cbn [fst]. rewrite Hworld. cbn [db files].
    assert (Hcompleted :
      ArchiveRecord.processing_status
      <$> archives (Vectorizer._process_vectorization embed_text now record_id
                      (db (with_archiver_world started w))).1 !! record_id
      = Some COMPLETED).
    { rewrite pass_keeps_status. cbn [with_archiver_world db archives].
      rewrite Hrows. replace (ArchiveRecord.id processing) with record_id by done.
      rewrite lookup_insert_eq. simpl. by rewrite Hstatus. }
    destruct (archives (Vectorizer._process_vectorization embed_text now record_id
                          (db (with_archiver_world started w))).1 !! record_id)
      as [row|] eqn:Hrow; [|done].
    injection Hcompleted as Hfinal. cbn [fst snd db files]. rewrite ?Hrow.
    simpl. by rewrite Hfinal.
  - destruct Hpersist as (_ & Hrows).
    assert (Hrow : archives (db (with_archiver_world started w)) !! record_id
                   = Some (Archiver.failed processing e)).
    { cbn [with_archiver_world db archives]. rewrite Hrows.
      replace (ArchiveRecord.id processing) with record_id by done.
      apply lookup_insert_eq. }
    cbn zeta. rewrite Hrow. cbn [fst snd Archiver.failed ArchiveRecord.processing_status].
    done.
Qed.

(** X19. After a second start-up in one process the bus has no subscriber,
    so [process_file_background] answers [True] for a stored record although
    no handler has run: the record is left PROCESSING, and the files, the
    other rows and the chunk table are as they were. *)
Theorem upload_after_second_start
    (modules : list (result (list (result (@Plugins.plugin system)))))
    (m : @Plugins.manager system) file_path record_id model_id timestamp s record :
  (∀ p subscribers, p ∈ Plugins.instances modules ->
     (Plugins.register p subscribers).2 = Returned tt) ->
  archives (db s) !! record_id = Some record ->
  let started := Plugins.init_plugins (Returned (Some modules)) m in
  let restarted := Plugins.init_plugins (Returned (Some modules)) started in
  process_file_background (Plugins.bus restarted) file_path record_id model_id
    timestamp s
  = (update_record record_id (with_status record PROCESSING None) s, true).
Proof.
  intros Hreturns Hrecord started restarted.
  assert (Hempty : Plugins.bus restarted = ∅).
  { subst restarted. unfold Plugins.init_plugins at 1.
    rewrite load_plugins_instances. rewrite foldl_register_known; [done|].
    intros p Hp. cbn [Plugins.plugins]. subst started.
    unfold Plugins.init_plugins. rewrite load_plugins_instances.
    by apply foldl_register_dom. }
  rewrite Hempty. unfold process_file_background. rewrite Hrecord.
  unfold publish. rewrite lookup_empty. cbn [world update_record db].
  unfold DocumentVectors.store. cbn [archives]. by rewrite lookup_insert_eq.
Qed.

End PipelineFacts.

Lemma upload_outcome_witness :
  let inner : gmap string (list (Events.handler Pipeline.system)) :=
    {[ Events.ARCHIVE_COMPLETED
       := [Pipeline.vectorizer_handler Vectorizer.demo_embed 0] ]} in
  let env := Archiver.demo_env
               (Returned (Archiver.demo_final, Archiver.demo_relative_path)) None in
  let bus : gmap string (list (Events.handler Pipeline.system)) :=
    <[ Events.FILE_UPLOADED := [Pipeline.archiver_handler env inner] ]> inner in
  let s := {| Pipeline.files := {[ Archiver.components Archiver.demo_upload ]};
              Pipeline.db := {| archives := {[ 1%Z := Archiver.demo_row ]};
                                vector_nodes := [];
                                next_node_id := 1 |} |} in
  (Pipeline.process_file_background bus ["data"; "inbox"; "scan.pdf"]%string 1 None 0 s).2
  = true.
Proof.
  intros inner env bus s.
  pose proof (upload_outcome Vectorizer.demo_embed 0 env bus inner
                ["data"; "inbox"; "scan.pdf"]%string 1 None 0 s Archiver.demo_row)
    as Houtcome.
  cbv zeta in Houtcome.
  assert (Hreturned : ∃ r,
    (Archiver._process_and_persist env
       (Pipeline.path_of ["data"; "inbox"; "scan.pdf"]%string)
       (Some (Pipeline.with_status Archiver.demo_row PROCESSING None))
       (Pipeline.archiver_world
          (Pipeline.update_record 1
             (Pipeline.with_status Archiver.demo_row PROCESSING None) s))).2
    = Returned r).
  { vm_compute. by eexists. }
  destruct Hreturned as [r Hr]. rewrite Hr in Houtcome.
  apply Houtcome.
  - apply lookup_singleton_eq.
  - reflexivity.
  - apply lookup_insert_eq.
  - apply lookup_singleton_eq.
Defined.

Lemma upload_after_second_start_witness :
  let quiet : Events.Event -> Pipeline.system -> Pipeline.system * result unit :=
    fun _ w => (w, Returned tt) in
  let package := Returned (Some (Plugins.repository_package quiet quiet quiet)) in
  let s := {| Pipeline.files := {[ Archiver.components Archiver.demo_upload ]};
              Pipeline.db := {| archives := {[ 1%Z := Archiver.demo_row ]};
                                vector_nodes := [];
                                next_node_id := 1 |} |} in
  (Pipeline.process_file_background
     (Plugins.bus
        (Plugins.init_plugins package
           (Plugins.init_plugins package
              {| Plugins.bus := ∅; Plugins.plugins := ∅ |})))
     ["data"; "inbox"; "scan.pdf"]%string 1 None 0 s).2
  = true.
Proof.
  intros quiet package s.
  rewrite (upload_after_second_start
             (Plugins.repository_package quiet quiet quiet)
             {| Plugins.bus := ∅; Plugins.plugins := ∅ |}
             ["data"; "inbox"; "scan.pdf"]%string 1 None 0 s Archiver.demo_row).
  - reflexivity.
  - intros p subscribers Hp. unfold Plugins.repository_package, Plugins.instances in Hp.
    cbn [mbind list_bind app] in Hp.
    repeat (apply elem_of_cons in Hp as [->|Hp]; [reflexivity|]).
    by apply elem_of_nil in Hp.
  - apply lookup_singleton_eq.
Defined.

(** ** The name suggested by the analysis *)

Section SuggestedNameFacts.
Import Dates Naming.

Lemma lstrip_chars_suffix drop (s : text) : lstrip_chars drop s `suffix_of` s.
Proof.
  induction s as [|c s IH]; simpl; [done|].
  destruct (drop c); [by apply suffix_cons_r|done].
Qed.

Lemma lstrip_chars_head drop (s : text) c :
  head (lstrip_chars drop s) = Some c -> drop c = false.
Proof.
  induction s as [|c' s IH]; simpl; [done|].
  destruct (drop c') eqn:Hc'; [done|]. simpl. by intros [= <-].
Qed.

Lemma strip_chars_spec drop (s : text) :
  strip_chars drop s `sublist_of` s
  ∧ ∀ c, head (strip_chars drop s) = Some c ∨ last (strip_chars drop s) = Some c ->
         drop c = false.
Proof.
  unfold strip_chars.
  set (t := lstrip_chars drop s).
  pose proof (lstrip_chars_suffix drop (reverse t)) as [k Hk].
  set (u := lstrip_chars drop (reverse t)) in *.
  assert (Ht : t = reverse u ++ reverse k).
  { by rewrite <- reverse_app, <- Hk, reverse_involutive. }
  split.
  - destruct (lstrip_chars_suffix drop s) as [k' Hs]. fold t in Hs.
    rewrite Hs, Ht. by apply sublist_inserts_l, sublist_inserts_r.
  - intros c [Hhead|Hlast].
    + apply (lstrip_chars_head drop s). fold t. rewrite Ht.
      destruct (reverse u); [done|]. exact Hhead.
    + apply (lstrip_chars_head drop (reverse t)). fold u.
      by rewrite last_reverse in Hlast.
Qed.

Lemma replace_reserved_clean (s : text) :
  Forall (fun c => is_reserved c = false) (replace_reserved s).
Proof.
  unfold replace_reserved. apply Forall_fmap, Forall_forall. intros c _. simpl.
  by destruct (is_reserved c) eqn:Hc.
Qed.

(** X20. The name suggested for the archived file is the name of the
    uploaded file, or else the suggestion of the analysis once cleaned: a
    name that is not empty, holds none of the characters the cleaning
    replaces (among them the slash and the backslash), and neither starts
    nor ends with a space or a dot, so that it is never [.] or [..].  It is
    the name of the uploaded file whenever the analysis has failed.  When
    that name holds no slash, neither the suggested name nor the normalised
    name made from it holds one. *)
Theorem cleaned_suggested_name today analysis (file_name : text) :
  let suggested := suggested_name analysis file_name in
  (suggested = file_name
   ∨ (suggested ≠ []
      ∧ Forall (fun c => is_reserved c = false) suggested
      ∧ ∀ c, head suggested = Some c ∨ last suggested = Some c ->
             c ≠ " "%char ∧ c ≠ "."%char))
  ∧ (Archiver.a_error analysis = Some (T "analysis_failed") ->
     suggested = file_name)
  ∧ ("/"%char ∉ file_name ->
     ("/"%char ∉ suggested) ∧ ("/"%char ∉ _normalize_filename today suggested)).
Proof.
  intros suggested.
  assert (Hshape : suggested = file_name
            ∨ (suggested ≠ []
               ∧ Forall (fun c => is_reserved c = false) suggested
               ∧ ∀ c, head suggested = Some c ∨ last suggested = Some c ->
                      c ≠ " "%char ∧ c ≠ "."%char)).
  { subst suggested. unfold suggested_name. case_bool_decide; [by left|].
    destruct (Archiver.a_suggested_filename analysis) as [ai|]; [|by left].
    destruct (strip ai) as [|c0 stripped]; [by left|].
    destruct (strip_chars_spec is_space_or_dot (replace_reserved (c0 :: stripped)))
      as [Hsub Hends].
    destruct (strip_chars is_space_or_dot (replace_reserved (c0 :: stripped)))
      as [|c cleaned]; [by left|].
    right. split; [done|]. split.
    - apply Forall_forall. intros c' Hc'.
      pose proof (replace_reserved_clean (c0 :: stripped)) as Hclean.
      rewrite Forall_forall in Hclean. apply Hclean.
      eapply elem_of_sublist; [exact Hc'|exact Hsub].
    - intros c' Hc'. apply Hends in Hc'. unfold is_space_or_dot in Hc'.
      apply bool_decide_eq_false_1 in Hc'.
      split; intros ->; apply Hc'; [by left|by right]. }
  split; [exact Hshape|]. split.
  { intros Hfailed. subst suggested. unfold suggested_name.
    by rewrite bool_decide_eq_true_2. }
  intros Hname.
  assert (Hslash : "/"%char ∉ suggested).
  { destruct Hshape as [->|(_ & Hclean & _)]; [done|].
    intros Hin. rewrite Forall_forall in Hclean. by apply Hclean in Hin. }
  split; [done|].
  destruct (has_compact_date (stem_of (name (parse suggested)))
            || has_dashed_date (stem_of (name (parse suggested)))) eqn:Hdated.
  - unfold _normalize_filename. by rewrite Hdated.
  - by destruct (normalized_plain today suggested Hdated) as [? _].
Qed.

End SuggestedNameFacts.

(** ** The default storage root *)

Section StorageRootFacts.
Import StorageRoots.

Lemma filter_inactive (l : list row) :
  Forall (fun r => is_active r = false) l ->
  filter (fun r => is_active r = true) l = [].
Proof.
  induction 1 as [|r l Hr _ IH]; [done|].
  rewrite filter_cons, decide_False by congruence. exact IH.
Qed.

(** X21. [_get_default_storage_root] always returns an active row of the
    table it leaves.  When the table holds an active row it is not written
    to, and the row returned is a default one if an active default row
    exists.  When no row is active, the row returned is active and default,
    has the fallback path, and is the only active row afterwards; a row
    that already has the fallback path is switched on instead of a second
    one being added.  A second call returns the same row and writes
    nothing. *)
Theorem default_storage_root (fallback_path : text) new_id new_id' (table : list row) :
  let out := _get_default_storage_root fallback_path new_id table in
  out.2 ∈ out.1
  ∧ is_active out.2 = true
  ∧ (Exists (fun r => is_active r = true) table -> out.1 = table)
  ∧ (Exists (fun r => is_default r = true ∧ is_active r = true) table ->
     is_default out.2 = true)
  ∧ (Forall (fun r => is_active r = false) table ->
     is_default out.2 = true
     ∧ mount_path out.2 = fallback_path
     ∧ filter (fun r => is_active r = true) out.1 = [out.2]
     ∧ (Exists (fun r => mount_path r = fallback_path) table ->
        length out.1 = length table))
  ∧ _get_default_storage_root fallback_path new_id' out.1 = out.
Proof.
  intros out. subst out.
  set (again := _get_default_storage_root fallback_path new_id').
  unfold _get_default_storage_root.
  destruct (list_find (fun r => is_default r = true ∧ is_active r = true) table)
    as [[i default_root]|] eqn:Hdefault.
  { pose proof Hdefault as (Hi & [Hd Ha] & _)%list_find_Some. cbn [fst snd].
    split; [by eapply list_elem_of_lookup_2|]. split; [done|].
    split; [done|]. split; [done|]. split.
    - intros Hnone. rewrite Forall_forall in Hnone.
      assert (is_active default_root = false); [|congruence].
      by eapply Hnone, list_elem_of_lookup_2.
    - unfold again, _get_default_storage_root. by rewrite Hdefault. }
  pose proof Hdefault as Hnodefault%list_find_None.
  destruct (list_find (fun r => is_active r = true) table)
    as [[i any_active]|] eqn:Hactive.
  { pose proof Hactive as (Hi & Ha & _)%list_find_Some. cbn [fst snd].
    split; [by eapply list_elem_of_lookup_2|]. split; [done|].
    split; [done|]. split.
    { intros (r & Hr & Hboth)%Exists_exists. rewrite Forall_forall in Hnodefault.
      by apply Hnodefault in Hr. }
    split.
    - intros Hnone. rewrite Forall_forall in Hnone.
      assert (is_active any_active = false); [|congruence].
      by eapply Hnone, list_elem_of_lookup_2.
    - unfold again, _get_default_storage_root. by rewrite Hdefault, Hactive. }
  pose proof Hactive as Hinactive%list_find_None.
  assert (Hnone : Forall (fun r => is_active r = false) table).
  { eapply Forall_impl; [exact Hinactive|]. intros r Hr. simpl in Hr.
    by destruct (is_active r). }
  assert (Hquiet : ¬ Exists (fun r => is_active r = true) table).
  { intros (r & Hr & Ha)%Exists_exists. rewrite Forall_forall in Hnone.
    apply Hnone in Hr. congruence. }
  destruct (list_find (fun r => mount_path r = fallback_path) table)
    as [[i existing]|] eqn:Hexisting; cbn [fst snd].
  - pose proof Hexisting as (Hi & Hpath & _)%list_find_Some.
    pose proof (lookup_lt_Some _ _ _ Hi) as Hlt.
    assert (Hshape : <[i := activated existing]> table
                     = take i table ++ activated existing :: drop (S i) table).
    { by apply insert_take_drop. }
    assert (Hbefore : Forall (fun r => is_active r = false) (take i table)).
    { by apply Forall_take. }
    assert (Hafter : Forall (fun r => is_active r = false) (drop (S i) table)).
    { by apply Forall_drop. }
    split; [rewrite Hshape; apply elem_of_app; right; apply list_elem_of_here|].
    split; [done|]. split; [done|]. split; [done|]. split.
    + intros _. split; [done|]. split; [done|]. split.
      * rewrite Hshape, filter_app, filter_cons, decide_True by done.
        by rewrite !filter_inactive.
      * intros _. apply length_insert.
    + unfold again, _get_default_storage_root.
      assert (Hfound : list_find (fun r => is_default r = true ∧ is_active r = true)
                         (<[i := activated existing]> table)
                       = Some (i, activated existing)).
      { apply list_find_Some. split; [by apply list_lookup_insert_eq|].
        split; [done|]. intros j y Hy Hj [_ Ha].
        rewrite list_lookup_insert_ne in Hy by lia.
        rewrite Forall_forall in Hnone.
        assert (is_active y = false); [|congruence].
        by eapply Hnone, list_elem_of_lookup_2. }
      by rewrite Hfound.
  - split; [apply elem_of_app; right; apply list_elem_of_here|].
    split; [done|]. split; [done|]. split; [done|]. split.
    + intros _. split; [done|]. split; [done|]. split.
      * rewrite filter_app, filter_inactive by done.
        by rewrite filter_cons, decide_True.
      * intros (r & Hr & Hpath)%Exists_exists.
        apply list_find_None in Hexisting. rewrite Forall_forall in Hexisting.
        by apply Hexisting in Hr.
    + unfold again, _get_default_storage_root.
      rewrite list_find_app_r by done. cbn [list_find].
      rewrite decide_True by done. done.
Qed.

End StorageRootFacts.

(** ** The folder of a date *)

Section YearMonthFacts.
Import Dates Archiver.

Lemma digit_char_of_digit c d :
  digit c = Some d -> (0 <= d <= 9)%Z ∧ ascii_of_nat (48 + Z.to_nat d) = c.
Proof.
  destruct c as [[] [] [] [] [] [] [] []]; vm_compute; try discriminate;
    intros [= <-]; (split; [split; discriminate|reflexivity]).
Qed.

Lemma number2_digits c1 c2 n :
  number [c1; c2] = Some n -> [digit_char (n / 10); digit_char n] = [c1; c2].
Proof.
  unfold number, digits_from.
  destruct (digit c1) as [d1|] eqn:H1; [|done].
  destruct (digit c2) as [d2|] eqn:H2; [|done].
  intros [= <-].
  apply digit_char_of_digit in H1 as [? <-], H2 as [? <-].
  unfold digit_char. repeat f_equal; Z.div_mod_to_equations; lia.
Qed.

Lemma number4_digits c1 c2 c3 c4 n :
  number [c1; c2; c3; c4] = Some n ->
  [digit_char (n / 1000); digit_char (n / 100); digit_char (n / 10); digit_char n]
  = [c1; c2; c3; c4].
Proof.
  unfold number, digits_from.
  destruct (digit c1) as [d1|] eqn:H1; [|done].
  destruct (digit c2) as [d2|] eqn:H2; [|done].
  destruct (digit c3) as [d3|] eqn:H3; [|done].
  destruct (digit c4) as [d4|] eqn:H4; [|done].
  intros [= <-].
  apply digit_char_of_digit in H1 as [? <-], H2 as [? <-], H3 as [? <-], H4 as [? <-].
  unfold digit_char. repeat f_equal; Z.div_mod_to_equations; lia.
Qed.

(** What [fromisoformat] returns has passed the checks of the
    constructor. *)
Lemma new_datetime_valid y m d hh mm ss us tz dt :
  new_datetime y m d hh mm ss us tz = Returned dt ->
  year dt = y ∧ month dt = m ∧ day dt = d
  ∧ (1 <= y <= 9999)%Z ∧ (1 <= m <= 12)%Z ∧ (1 <= d <= days_in_month y m)%Z.
Proof.
  unfold new_datetime, value_error.
  destruct (negb (from_option _ _ _)); [done|].
  destruct ((1 <=? y) && (y <=? 9999))%Z eqn:Hy; [|done].
  destruct ((1 <=? m) && (m <=? 12))%Z eqn:Hm; [|done].
  destruct ((1 <=? d) && (d <=? days_in_month y m))%Z eqn:Hd; [|done].
  cbn [negb].
  destruct (hh <=? 23)%Z; [|done]. destruct (mm <=? 59)%Z; [|done].
  destruct (ss <=? 59)%Z; [|done]. cbn [negb]. intros [= <-]. cbn.
  apply andb_true_iff in Hy as [?%Z.leb_le ?%Z.leb_le].
  apply andb_true_iff in Hm as [?%Z.leb_le ?%Z.leb_le].
  apply andb_true_iff in Hd as [?%Z.leb_le ?%Z.leb_le].
  done.
Qed.

Lemma fromisoformat_date (s : text) dt :
  fromisoformat s = Returned dt ->
  ∃ separator_location,
    _find_isoformat_datetime_separator (encode s) = Some separator_location
    ∧ parse_isoformat_date (encode s) separator_location
      = Some (year dt, month dt, day dt)
    ∧ 7 ≤ length (encode s)
    ∧ (1 <= year dt <= 9999)%Z ∧ (1 <= month dt <= 12)%Z
    ∧ (1 <= day dt <= days_in_month (year dt) (month dt))%Z.
Proof.
  unfold fromisoformat, value_error.
  destruct (length (encode s) <? 7) eqn:Hlen; [done|].
  apply Nat.ltb_ge in Hlen.
  destruct (_find_isoformat_datetime_separator (encode s)) as [sep|]; [|done].
  destruct (parse_isoformat_date (encode s) sep) as [[[y m] d]|] eqn:Hdate; [|done].
  destruct (if sep <? _ then _ else _) as [[[vals us] tz]|]; [|done].
  intros (<- & <- & <- & ? & ? & ?)%new_datetime_valid. by exists sep.
Qed.

(** Reading digits off the bytes of a text reads the characters at its
    front. *)
Lemma parse_digits_tail x b n : ∀ p v,
  parse_digits (x :: b) (S p) n v = prod_map id S <$> parse_digits b p n v.
Proof.
  induction n as [|n IH]; intros p v; [done|]. cbn [parse_digits].
  change (byte_at (x :: b) (S p)) with (byte_at b p).
  destruct (is_digit_byte (byte_at b p)); [apply IH|done].
Qed.

Lemma encode_cons (c : ascii) (t : text) : encode (c :: t) = utf8 c ++ encode t.
Proof. done. Qed.

Lemma digit_front (t : text) :
  is_digit_byte (byte_at (encode t) 0) = true ->
  ∃ c t', t = c :: t' ∧ encode t = nat_of_ascii c :: encode t'
          ∧ digit c = Some (Z.of_nat (byte_at (encode t) 0 - 48)).
Proof.
  destruct t as [|c t']; [done|]. rewrite encode_cons. unfold utf8.
  destruct (nat_of_ascii c <? 128) eqn:Hc; cbn [app].
  - change (byte_at (nat_of_ascii c :: encode t') 0) with (nat_of_ascii c).
    intros Hd. exists c, t'. split; [done|]. split; [done|].
    unfold digit. cbv zeta. unfold is_digit_byte in Hd. by rewrite Hd.
  - change (byte_at (?x :: ?l) 0) with x.
    unfold is_digit_byte. intros [_ H2%Nat.leb_le]%andb_true_iff. lia.
Qed.

Lemma parse_digits_front n : ∀ (t : text) v val q,
  parse_digits (encode t) 0 n v = Some (val, q) ->
  ∃ cs t', t = cs ++ t' ∧ length cs = n ∧ q = n
           ∧ digits_from v cs = Some val
           ∧ encode t = (nat_of_ascii <$> cs) ++ encode t'.
Proof.
  induction n as [|n IH]; intros t v val q.
  { intros [= <- <-]. by exists [], t. }
  cbn [parse_digits].
  destruct (is_digit_byte (byte_at (encode t) 0)) eqn:Hd; [|done].
  destruct (digit_front t Hd) as (c & t1 & -> & He & Hc).
  rewrite He in Hc |- *.
  change (byte_at (nat_of_ascii c :: encode t1) 0) with (nat_of_ascii c) in *.
  rewrite parse_digits_tail.
  destruct (parse_digits (encode t1) 0 n _) as [[val' q']|] eqn:Hrest; [|done].
  intros [= <- <-].
  apply IH in Hrest as (cs & t' & -> & Hlen & -> & Hdigits & Henc).
  exists (c :: cs), t'. split; [done|]. split; [by rewrite <- Hlen|].
  split; [done|]. split.
  - cbn [digits_from]. by rewrite Hc.
  - by rewrite Henc.
Qed.

Lemma first_byte (t : text) (c : ascii) :
  0 < nat_of_ascii c < 128 ->
  byte_at (encode t) 0 = nat_of_ascii c -> head t = Some c.
Proof.
  intros Hc. destruct t as [|c' t']; [cbn; lia|].
  rewrite encode_cons. unfold utf8.
  destruct (nat_of_ascii c' <? 128) eqn:Hc'; cbn [app];
    change (byte_at (?x :: ?l) 0) with x.
  - intros Heq. simpl. f_equal.
    by rewrite <- (ascii_nat_embedding c'), Heq, ascii_nat_embedding.
  - lia.
Qed.

(** A text in the calendar form with hyphens that [fromisoformat] reads
    starts with the four digits of the year, a hyphen and the two digits of
    the month. *)
Lemma fromisoformat_calendar (s : text) dt :
  fromisoformat s = Returned dt ->
  s !! 4 = Some "-"%char -> s !! 5 ≠ Some "W"%char ->
  ∃ y1 y2 y3 y4 m1 m2 rest,
    s = y1 :: y2 :: y3 :: y4 :: "-"%char :: m1 :: m2 :: rest
    ∧ number [y1; y2; y3; y4] = Some (year dt)
    ∧ number [m1; m2] = Some (month dt).
Proof.
  intros (sep & _ & Hdate & _)%fromisoformat_date H4 H5.
  unfold parse_isoformat_date in Hdate.
  destruct (parse_digits (encode s) 0 4 0) as [[y p]|] eqn:Hyear; [|done].
  apply parse_digits_front in Hyear as (cs & t & -> & Hcs & -> & Hy & Henc).
  destruct cs as [|y1 [|y2 [|y3 [|y4 [|]]]]]; try done.
  destruct t as [|h t1]; [done|]. injection H4 as ->.
  change (t1 !! 0 ≠ Some "W"%char) in H5. rewrite <- head_lookup in H5.
  rewrite Henc, encode_cons in Hdate.
  change (utf8 "-") with [45] in Hdate. cbn [fmap list_fmap app mbind option_bind] in Hdate.
  change (byte "-") with 45 in Hdate. change (byte "W") with 87 in Hdate.
  change (byte_at (_ :: _ :: _ :: _ :: ?x :: _) 4) with x in Hdate.
  cbn [Nat.eqb] in Hdate.
  change (byte_at (_ :: _ :: _ :: _ :: _ :: ?l) 5) with (byte_at l 0) in Hdate.
  destruct (byte_at (encode t1) 0 =? 87) eqn:HW.
  { apply Nat.eqb_eq in HW. destruct H5.
    apply (first_byte t1 "W"); [vm_compute; lia|done]. }
  rewrite !parse_digits_tail in Hdate.
  destruct (parse_digits (encode t1) 0 2 0) as [[m p]|] eqn:Hmonth; [|done].
  apply parse_digits_front in Hmonth as (ms & t2 & -> & Hms & -> & Hm & _).
  destruct ms as [|m1 [|m2 [|]]]; try done.
  cbn [fmap option_fmap option_map mbind option_bind prod_map fst snd id] in Hdate.
  destruct (_ && _) in Hdate; [done|].
  destruct (parse_digits _ _ 2 0) as [[d q]|] in Hdate; [|done].
  injection Hdate as <- <- _.
  by exists y1, y2, y3, y4, m1, m2, t2.
Qed.

(** The year of a date as [strftime] writes it. *)
Lemma strftime_Y_digits dt :
  (1 <= year dt <= 9999)%Z ->
  Forall (fun c => Naming.is_digit c = true) (strftime_Y dt)
  ∧ 1 ≤ length (strftime_Y dt) ≤ 4.
Proof.
  intros Hyear. unfold strftime_Y.
  assert (Hall : Forall (fun y => forallb Naming.is_digit (T (pretty y)) = true
                                  ∧ 1 ≤ length (T (pretty y)) ≤ 4)
                   (seqZ 1 9999)).
  { apply (bool_decide_unpack _). by vm_compute. }
  rewrite Forall_forall in Hall.
  destruct (Hall (year dt)) as [Hdigits Hlen]; [apply elem_of_seqZ; lia|].
  split; [|done]. apply Forall_forall. intros c Hc.
  rewrite forallb_forall in Hdigits. by apply Hdigits, list_elem_of_In.
Qed.

(** X22. The year and month of the folder are read off the structured
    date when [fromisoformat] reads it.  For a date in the calendar form
    with hyphens, alone or followed by a time, the month is the sixth and
    seventh character of the text and the year is the number its first
    four characters write, without leading zeros: from the year 1000 on,
    these four characters.  Without a date, for an empty text and for a
    text that [fromisoformat] refuses, they are those of the fallback
    instant.  With a fallback instant of the years 1 to 9999 the year is
    made of one to four digits and the month of two.  A fraction of a
    second and a week date are read; the year 999 is written [999]. *)
Theorem dated_folder (date_str : option text) fallback_dt :
  let folder := _pick_year_month date_str fallback_dt in
  (∀ s dt, date_str = Some s -> fromisoformat s = Returned dt ->
           s !! 4 = Some "-"%char -> s !! 5 ≠ Some "W"%char ->
           folder = (strftime_Y dt, take 2 (drop 5 s))
           ∧ number (take 4 s) = Some (year dt)
           ∧ ((1000 <= year dt)%Z -> folder = (take 4 s, take 2 (drop 5 s))))
  ∧ ((date_str = None ∨ date_str = Some []
      ∨ ∃ s e, date_str = Some s ∧ fromisoformat s = Raised e) ->
     folder = (strftime_Y fallback_dt, strftime_m fallback_dt))
  ∧ ((1 <= year fallback_dt <= 9999)%Z ->
     Forall (fun c => Naming.is_digit c = true) (folder.1 ++ folder.2)
     ∧ 1 ≤ length folder.1 ≤ 4 ∧ length folder.2 = 2)
  ∧ _pick_year_month (Some (T "2023-11-15T10:00:00.5")) fallback_dt
    = (T "2023", T "11")
  ∧ _pick_year_month (Some (T "2023-W46-3")) fallback_dt = (T "2023", T "11")
  ∧ _pick_year_month (Some (T "0999-01-01")) fallback_dt = (T "999", T "01")
  ∧ _pick_year_month (Some (T "2023-11")) fallback_dt
    = (strftime_Y fallback_dt, strftime_m fallback_dt).
Proof.
  intros folder. split; [|split; [|split]].
  - intros s dt -> Hiso H4 H5.
    destruct (fromisoformat_calendar s dt Hiso H4 H5)
      as (y1 & y2 & y3 & y4 & m1 & m2 & rest & -> & Hy & Hm).
    assert (Hfolder : folder = (strftime_Y dt, [m1; m2])).
    { subst folder. unfold _pick_year_month. rewrite Hiso.
      unfold strftime_m. by rewrite (number2_digits _ _ _ Hm). }
    split; [done|]. split; [done|]. intros Hyear.
    rewrite Hfolder. f_equal.
    apply fromisoformat_date in Hiso as (_ & _ & _ & _ & Hrange & _).
    rewrite strftime_Y_four by lia. by apply number4_digits.
  - subst folder. unfold _pick_year_month.
    intros [->|[->|(s & e & -> & Hiso)]]; [done|done|].
    destruct s as [|c s]; [done|]. by rewrite Hiso.
  - intros Hfallback.
    assert (Hshape : ∃ dt, folder = (strftime_Y dt, strftime_m dt)
                           ∧ (1 <= year dt <= 9999)%Z).
    { subst folder. unfold _pick_year_month.
      destruct date_str as [[|c s]|]; try by eexists.
      destruct (fromisoformat (c :: s)) as [dt|e] eqn:Hiso; [|by eexists].
      exists dt. split; [done|].
      by apply fromisoformat_date in Hiso as (_ & _ & _ & _ & ? & _). }
    destruct Hshape as (dt & -> & Hyear). cbn [fst snd].
    destruct (strftime_Y_digits dt Hyear) as [Hdigits Hlen].
    split; [|done]. apply Forall_app. split; [done|].
    unfold strftime_m. repeat (constructor; [apply digit_char_is_digit|]).
    constructor.
  - by repeat split.
Qed.

End YearMonthFacts.

(** ** The text of a record *)

Section HeaderFacts.
Import Vectorizer.

Lemma lstrip_keeps (l r : text) c :
  isspace c = false -> ∃ l', lstrip (l ++ c :: r) = l' ++ c :: r.
Proof.
  intros Hc. induction l as [|x l [l' IH]]; simpl.
  - exists []. by rewrite Hc.
  - destruct (isspace x); [by exists l'|by exists (x :: l)].
Qed.

Lemma rstrip_keeps (a b : text) c :
  isspace c = false -> ∃ b', rstrip (a ++ c :: b) = a ++ c :: b'.
Proof.
  intros Hc. unfold rstrip. rewrite reverse_app, reverse_cons, <- app_assoc.
  destruct (lstrip_keeps (reverse b) (reverse a) c Hc) as [l' Hl']. simpl.
  rewrite Hl'. exists (reverse l').
  by rewrite reverse_app, reverse_cons, reverse_involutive, <- app_assoc.
Qed.

(** The text of a record, stripped, keeps its header up to the rule. *)
Lemma text_to_embed_stripped record :
  ∃ head tail, strip (text_to_embed record) = T "Title: " ++ head ++ T "---" ++ tail.
Proof.
  unfold text_to_embed, meta_header, strip.
  set (middle := ArchiveRecord.filename record ++ NL
                 ++ T "Type: " ++ ArchiveRecord.file_type record ++ NL
                 ++ T "Category: "
                 ++ or_text (ArchiveRecord.category record) (T "Uncategorized") ++ NL
                 ++ T "Tags: " ++ join (T ", ") (tags_list record) ++ NL
                 ++ T "Summary: " ++ or_text (ArchiveRecord.summary record) (T "N/A")
                 ++ NL).
  assert (Hshape : (T "Title: " ++ ArchiveRecord.filename record ++ NL
                    ++ T "Type: " ++ ArchiveRecord.file_type record ++ NL
                    ++ T "Category: "
                    ++ or_text (ArchiveRecord.category record) (T "Uncategorized") ++ NL
                    ++ T "Tags: " ++ join (T ", ") (tags_list record) ++ NL
                    ++ T "Summary: " ++ or_text (ArchiveRecord.summary record) (T "N/A")
                    ++ NL ++ T "---" ++ NL) ++ body_content record
                   = (T "Title: " ++ middle ++ T "--")
                     ++ "-"%char :: (NL ++ body_content record)).
  { unfold middle. rewrite <- !app_assoc. done. }
  rewrite Hshape.
  assert (Hleft : lstrip ((T "Title: " ++ middle ++ T "--")
                          ++ "-"%char :: (NL ++ body_content record))
                  = (T "Title: " ++ middle ++ T "--")
                    ++ "-"%char :: (NL ++ body_content record)).
  { done. }
  rewrite Hleft.
  destruct (rstrip_keeps (T "Title: " ++ middle ++ T "--")
              (NL ++ body_content record) "-"%char) as [tail ->]; [done|].
  exists middle, tail. rewrite <- !app_assoc. done.
Qed.

(** X23. The text embedded for a record always starts with its header,
    so, stripped, it has at least 10 characters whatever the record holds:
    an indexing pass never ends for lack of text.  A record whose text has
    at most 2,000 characters and is embedded into a vector that is not empty
    is committed with exactly one chunk: the whole text under the index 0,
    with the key the database hands out next. *)
Theorem every_record_is_embedded embed_text now archive_id db :
  (∀ record, 10 ≤ length (strip (text_to_embed record)))
  ∧ (_process_vectorization embed_text now archive_id db).2 ≠ NoText
  ∧ (∀ record vector,
       archives db !! archive_id = Some record ->
       length (text_to_embed record) ≤ 2000 ->
       embed_text (text_to_embed record) = Returned vector ->
       vector ≠ [] ->
       ∃ db1,
         _process_vectorization embed_text now archive_id db = (db1, Committed 1)
         ∧ nodes_of archive_id (vector_nodes db1)
           = [{| VectorNode.id := next_node_id db;
                 VectorNode.parent_archive_id := archive_id;
                 VectorNode.content := text_to_embed record;
                 VectorNode.chunk_index := 0;
                 VectorNode.embedding := vector;
                 VectorNode.source_length := length (text_to_embed record);
                 VectorNode.is_image_desc :=
                   bool_decide (ArchiveRecord.file_type record = T "image") |}]).
Proof.
  assert (Hlong : ∀ record, 10 ≤ length (strip (text_to_embed record))).
  { intros record. destruct (text_to_embed_stripped record) as (head & tail & ->).
    rewrite !length_app. simpl. lia. }
  split; [done|]. split.
  - unfold _process_vectorization.
    destruct (archives db !! archive_id) as [record|]; [|done].
    destruct (decide (strip (text_to_embed record) = [])) as [Hempty|_].
    { specialize (Hlong record). rewrite Hempty in Hlong. simpl in Hlong. lia. }
    destruct (embed_text _) as [vector|e]; [|done].
    by destruct (embed_chunks _ _ _ _ _ _).
  - intros record vector Hrecord Hshort Hvector Hfull.
    set (node := {| VectorNode.id := next_node_id db;
                    VectorNode.parent_archive_id := archive_id;
                    VectorNode.content := text_to_embed record;
                    VectorNode.chunk_index := 0;
                    VectorNode.embedding := vector;
                    VectorNode.source_length := length (text_to_embed record);
                    VectorNode.is_image_desc :=
                      bool_decide (ArchiveRecord.file_type record = T "image") |}).
    assert (Hchunks :
      embed_chunks embed_text archive_id (length (text_to_embed record))
        (bool_decide (ArchiveRecord.file_type record = T "image"))
        (next_node_id db) (enumerate (split_chunks (text_to_embed record)))
      = Returned [node]).
    { unfold split_chunks, CHUNK_SIZE. rewrite decide_False by lia.
      unfold enumerate. cbn [length seq zip zip_with embed_chunks].
      rewrite decide_False by (specialize (Hlong record); lia).
      rewrite Hvector. by destruct vector. }
    assert (Hcoarse : embed_text (take 2000 (text_to_embed record)) = Returned vector).
    { by rewrite take_ge by lia. }
    assert (Htext : strip (text_to_embed record) ≠ []).
    { intros Hempty. specialize (Hlong record). rewrite Hempty in Hlong.
      simpl in Hlong. lia. }
    destruct (_process_vectorization_commits embed_text now archive_id db record
                vector [node] Hrecord Htext Hcoarse Hchunks) as [db1 Hpass].
    exists db1. split; [exact Hpass|].
    apply _process_vectorization_committed in Hpass
      as (record' & vector' & new_nodes & Hrecord' & _ & _ & Hchunks' & _ & _ & -> & _).
    rewrite Hrecord in Hrecord'. injection Hrecord' as <-.
    rewrite Hchunks in Hchunks'. injection Hchunks' as <-.
    unfold nodes_of. rewrite filter_app. fold (nodes_of archive_id (delete_nodes_of archive_id (vector_nodes db))).
    rewrite nodes_of_delete_same. by rewrite filter_cons, decide_True.
Qed.

End HeaderFacts.

(** ** From the analysis to the time filter *)

Section ArchivedDateFacts.
Import Dates Archiver Retrieval.

(** The record a returning run has committed, for an analysis that is a
    dictionary. *)
Lemma _process_and_persist_row env file_path record w w' r d :
  _process_and_persist env file_path (Some record) w = (w', Returned r) ->
  analyze_file env = Returned (Some (AnalysisDict d)) ->
  rows w' !! ArchiveRecord.id record = Some r
  ∧ ArchiveRecord.meta_data r = Some (merged_meta (ArchiveRecord.meta_data record) d)
  ∧ ArchiveRecord.processed_at r = Some (micros (today env)).
Proof.
  intros Hrun Hanalysis. revert Hrun.
  unfold _process_and_persist, try_body. rewrite Hanalysis.
  destruct (sanitized_username env) as [user|e]; [|done].
  destruct (default_storage_root env) as [root|e]; [|done].
  destruct (_pick_year_month _ _) as [y m].
  destruct (generated_target_path env) as [[final_path relative_path]|e]; [|done].
  unfold move. destruct (move_error env) as [e|]; [done|].
  case_bool_decide as Hsrc; [|done].
  destruct (st_size env) as [size|e]; [|done].
  destruct (commit_error env) as [e|]; [done|].
  intros [= <- <-]. cbn [rows completed ArchiveRecord.id ArchiveRecord.meta_data
                         ArchiveRecord.processed_at].
  by rewrite lookup_insert_eq.
Qed.

(** X24. The time filter of the search judges an archived document by
    the date its analysis gave: after a run of the archiver that returns,
    for an analysis with a structured date that can be read, the filter
    answers what [in_range] answers for that date and the bounds of the
    range, whatever the day of archiving and whatever the record held
    before.  The answer is a [TypeError] when the date is compared with a
    bound of which exactly one carries a UTC offset. *)
Theorem archived_date_is_filter_date env file_path record w w' r d now
    (time_range date : text) start end_ dt :
  _process_and_persist env file_path (Some record) w = (w', Returned r) ->
  analyze_file env = Returned (Some (AnalysisDict d)) ->
  a_structured d = Some (Some date) ->
  _parse_date date = Some dt ->
  time_range ≠ [] ->
  range_bounds now time_range = Returned (start, end_) ->
  pass_time now (rows w') (Some time_range) (ArchiveRecord.id record)
  = in_range start end_ (instant_of dt).
Proof.
  intros Hrun Hanalysis Hdate Hparse Hrange Hbounds.
  destruct (_process_and_persist_row env file_path record w w' r d Hrun Hanalysis)
    as (Hrow & Hmeta & Hat).
  unfold pass_time. rewrite Hrow, Hmeta, Hat. unfold _match_time_range.
  destruct time_range as [|ch time_range]; [done|]. rewrite Hbounds.
  unfold merged_meta. rewrite Hdate.
  destruct date as [|c s]; [done|]. cbn [semantic_date]. by rewrite Hparse.
Qed.

End ArchivedDateFacts.

Lemma archived_date_is_filter_date_witness :
  Retrieval.pass_time Retrieval.sample_now (Archiver.rows Archiver.success_run.1)
    (Some (T "2023-11")) 1
  = Returned true
  ∧ Retrieval.pass_time Retrieval.sample_now (Archiver.rows Archiver.success_run.1)
      (Some (T "last7d")) 1
    = Returned false
  ∧ Retrieval.pass_time Retrieval.sample_now (Archiver.rows Archiver.success_run.1)
      (Some (T "2023-11-15T10:00:00.500000")) 1
    = Returned false
  ∧ Retrieval.pass_time Retrieval.sample_now (Archiver.rows Archiver.success_run.1)
      (Some (T "2023-11-15T10:00:00+08:00")) 1
    = Raised (Exception "can't compare offset-naive and offset-aware datetimes").
Proof.
  destruct Archiver.success_run as [w' [r|e]] eqn:Hrun; [|by vm_compute in Hrun].
  unfold Archiver.success_run in Hrun. cbn [fst].
  assert (Hfilter : ∀ time_range start end_,
            time_range ≠ [] ->
            Retrieval.range_bounds Retrieval.sample_now time_range
            = Returned (start, end_) ->
            Retrieval.pass_time Retrieval.sample_now (Archiver.rows w')
              (Some time_range) 1
            = Retrieval.in_range start end_
                (Dates.instant_of
                   (default Retrieval.sample_now
                      (Retrieval._parse_date (T "2023-11-15"))))).
  { intros time_range start end_ Hne Hbounds.
    eapply archived_date_is_filter_date
      with (date := T "2023-11-15") (record := Archiver.demo_row);
      [exact Hrun|reflexivity|reflexivity|vm_compute; reflexivity|done|exact Hbounds]. }
  split; [|split; [|split]].
  - etrans; [eapply Hfilter; [done|vm_compute; reflexivity]|]. by vm_compute.
  - etrans; [eapply Hfilter; [done|vm_compute; reflexivity]|]. by vm_compute.
  - etrans; [eapply Hfilter; [done|vm_compute; reflexivity]|]. by vm_compute.
  - etrans; [eapply Hfilter; [done|vm_compute; reflexivity]|]. by vm_compute.
Defined.

(** ** Public URLs *)

Section FileServiceFacts.
Import Naming FileService.

Lemma split_slash_app_plain (p : text) : ∀ cur rest,
  "/"%char ∉ p -> split_slash cur (p ++ rest) = split_slash (reverse p ++ cur) rest.
Proof.
  induction p as [|c p IH]; intros cur rest Hp; [done|].
  apply not_elem_of_cons in Hp as [Hc Hp]. simpl.
  rewrite decide_False by done. rewrite IH by done.
  by rewrite reverse_cons, <- app_assoc.
Qed.

Lemma split_slash_join (ps : list text) :
  Forall (fun p => "/"%char ∉ p) ps -> ps ≠ [] ->
  split_slash [] (join (T "/") ps) = ps.
Proof.
  induction 1 as [|p ps Hp Hps IH]; intros Hne; [done|].
  destruct ps as [|q ps].
  - simpl. by rewrite split_slash_no_slash.
  - change (join (T "/") (p :: q :: ps)) with (p ++ "/"%char :: join (T "/") (q :: ps)).
    rewrite split_slash_app_plain by done. cbn [split_slash].
    rewrite decide_True by done.
    rewrite app_nil_r, reverse_involutive. by rewrite IH.
Qed.

Lemma join_head (ps : list text) (p : text) :
  p ≠ [] -> head (join (T "/") (p :: ps)) = head p.
Proof. by destruct ps, p. Qed.

Lemma parse_join (ps : list text) :
  Forall plain_part ps -> ps ≠ [] ->
  parse (join (T "/") ps) = {| root := []; parts := ps |}.
Proof.
  intros Hps Hne. unfold parse. f_equal.
  - destruct ps as [|p ps]; [done|]. apply Forall_cons in Hps as [(Hp & Hslash & _) _].
    pose proof (join_head ps p Hp) as Hhead.
    destruct p as [|c p]; [done|]. apply not_elem_of_cons in Hslash as [Hc _].
    destruct (join (T "/") ((c :: p) :: ps)) as [|c' rest]; [done|].
    injection Hhead as ->.
    destruct (decide (c = "/"%char)) as [->|_]; [done|by repeat case_match].
  - rewrite split_slash_join; [|eapply Forall_impl; [exact Hps|by intros p (_ & ? & _)]|done].
    clear Hne. induction Hps as [|p ps (Hp & _ & Hdot) _ IH]; [done|].
    rewrite filter_cons, decide_True by done. by rewrite IH.
Qed.

Lemma parse_parts_plain (s : text) : Forall plain_part (parts (parse s)).
Proof.
  apply Forall_forall. intros p Hp. unfold parse in Hp. cbn [parts] in Hp.
  apply list_elem_of_filter in Hp as [[Hne Hdot] Hp]. repeat split; [done| |done].
  eapply split_slash_parts; [|exact Hp]. apply not_elem_of_nil.
Qed.

Lemma lstrip_root (s x : text) :
  lstrip_chars is_slash (root (parse s) ++ x) = lstrip_chars is_slash x.
Proof. unfold parse. cbn [root]. by repeat case_match. Qed.

Lemma lstrip_join (ps : list text) :
  Forall plain_part ps ->
  lstrip_chars is_slash (join (T "/") ps) = join (T "/") ps.
Proof.
  intros Hps. destruct ps as [|p ps]; [done|].
  apply Forall_cons in Hps as [(Hp & Hslash & _) _].
  pose proof (join_head ps p Hp) as Hhead.
  destruct p as [|c p]; [done|]. apply not_elem_of_cons in Hslash as [Hc _].
  destruct (join (T "/") ((c :: p) :: ps)) as [|c' rest]; [done|].
  injection Hhead as ->. cbn [lstrip_chars]. unfold is_slash.
  by rewrite bool_decide_false.
Qed.

Lemma join_snoc (ps : list text) (p q : text) :
  join (T "/") ((p :: ps) ++ [q]) = join (T "/") (p :: ps) ++ T "/" ++ q.
Proof.
  revert p. induction ps as [|p' ps IH]; intros p; [done|].
  change (join (T "/") ((p :: p' :: ps) ++ [q]))
    with (p ++ T "/" ++ join (T "/") ((p' :: ps) ++ [q])).
  rewrite IH.
  change (join (T "/") (p :: p' :: ps)) with (p ++ T "/" ++ join (T "/") (p' :: ps)).
  by rewrite <- !app_assoc.
Qed.

Lemma join_not_dot (ps : list text) :
  Forall plain_part ps -> join (T "/") ps ≠ T ".".
Proof.
  intros Hps. destruct ps as [|p ps]; [done|].
  apply Forall_cons in Hps as [(Hp & _ & Hdot) _].
  destruct ps as [|q ps]; [done|].
  change (join (T "/") (p :: q :: ps)) with (p ++ T "/" ++ join (T "/") (q :: ps)).
  intros Heq. apply (f_equal length) in Heq. rewrite !length_app in Heq.
  destruct p; [done|]. simpl in Heq. lia.
Qed.

Lemma hex_digit_unreserved (n : nat) : is_unreserved (hex_digit n) = true.
Proof. unfold hex_digit. do 16 (destruct n as [|n]; [done|]). by destruct n. Qed.

Lemma rstrip_slash_last (s : text) : last (rstrip_slash s) ≠ Some "/"%char.
Proof.
  unfold rstrip_slash. rewrite last_reverse.
  induction (reverse s) as [|c r IH]; [done|]. cbn [lstrip_chars].
  destruct (is_slash c) eqn:Hc; [done|]. simpl. intros [= ->]. done.
Qed.

(** X25. The public URL of a file.  Without a relative path it is the
    base URL, freed of its trailing slashes, followed by [/files].  For a
    relative path it is that base, [/files/], and the parts of the path
    ([.] parts, empty parts and leading slashes dropped) joined by single
    slashes, where only the last part, the file name, is percent-encoded
    and the directories are written as they are; a path without parts
    gives [base/files/].  The encoded name holds only letters, digits,
    [_ . - ~ /] and [%], and a name made of these without [%] is left as
    it is. *)
Theorem public_url (FILE_SERVICE_BASE_URL : text) :
  let base_url := rstrip_slash FILE_SERVICE_BASE_URL in
  last base_url ≠ Some "/"%char
  ∧ get_file_public_url FILE_SERVICE_BASE_URL None = base_url ++ T "/files"
  ∧ get_file_public_url FILE_SERVICE_BASE_URL (Some []) = base_url ++ T "/files"
  ∧ (∀ relative_path : text, relative_path ≠ [] ->
       (parts (parse relative_path) = [] ->
        get_file_public_url FILE_SERVICE_BASE_URL (Some relative_path)
        = base_url ++ T "/files/")
       ∧ (∀ (dir : list text) (entry : text),
            parts (parse relative_path) = dir ++ [entry] ->
            Forall plain_part (dir ++ [entry])
            ∧ get_file_public_url FILE_SERVICE_BASE_URL (Some relative_path)
              = base_url ++ T "/files/" ++ join (T "/") (dir ++ [quote entry])))
  ∧ (∀ (dir : list text) (entry : text), Forall plain_part (dir ++ [entry]) ->
       parts (parse (join (T "/") (dir ++ [entry]))) = dir ++ [entry])
  ∧ (∀ s : text,
       Forall (fun c => is_unreserved c = true ∨ c = "/"%char ∨ c = "%"%char) (quote s))
  ∧ (∀ s : text,
       Forall (fun c => is_unreserved c = true ∨ c = "/"%char) s -> quote s = s).
Proof.
  intros base_url. split; [apply rstrip_slash_last|].
  split; [done|]. split; [done|]. split; [|split; [|split]].
  - intros relative_path Hne.
    assert (∀ ps, parts (parse relative_path) = ps ->
              lstrip_chars is_slash (as_posix (parse relative_path)) = join (T "/") ps
              ∨ ps = [] ∧ parts (parse (lstrip_chars is_slash
                                          (as_posix (parse relative_path)))) = []
                ∧ root (parse (lstrip_chars is_slash
                                 (as_posix (parse relative_path)))) = [])
      as Hrel.
    { intros ps Hps. pose proof (parse_parts_plain relative_path) as Hplain.
      rewrite Hps in Hplain. unfold as_posix. rewrite Hps.
      destruct ps as [|p ps].
      - right. split; [done|].
        destruct (root (parse relative_path)) as [|c r] eqn:Hroot; [done|].
        rewrite <- Hroot, lstrip_root. done.
      - left. transitivity (lstrip_chars is_slash
                              (root (parse relative_path) ++ join (T "/") (p :: ps))).
        + by destruct (root (parse relative_path)).
        + by rewrite lstrip_root, lstrip_join. }
    destruct relative_path as [|c0 s0]; [done|].
    set (relative_path := c0 :: s0) in *.
    split.
    + intros Hparts. destruct (Hrel [] Hparts) as [Heq|(_ & Hp & Hr)].
      * unfold get_file_public_url. fold base_url. subst relative_path.
        cbv zeta. rewrite Heq. done.
      * unfold get_file_public_url. fold base_url. subst relative_path.
        cbv zeta.
        destruct (parse (lstrip_chars is_slash (as_posix (parse (c0 :: s0)))))
          as [r ps].
        cbn [root parts] in Hp, Hr. by subst r ps.
    + intros dir entry Hparts.
      pose proof (parse_parts_plain relative_path) as Hplain. rewrite Hparts in Hplain.
      split; [done|].
      destruct (Hrel _ Hparts) as [Heq|(Hnil & _)];
        [|by destruct dir].
      unfold get_file_public_url. fold base_url. subst relative_path.
      cbv zeta. rewrite Heq, parse_join by (done || by destruct dir).
      unfold name, parent, as_posix. cbn [root parts].
      rewrite last_snoc, removelast_last. cbn [default].
      apply Forall_app in Hplain as [Hdir _].
      destruct dir as [|d dir]; [done|].
      rewrite decide_False by by apply join_not_dot.
      by rewrite join_snoc.
  - intros dir entry Hplain. rewrite parse_join; [done|done|by destruct dir].
  - intros s. unfold quote. apply Forall_bind, Forall_forall. intros c _.
    unfold compose.
    destruct (is_unreserved c) eqn:Hc; cbn [orb];
      [constructor; [by left|constructor]|].
    destruct (is_slash c) eqn:Hs.
    + apply bool_decide_eq_true in Hs as ->.
      constructor; [by right; left|constructor].
    + apply Forall_bind, Forall_forall. intros b _. unfold compose, percent.
      constructor; [by right; right|].
      constructor; [left; apply hex_digit_unreserved|].
      constructor; [left; apply hex_digit_unreserved|constructor].
  - intros s Hs. unfold quote. induction Hs as [|c s Hc _ IH]; [done|].
    cbn [mbind list_bind]. change (list_bind _ _ ?f s) with (s ≫= f). rewrite IH.
    destruct Hc as [->| ->]; [done|]. by rewrite orb_true_r.
Qed.

End FileServiceFacts.
